(** * pyHEDGES: the hash mixer, the encoder, the decoder and the A* repair

    A shallow embedding of [hedges.py] (functions [hash_function], [encode],
    [decode], [repair] and the local class [InfoVertex]) and the properties
    of its specification that were checked against it.

    The scores of [repair] are the numbers of Python it is called with: the
    search is written over an interface of numbers ([Score]) with two
    instances, the exact numbers and the binary64 floats of the default
    penalties. *)

From Stdlib Require Import ZArith QArith Lia Bool.
From Stdlib Require Import Floats.SpecFloat.
From stdpp Require Import base decidable option list.

Local Open Scope Z_scope.

(** ** Data model *)

(** The nucleotide alphabet; a DNA string is a Python [str] over it. *)
Inductive nucleotide : Set := A | C | G | T.

Definition dna := list nucleotide.

#[global] Instance nucleotide_eq_dec : EqDecision nucleotide.
Proof. solve_decision. Defined.

(** The exceptions the three entry points can raise.  Both [ValueError]s of
    the source carry the strand index in their message. *)
Inductive exn : Set :=
| CannotBeEncoded (strand_index : Z)   (* ValueError raised by [encode] *)
| ContainsErrors (strand_index : Z)    (* ValueError raised by [decode] *)
| IndexError                           (* list index out of range *)
| EmptySequence.                       (* ValueError of [min] on an empty list *)

(** Outcome of a run: a value, an exception, or a loop that was still
    running when the fuel of the model ran out. *)
Inductive result (X : Type) : Type :=
| Ok (x : X)
| Raise (e : exn)
| OutOfFuel.

Arguments Ok {X} x.
Arguments Raise {X} e.
Arguments OutOfFuel {X}.

Definition bind {X Y : Type} (r : result X) (k : X -> result Y) : result Y :=
  match r with
  | Ok x => k x
  | Raise e => Raise e
  | OutOfFuel => OutOfFuel
  end.

Notation "'let*' x ':=' r 'in' k" := (bind r (fun x => k))
  (at level 10, x pattern, r at level 100, k at level 200).

(** Python's [l[i]] for a non-negative index. *)
Definition getitem {X : Type} (l : list X) (i : nat) : result X :=
  match l !! i with
  | Some x => Ok x
  | None => Raise IndexError
  end.

(** Python's [l[i:j]] for non-negative bounds. *)
Definition slice {X : Type} (l : list X) (i j : nat) : list X :=
  drop i (take j l).

(** ** Hash mixer *)

(** numpy's [longlong]: a signed 64-bit integer; arithmetic wraps around. *)
Definition longlong (z : Z) : Z := (z + 2 ^ 63) mod 2 ^ 64 - 2 ^ 63.

(** [hash_function]: the first product turns [source_value] into a numpy
    [longlong] and every intermediate is one, so [>>] is the arithmetic right
    shift of a signed value and [<<], [*], [+] wrap around.  This is the
    function on the [source_value]s in the range of a [longlong]: numpy
    refuses the product with a Python [int] outside that range, which the
    definition does not follow (see [widths_fit] below for the inputs that
    stay in the range). *)
Definition hash_function (source_value : Z) : Z :=
  let target_value := longlong (source_value * 3935559000370003845) in
  let target_value := longlong (target_value + 2691343689449507681) in
  let target_value := Z.lxor target_value (Z.shiftr target_value 21) in
  let target_value := Z.lxor target_value (longlong (Z.shiftl target_value 37)) in
  let target_value := Z.lxor target_value (Z.shiftr target_value 4) in
  let target_value := longlong (target_value * 4768777513237032717) in
  let target_value := Z.lxor target_value (longlong (Z.shiftl target_value 20)) in
  let target_value := Z.lxor target_value (Z.shiftr target_value 41) in
  let target_value := Z.lxor target_value (longlong (Z.shiftl target_value 5)) in
  target_value.

(** The range of a [longlong]. *)
Definition int64 (z : Z) : Prop := - 2 ^ 63 <= z < 2 ^ 63.

(** *** The scrambler as the specification words it

    A 64-bit word is a number in [0, 2^64).  Multiplication, addition and
    left shift are taken modulo 2^64.  The right shift is a parameter, so
    that both readings of a 64-bit right shift can be compared with the
    code: [shr_logical] fills with zeros, [shr_arith] copies the sign bit
    of the two's complement reading. *)
Definition u64 (z : Z) : Z := z mod 2 ^ 64.

Definition s64 (w : Z) : Z := if w <? 2 ^ 63 then w else w - 2 ^ 64.

Definition shl64 (w n : Z) : Z := u64 (Z.shiftl w n).

Definition shr_logical (w n : Z) : Z := Z.shiftr w n.

Definition shr_arith (w n : Z) : Z := u64 (Z.shiftr (s64 w) n).

Definition scrambler (shr : Z -> Z -> Z) (mul1 add1 mul2 : Z) (x : Z) : Z :=
  let y := u64 (x * mul1) in
  let y := u64 (y + add1) in
  let y := Z.lxor y (shr y 21) in
  let y := Z.lxor y (shl64 y 37) in
  let y := Z.lxor y (shr y 4) in
  let y := u64 (y * mul2) in
  let y := Z.lxor y (shl64 y 20) in
  let y := Z.lxor y (shr y 41) in
  let y := Z.lxor y (shl64 y 5) in
  y.

(** The constants printed in the specification. *)
Definition spec_mul1 : Z := 0x369DEA0F31A53F85.
Definition spec_add1 : Z := 0x25584FA4FF82E38B.
Definition spec_mul2 : Z := 0x422EB4BE0BE98727.

(** The constants of the source, in hexadecimal. *)
Definition code_mul1 : Z := 0x369DEA0F31A53F85.
Definition code_add1 : Z := 0x255992D382208B61.
Definition code_mul2 : Z := 0x422E19E1D95D2F0D.

(** ** Data and loops of the repair search *)

(** The vertex of the search: class [InfoVertex]. *)
Record InfoVertex : Set := InfoVertex_init {
  vertex_previous_value : Z;
  vertex_bit_index : nat;
  vertex_string : dna
}.

(** The scores.  [repair] adds the scores it is given, compares them
    ([min], [==]) and writes the [int] [len(dna_string)] among them: it
    runs on any numbers of Python.  [Score] lists these operations for a
    type of numbers. *)
Class Score (T : Type) : Type := {
  score_add : T -> T -> T;       (* [a + b] *)
  score_ltb : T -> T -> bool;    (* [a < b], the comparison [min] makes *)
  score_eqb : T -> T -> bool;    (* [a == b] *)
  score_of_nat : nat -> T        (* the [int] [len(dna_string)] as a score *)
}.

#[global] Hint Mode Score ! : typeclass_instances.

(** The exact numbers: [int] and [fractions.Fraction]. *)
#[global] Instance exact_score : Score Q := {|
  score_add := Qplus;
  score_ltb := fun a b => negb (Qle_bool b a);
  score_eqb := Qeq_bool;
  score_of_nat := fun n => inject_Z (Z.of_nat n)
|}.

(** The [float]s of Python, IEEE 754 binary64: a sum is rounded to the
    nearest float (ties to even), [nan] compares unequal to every float,
    itself included, and is below none; an [int] below 2^53 is a float. *)
Definition binary64 : Set := spec_float.

#[global] Instance binary64_score : Score binary64 := {|
  score_add := SFadd 53 1024;
  score_ltb := SFltb;
  score_eqb := SFeqb;
  score_of_nat := fun n => binary_normalize 53 1024 (Z.of_nat n) 0 false
|}.

(** What the search of an undamaged string asks of the comparisons: a
    number that is below another one is not above it and is not equal to
    it.  Both instances have it. *)
Class ScoreOrder (T : Type) {score_ops : Score T} : Prop := {
  score_ltb_asym :
    forall a b : T, score_ltb a b = true -> score_ltb b a = false;
  score_ltb_neq :
    forall a b : T, score_ltb a b = true -> score_eqb b a = false
}.

(** The priority heap: the dictionary with the four parallel lists
    ["v"], ["s"], ["i"] and ["l"]. *)
Record Heap (T : Type) : Type := {
  heap_v : list InfoVertex;
  heap_s : list T;
  heap_i : list nat;
  heap_l : list nat
}.

Arguments heap_v {T} _.
Arguments heap_s {T} _.
Arguments heap_i {T} _.
Arguments heap_l {T} _.
Arguments Build_Heap {T} _ _ _ _.

(** [itertools.product([0, 1], repeat=n)], in the order Python yields. *)
Fixpoint product01 (n : nat) : list (list Z) :=
  match n with
  | O => [[]]
  | S n => map (cons 0) (product01 n) ++ map (cons 1) (product01 n)
  end.

(** A [for] loop whose body appends to one list and may raise. *)
Fixpoint for_each {X Y : Type} (l : list X) (body : X -> result (list Y))
    : result (list Y) :=
  match l with
  | [] => Ok []
  | x :: l =>
      let* ys := body x in
      let* rest := for_each l body in
      Ok (ys ++ rest)
  end.

(** [numpy.where(condition)[0]]: the indices at which the condition holds. *)
Fixpoint where_from {X : Type} (p : X -> bool) (offset : nat) (l : list X)
    : list nat :=
  match l with
  | [] => []
  | x :: l =>
      if p x then offset :: where_from p (S offset) l
      else where_from p (S offset) l
  end.

Definition where_ {X : Type} (p : X -> bool) (l : list X) : list nat :=
  where_from p 0 l.

(** Python's [min] of a list: the first item is kept until an item is
    [<] the one kept. *)
Definition python_min {T : Type} {score_ops : Score T} (l : list T) : result T :=
  match l with
  | [] => Raise EmptySequence
  | x :: l =>
      Ok (fold_left (fun lowest y => if score_ltb y lowest then y else lowest)
            l x)
  end.

(** ** Encoder and decoder *)

(** A bit of a binary message. *)
Definition is_bit (b : Z) : Prop := b = 0 \/ b = 1.

(** Modelled from the spec: [bit_to_number] is imported from the package
    [dsw], which is not part of the sources; the window of previous bits is
    read most-significant-bit first (earlier bits are higher-order). *)
Definition bit_to_number (bits : list Z) : Z :=
  fold_left (fun number bit => 2 * number + bit) bits 0.

Section Codec.

(** [bio_filter.valid(sequence, only_last)], the opaque constraint oracle. *)
Variable bio_filter_valid : dna -> bool -> bool.
Variable mapping : list nucleotide.
Variables salt_number previous_number low_order_number : nat.
Variable strand_index : Z.

(** The loop shared by [encode], [decode] and [InfoVertex.next]:
    [for potential_nucleotide in mapping: if valid(s + potential_nucleotide,
    only_last=True): available_nucleotides.append(potential_nucleotide)]. *)
Definition collect_available (s : dna) : list nucleotide :=
  filter (fun potential_nucleotide =>
            bio_filter_valid (s ++ [potential_nucleotide]) true = true) mapping.

Definition salt_index : Z := strand_index mod 2 ^ Z.of_nat salt_number.

(** [hash_function(bit_index | previous_value | salt_index)] *)
Definition hash_of (bit_index previous_value salt : Z) : Z :=
  hash_function (Z.lor (Z.lor bit_index previous_value) salt).

(** The hash the encoder takes at [bit_location], and the hash the decoder
    takes once it holds [binary_message]. *)
Definition encoder_hash (binary_message : list Z) (bit_location : nat) : Z :=
  hash_of (Z.of_nat bit_location mod 2 ^ Z.of_nat low_order_number)
    (if Z.of_nat bit_location - Z.of_nat previous_number >=? 0
     then bit_to_number
            (slice binary_message (bit_location - previous_number) bit_location)
     else 0)
    salt_index.

Definition decoder_hash (binary_message : list Z) : Z :=
  hash_of (Z.of_nat (length binary_message) mod 2 ^ Z.of_nat low_order_number)
    (if Z.of_nat (length binary_message) - Z.of_nat previous_number >=? 0
     then bit_to_number
            (drop (length binary_message - previous_number) binary_message)
     else 0)
    salt_index.

Section Encode.

Variable binary_message : list Z.

(** The body of the [while] loop of [encode] up to [dna_string +=
    nucleotide]: the emitted nucleotide and the new [bit_location]. *)
Definition encode_emit (available_nucleotides : list nucleotide)
    (bit_location : nat) : result (nucleotide * nat) :=
  let bit_index := Z.of_nat bit_location mod 2 ^ Z.of_nat low_order_number in
  let previous_value :=
    if Z.of_nat bit_location - Z.of_nat previous_number >=? 0
    then bit_to_number
           (slice binary_message (bit_location - previous_number) bit_location)
    else 0 in
  match length available_nucleotides with
  | 1%nat =>
      let* nucleotide := getitem available_nucleotides 0 in
      Ok (nucleotide, bit_location)
  | 2%nat | 3%nat =>
      let hash_value := hash_of bit_index previous_value salt_index mod 2 in
      let* bit_value := getitem binary_message bit_location in
      let* nucleotide :=
        getitem available_nucleotides (Z.to_nat ((hash_value + bit_value) mod 2)) in
      Ok (nucleotide, (bit_location + 1)%nat)
  | _ =>
      let hash_value := hash_of bit_index previous_value salt_index mod 4 in
      let* bit_value :=
        if (bit_location + 2 <=? length binary_message)%nat
        then
          let* high := getitem binary_message bit_location in
          let* low := getitem binary_message (bit_location + 1) in
          Ok (high * 2 + low)
        else getitem binary_message bit_location in
      let* nucleotide :=
        getitem available_nucleotides (Z.to_nat ((hash_value + bit_value) mod 4)) in
      Ok (nucleotide, (bit_location + 2)%nat)
  end.

(** The [while bit_location < len(binary_message)] loop; one unit of
    fuel per iteration. *)
Fixpoint encode_loop (fuel : nat) (dna_string : dna)
    (available_nucleotides : list nucleotide) (bit_location : nat)
    : result dna :=
  match fuel with
  | O => OutOfFuel
  | S fuel =>
      if (bit_location <? length binary_message)%nat then
        let* (nucleotide, bit_location) :=
          encode_emit available_nucleotides bit_location in
        let dna_string := dna_string ++ [nucleotide] in
        let available_nucleotides := collect_available dna_string in
        if (length available_nucleotides =? 0)%nat
        then Raise (CannotBeEncoded strand_index)
        else encode_loop fuel dna_string available_nucleotides bit_location
      else Ok dna_string
  end.

Definition encode (fuel : nat) : result dna :=
  encode_loop fuel [] mapping 0.

End Encode.

Section Decode.

Variable dna_string : dna.
Variable bit_length : nat.

(** [for bit_value in range(4): if available_nucleotides[(hash_value +
    bit_value) % 4] == nucleotide: ...; break]: the first matching
    [bit_value] among [candidates], if any. *)
Fixpoint decode_search (available_nucleotides : list nucleotide)
    (hash_value : Z) (nucleotide : nucleotide) (candidates : list Z)
    : result (option Z) :=
  match candidates with
  | [] => Ok None
  | bit_value :: candidates =>
      let* found :=
        getitem available_nucleotides (Z.to_nat ((hash_value + bit_value) mod 4)) in
      if decide (found = nucleotide) then Ok (Some bit_value)
      else decode_search available_nucleotides hash_value nucleotide candidates
  end.

(** The bits one nucleotide adds to [binary_message]. *)
Definition decode_symbol (available_nucleotides : list nucleotide)
    (binary_message : list Z) (nucleotide : nucleotide) : result (list Z) :=
  let bit_index :=
    Z.of_nat (length binary_message) mod 2 ^ Z.of_nat low_order_number in
  let previous_value :=
    if Z.of_nat (length binary_message) - Z.of_nat previous_number >=? 0
    then bit_to_number
           (drop (length binary_message - previous_number) binary_message)
    else 0 in
  match length available_nucleotides with
  | 1%nat => Ok binary_message
  | 2%nat | 3%nat =>
      let hash_value := hash_of bit_index previous_value salt_index mod 2 in
      let* expected :=
        getitem available_nucleotides (Z.to_nat ((hash_value + 0) mod 2)) in
      if decide (expected = nucleotide)
      then Ok (binary_message ++ [0])
      else Ok (binary_message ++ [1])
  | _ =>
      let hash_value := hash_of bit_index previous_value salt_index mod 4 in
      let* found :=
        decode_search available_nucleotides hash_value nucleotide [0; 1; 2; 3] in
      match found with
      | Some bit_value =>
          if (bit_length <? length binary_message + 2)%nat
          then Ok (binary_message ++ [bit_value mod 2])
          else Ok (binary_message ++ [bit_value / 2; bit_value mod 2])
      | None => Ok binary_message
      end
  end.

(** [for nucleotide_index, nucleotide in enumerate(dna_string)];
    [rest] is the part of [dna_string] not yet visited. *)
Fixpoint decode_loop (nucleotide_index : nat) (rest : dna)
    (binary_message : list Z) (available_nucleotides : list nucleotide)
    : result (list Z) :=
  match rest with
  | [] => Ok (take bit_length binary_message)
  | nucleotide :: rest =>
      let* binary_message :=
        decode_symbol available_nucleotides binary_message nucleotide in
      let available_nucleotides :=
        collect_available (take (nucleotide_index + 1) dna_string) in
      if (length available_nucleotides =? 0)%nat
      then Raise (ContainsErrors strand_index)
      else decode_loop (nucleotide_index + 1) rest binary_message
             available_nucleotides
  end.

Definition decode : result (list Z) :=
  decode_loop 0 dna_string [] mapping.

End Decode.

(** ** Repair *)

Section Repair.

Context {T : Type} {score_ops : Score T}.

Variable dna_string : dna.
Variable initial_score : T.
Variable bit_length : nat.
Variable heap_limitation : Z.
Variables correct_penalty insert_penalty delete_penalty mutate_penalty : T.

(** A followed hypothesis: the vertex, its score and its index into
    [dna_string]; [next] appends the three to [follow_vertices],
    [follow_scores] and [follow_indices] together. *)
Definition follow : Type := (InfoVertex * T * nat)%type.

Definition extend (self : InfoVertex) (previous_value : Z) (bits : nat)
    (nucleotide : nucleotide) : InfoVertex :=
  InfoVertex_init previous_value (vertex_bit_index self + bits)
    (vertex_string self ++ [nucleotide]).

(** "assume that current nucleotide is correct or is mutated" *)
Definition next_match (self : InfoVertex) (salt_value : Z)
    (nucleotide_index : nat) (current_score : T)
    (available_nucleotides : list nucleotide) : result (list follow) :=
  let bit_index :=
    Z.of_nat (vertex_bit_index self) mod 2 ^ Z.of_nat low_order_number in
  let* received := getitem dna_string nucleotide_index in
  if decide (received ∈ available_nucleotides) then
    let nucleotide := received in
    for_each (product01 (Nat.log2 (length available_nucleotides)))
      (fun message_bit =>
         match message_bit with
         | [bit0] =>
             let hash_value :=
               hash_of bit_index (vertex_previous_value self) salt_value mod 2 in
             let previous_value :=
               (vertex_previous_value self * 2 + bit0)
               mod 2 ^ Z.of_nat previous_number in
             let bit_value := bit0 in
             let* expected :=
               getitem available_nucleotides
                 (Z.to_nat ((hash_value + bit_value) mod 2)) in
             let vertex := extend self previous_value 1 nucleotide in
             if decide (expected = nucleotide)
             then Ok [(vertex, score_add current_score correct_penalty,
                       (nucleotide_index + 1)%nat)]
             else Ok [(vertex, score_add current_score mutate_penalty,
                       (nucleotide_index + 1)%nat)]
         | [bit0; bit1] =>
             let hash_value :=
               hash_of bit_index (vertex_previous_value self) salt_value mod 4 in
             let bit_value := bit0 * 2 + bit1 in
             let previous_value :=
               (vertex_previous_value self * 4 + bit_value)
               mod 2 ^ Z.of_nat previous_number in
             let* expected :=
               getitem available_nucleotides
                 (Z.to_nat ((hash_value + bit_value) mod 4)) in
             let vertex := extend self previous_value 2 nucleotide in
             if decide (expected = nucleotide)
             then Ok [(vertex, score_add current_score correct_penalty,
                       (nucleotide_index + 1)%nat)]
             else Ok [(vertex, score_add current_score mutate_penalty,
                       (nucleotide_index + 1)%nat)]
         | _ =>
             let vertex := extend self (vertex_previous_value self) 0 nucleotide in
             Ok [(vertex, score_add current_score correct_penalty,
                  (nucleotide_index + 1)%nat)]
         end)
  else Ok [].

(** "assume that the current nucleotide is inserted" *)
Definition next_insert (self : InfoVertex) (salt_value : Z)
    (nucleotide_index : nat) (current_score : T)
    (available_nucleotides : list nucleotide) : result (list follow) :=
  let bit_index :=
    Z.of_nat (vertex_bit_index self) mod 2 ^ Z.of_nat low_order_number in
  if (nucleotide_index + 1 <? length dna_string)%nat then
    let* received := getitem dna_string (nucleotide_index + 1) in
    if decide (received ∈ available_nucleotides) then
      let nucleotide := received in
      for_each (product01 (Nat.log2 (length available_nucleotides)))
        (fun message_bit =>
           let* vertex :=
             match message_bit with
             | [bit0] =>
                 let hash_value :=
                   hash_of bit_index (vertex_previous_value self) salt_value mod 2 in
                 let bit_value := bit0 in
                 let previous_value :=
                   (vertex_previous_value self * 2 + bit0)
                   mod 2 ^ Z.of_nat previous_number in
                 let* expected :=
                   getitem available_nucleotides
                     (Z.to_nat ((hash_value + bit_value) mod 2)) in
                 if decide (expected = nucleotide)
                 then Ok (Some (extend self previous_value 1 nucleotide))
                 else Ok None
             | [bit0; bit1] =>
                 let hash_value :=
                   hash_of bit_index (vertex_previous_value self) salt_value mod 4 in
                 let bit_value := bit0 * 2 + bit1 in
                 let previous_value :=
                   (vertex_previous_value self * 4 + bit_value)
                   mod 2 ^ Z.of_nat previous_number in
                 let* expected :=
                   getitem available_nucleotides
                     (Z.to_nat ((hash_value + bit_value) mod 4)) in
                 if decide (expected = nucleotide)
                 then Ok (Some (extend self previous_value 2 nucleotide))
                 else Ok None
             | _ =>
                 Ok (Some (extend self (vertex_previous_value self) 0 nucleotide))
             end in
           match vertex with
           | Some vertex =>
               Ok [(vertex, score_add current_score insert_penalty,
                    (nucleotide_index + 2)%nat)]
           | None => Ok []
           end)
    else Ok []
  else Ok [].

(** "assume that current nucleotide is deleted" *)
Definition next_delete (self : InfoVertex) (salt_value : Z)
    (nucleotide_index : nat) (current_score : T)
    (available_nucleotides : list nucleotide) : result (list follow) :=
  let bit_index :=
    Z.of_nat (vertex_bit_index self) mod 2 ^ Z.of_nat low_order_number in
  for_each (product01 (Nat.log2 (length available_nucleotides)))
    (fun message_bit =>
       match message_bit with
       | [bit0] =>
           let hash_value :=
             hash_of bit_index (vertex_previous_value self) salt_value mod 2 in
           let bit_value := bit0 in
           let previous_value :=
             (vertex_previous_value self * 2 + bit_value)
             mod 2 ^ Z.of_nat previous_number in
           let* nucleotide :=
             getitem available_nucleotides
               (Z.to_nat ((hash_value + bit_value) mod 2)) in
           Ok [(extend self previous_value 1 nucleotide,
                score_add current_score delete_penalty, nucleotide_index)]
       | [bit0; bit1] =>
           let hash_value :=
             hash_of bit_index (vertex_previous_value self) salt_value mod 4 in
           let bit_value := bit0 * 2 + bit1 in
           let previous_value :=
             (vertex_previous_value self * 4 + bit_value)
             mod 2 ^ Z.of_nat previous_number in
           let* nucleotide :=
             getitem available_nucleotides
               (Z.to_nat ((hash_value + bit0) mod 4)) in
           Ok [(extend self previous_value 2 nucleotide,
                score_add current_score delete_penalty, nucleotide_index)]
       | _ =>
           Ok (map (fun nucleotide =>
                      (extend self (vertex_previous_value self) 0 nucleotide,
                       score_add current_score delete_penalty, nucleotide_index))
                 available_nucleotides)
       end).

(** [InfoVertex.next]: the followed vertices, their scores, their
    indices and their bit indices. *)
Definition next (self : InfoVertex) (salt_value : Z) (nucleotide_index : nat)
    (current_score : T)
    : result (list InfoVertex * list T * list nat * list nat) :=
  if Z.of_nat nucleotide_index >? Z.of_nat (length dna_string) - 1
  then Ok ([], [], [], [])
  else
    let available_nucleotides := collect_available (vertex_string self) in
    if (length available_nucleotides =? 0)%nat
    then Ok ([], [], [], [])
    else
      let* matched :=
        next_match self salt_value nucleotide_index current_score
          available_nucleotides in
      let* inserted :=
        next_insert self salt_value nucleotide_index current_score
          available_nucleotides in
      let* deleted :=
        next_delete self salt_value nucleotide_index current_score
          available_nucleotides in
      let follows := matched ++ inserted ++ deleted in
      let follow_vertices := map (fun f : follow => f.1.1) follows in
      Ok (follow_vertices,
          map (fun f : follow => f.1.2) follows,
          map (fun f : follow => f.2) follows,
          map vertex_bit_index follow_vertices).

(** The score written over the score of an expanded vertex. *)
Definition retired_score : T := score_of_nat (length dna_string).

Definition initial_heap : Heap T :=
  {| heap_v := [InfoVertex_init 0 0 []]; heap_s := [initial_score];
     heap_i := [0%nat]; heap_l := [0%nat] |}.

(** The test that ends the search. *)
Definition search_finished (heap : Heap T) : bool :=
  (bit_length =? max_list (heap_l heap))%nat
  || (Z.of_nat (length (heap_v heap)) >? heap_limitation).

(** [for chuck in used_indices]: [inl] when the loop left through
    [finished = True; break], [inr] when it ran to its end. *)
Fixpoint expand_chucks (used_score : T) (heap : Heap T) (used_indices : list nat)
    : result (Heap T + Heap T) :=
  match used_indices with
  | [] => Ok (inr heap)
  | chuck :: used_indices =>
      let* used_vertex := getitem (heap_v heap) chuck in
      let* base_index := getitem (heap_i heap) chuck in
      let* retired :=
        if (chuck <? length (heap_s heap))%nat
        then Ok (<[chuck := retired_score]> (heap_s heap))
        else Raise IndexError in
      let heap :=
        {| heap_v := heap_v heap; heap_s := retired;
           heap_i := heap_i heap; heap_l := heap_l heap |} in
      let* follow_info :=
        next used_vertex (strand_index mod 2 ^ Z.of_nat salt_number)
          base_index used_score in
      if search_finished heap then Ok (inl heap)
      else
        let '(follow_v, follow_s, follow_i, follow_l) := follow_info in
        expand_chucks used_score
          {| heap_v := heap_v heap ++ follow_v; heap_s := heap_s heap ++ follow_s;
             heap_i := heap_i heap ++ follow_i; heap_l := heap_l heap ++ follow_l |}
          used_indices
  end.

(** One iteration of [while True], up to [if finished]. *)
Definition repair_pass (heap : Heap T) : result (Heap T + Heap T) :=
  let* lowest := python_min (heap_s heap) in
  let used_indices := where_ (fun score => score_eqb score lowest) (heap_s heap) in
  let* first_used := getitem used_indices 0 in
  let* used_score := getitem (heap_s heap) first_used in
  expand_chucks used_score heap used_indices.

(** [while True]; one unit of fuel per iteration.  The value is the heap
    at the moment the search finished. *)
Fixpoint repair_loop (fuel : nat) (heap : Heap T) : result (Heap T) :=
  match fuel with
  | O => OutOfFuel
  | S fuel =>
      let* pass := repair_pass heap in
      match pass with
      | inl heap => Ok heap
      | inr heap => repair_loop fuel heap
      end
  end.

(** [results], before [list(set(results))]. *)
Definition terminal_strings (heap : Heap T) : result (list dna) :=
  let terminal_indices := where_ (fun l => (l =? bit_length)%nat) (heap_l heap) in
  for_each terminal_indices
    (fun terminal_index =>
       let* vertex := getitem (heap_v heap) terminal_index in
       Ok [vertex_string vertex]).

(** [repair]; the order of [list(set(results))] is not fixed by Python,
    the model lists each string once. *)
Definition repair (fuel : nat) : result (list dna * nat) :=
  let* heap := repair_loop fuel initial_heap in
  let* results := terminal_strings heap in
  Ok (remove_dups results, length (heap_v heap)).

End Repair.

End Codec.

(** A literal written for the initial score is read as an exact number. *)
Arguments repair bio_filter_valid%_function mapping%_list salt_number%_nat
  previous_number%_nat low_order_number%_nat strand_index%_Z {T score_ops}
  dna_string%_list initial_score%_Q bit_length%_nat heap_limitation%_Z
  correct_penalty insert_penalty delete_penalty mutate_penalty fuel%_nat.

(** ** The widths of the registers

    [hash_function] multiplies what it is given by a numpy [longlong], and
    numpy refuses a Python [int] outside the range of a [longlong]
    ([OverflowError]): [hash_function] above is the function on that range.
    What the code hashes is the OR of three non-negative registers, the
    low-order bits of the bit index, the previous bits and the salt; it is
    in the range when no register is wider than 63 bits.  The properties
    that promise an outcome ask for such widths. *)
Definition widths_fit (salt_number previous_number low_order_number : nat)
    : Prop :=
  (salt_number <= 63)%nat /\ (previous_number <= 63)%nat
  /\ (low_order_number <= 63)%nat.

(** A register of 63 bits at most: a [longlong] that is not negative. *)
Definition register (z : Z) : Prop := 0 <= z < 2 ^ 63.

(** A vertex whose previous bits fit the register of [previous_number]
    bits, as those of every vertex of the search do. *)
Definition vertex_fits (previous_number : nat) (vertex : InfoVertex) : Prop :=
  0 <= vertex_previous_value vertex < 2 ^ Z.of_nat previous_number.

(** ** Invariants of the repair search *)

(** What [next] appends: the string of the vertex extended by one
    available nucleotide. *)
Definition extends_by (self : InfoVertex) (available : list nucleotide)
    (vertex : InfoVertex) : Prop :=
  exists previous_value bits nucleotide,
    nucleotide ∈ available
    /\ vertex = extend self previous_value bits nucleotide.

(** The four lists of the heap stay parallel, and the heap is never empty. *)
Definition heap_wf {T : Type} (heap : Heap T) : Prop :=
  length (heap_s heap) = length (heap_v heap)
  /\ length (heap_i heap) = length (heap_v heap)
  /\ length (heap_l heap) = length (heap_v heap)
  /\ (0 < length (heap_v heap))%nat.

(** The heap only grows, and so does the largest bit index it holds. *)
Definition heap_le {T : Type} (heap heap' : Heap T) : Prop :=
  (length (heap_v heap) <= length (heap_v heap'))%nat
  /\ (max_list (heap_l heap) <= max_list (heap_l heap'))%nat.

(** ** Inputs of the examples *)

(** The mapping of the tests and the default parameters. *)
Definition acgt : list nucleotide := [A; C; G; T].
Definition default_salt_number : nat := 46.
Definition default_previous_number : nat := 8.
Definition default_low_order_number : nat := 10.
Definition default_correct_penalty : Q := -0.035.
Definition default_insert_penalty : Q := 1.
Definition default_delete_penalty : Q := 1.
Definition default_mutate_penalty : Q := 1.

(** The default penalties as Python reads them: the [float]s 1.0 and
    -0.035, the float nearest to 35/1000 with the sign changed.  An [int]
    of the caller, such as the initial score 0 of the tests, behaves as its
    float. *)
Definition float_of_Z (z : Z) : binary64 := binary_normalize 53 1024 z 0 false.
Definition float_correct_penalty : binary64 :=
  SFopp (SFdiv 53 1024 (float_of_Z 35) (float_of_Z 1000)).
Definition float_insert_penalty : binary64 := float_of_Z 1.
Definition float_delete_penalty : binary64 := float_of_Z 1.
Definition float_mutate_penalty : binary64 := float_of_Z 1.

(** An oracle that accepts every sequence. *)
Definition accept_all (sequence : dna) (only_last : bool) : bool := true.

(** An oracle that rejects the sequences of exactly one nucleotide. *)
Definition reject_singletons (sequence : dna) (only_last : bool) : bool :=
  negb (length sequence =? 1)%nat.

(** An oracle that rejects every sequence longer than two nucleotides. *)
Definition reject_longer (sequence : dna) (only_last : bool) : bool :=
  (length sequence <? 3)%nat.

(** An oracle that rejects a nucleotide equal to the one before it
    (homopolymer runs of length one at most). *)
Definition no_repeat (sequence : dna) (only_last : bool) : bool :=
  match reverse sequence with
  | x :: y :: _ => negb (bool_decide (x = y))
  | _ => true
  end.

(** The root of the search. *)
Definition root : InfoVertex := InfoVertex_init 0 0 [].

(** The heap of [repair] on the received string [A] with the oracle
    [accept_all], after the first iteration of [while True]: the root is
    retired and its eight followers stand at bit index 2. *)
Definition overshoot_heap : Heap binary64 :=
  {| heap_v := [root;
                InfoVertex_init 0 2 [A]; InfoVertex_init 1 2 [A];
                InfoVertex_init 2 2 [A]; InfoVertex_init 3 2 [A];
                InfoVertex_init 0 2 [T]; InfoVertex_init 1 2 [T];
                InfoVertex_init 2 2 [A]; InfoVertex_init 3 2 [A]];
     heap_s := [float_of_Z 1; float_of_Z 1; float_correct_penalty;
                float_of_Z 1; float_of_Z 1; float_of_Z 1; float_of_Z 1;
                float_of_Z 1; float_of_Z 1];
     heap_i := [0; 1; 1; 1; 1; 0; 0; 0; 0]%nat;
     heap_l := [0; 2; 2; 2; 2; 2; 2; 2; 2]%nat |}.

(** An oracle that only accepts the sequences ending in [A]. *)
Definition only_A (sequence : dna) (only_last : bool) : bool :=
  match last sequence with
  | Some A => true
  | _ => false
  end.

(** The bits [InfoVertex.next] adds to the bit index of a followed vertex,
    for message bits of length [w]: the branches [len(message_bit) == 1],
    [len(message_bit) == 2] and [else]. *)
Definition step_bits (w : nat) : nat :=
  match w with
  | 1%nat => 1%nat
  | 2%nat => 2%nat
  | _ => 0%nat
  end.

(** A followed vertex: one more nucleotide, taken from the available ones,
    and the bits that the number of available nucleotides gives. *)
Definition follows_from (self : InfoVertex) (available : list nucleotide)
    (vertex : InfoVertex) : Prop :=
  exists previous_value nucleotide,
    nucleotide ∈ available
    /\ vertex = extend self previous_value
                  (step_bits (Nat.log2 (length available))) nucleotide.

(** A vertex whose string the oracle accepted nucleotide by nucleotide, and
    whose bit index is at most two bits a nucleotide. *)
Definition vertex_ok (bio_filter_valid : dna -> bool -> bool)
    (vertex : InfoVertex) : Prop :=
  (forall n, (1 <= n <= length (vertex_string vertex))%nat ->
             bio_filter_valid (take n (vertex_string vertex)) true = true)
  /\ (vertex_bit_index vertex <= 2 * length (vertex_string vertex))%nat.

(** A heap of such vertices, whose list ["l"] holds their bit indices and
    whose list ["i"] holds indices into the received string or its end. *)
Definition heap_ok {T : Type} (bio_filter_valid : dna -> bool -> bool)
    (dna_string : dna) (heap : Heap T) : Prop :=
  heap_l heap = map vertex_bit_index (heap_v heap)
  /\ Forall (vertex_ok bio_filter_valid) (heap_v heap)
  /\ Forall (fun i => (i <= length dna_string)%nat) (heap_i heap).

(** The bit index of the vertex that [repair] reaches by following a string
    nucleotide by nucleotide: after [prefix], each nucleotide of [rest]
    adds the bits that the nucleotides available before it give. *)
Fixpoint carried_from (bio_filter_valid : dna -> bool -> bool)
    (mapping : list nucleotide) (prefix rest : dna) : nat :=
  match rest with
  | [] => 0%nat
  | x :: rest =>
      (step_bits
         (Nat.log2 (length (collect_available bio_filter_valid mapping prefix)))
       + carried_from bio_filter_valid mapping (prefix ++ [x]) rest)%nat
  end.

Definition carried_bits (bio_filter_valid : dna -> bool -> bool)
    (mapping : list nucleotide) (s : dna) : nat :=
  carried_from bio_filter_valid mapping [] s.

(** A nucleotide that message bits can select among the available ones:
    one of the first [2 ^ floor(log2 k)] of them. *)
Definition codable (available : list nucleotide) (x : nucleotide) : Prop :=
  exists j, available !! j = Some x
            /\ (j < 2 ^ Nat.log2 (length available))%nat.

(** The score of the vertex that [repair] reaches after [n] nucleotides
    of an undamaged string: the initial score and [n] correct penalties,
    added one after the other. *)
Definition walk_score {T : Type} {score_ops : Score T} (initial_score
    correct_penalty : T) (n : nat) : T :=
  Nat.iter n (fun score => score_add score correct_penalty) initial_score.

(** The heap of [repair] while the search follows the received string: the
    vertex at position [h] holds the first [n] nucleotides of the string
    and the bits they carry, its score is that of the walk, every other
    score is above the scores of the rest of the walk, and no vertex has a
    larger bit index. *)
Definition head_at {T : Type} {score_ops : Score T}
    (bio_filter_valid : dna -> bool -> bool)
    (mapping : list nucleotide) (dna_string : dna)
    (initial_score correct_penalty : T) (heap : Heap T)
    (h n : nat) : Prop :=
  heap_wf heap
  /\ (exists previous_value,
        heap_v heap !! h
        = Some (InfoVertex_init previous_value
                  (carried_bits bio_filter_valid mapping (take n dna_string))
                  (take n dna_string)))
  /\ heap_i heap !! h = Some n
  /\ heap_s heap !! h = Some (walk_score initial_score correct_penalty n)
  /\ (forall j y, j <> h -> heap_s heap !! j = Some y ->
        forall k, (n <= k <= length dna_string)%nat ->
          score_ltb (walk_score initial_score correct_penalty k) y = true)
  /\ max_list (heap_l heap)
     = carried_bits bio_filter_valid mapping (take n dna_string)
  /\ heap_l heap !! h
     = Some (carried_bits bio_filter_valid mapping (take n dna_string)).

(** A string the decoder can read: each of its nucleotides is one of the
    nucleotides available after the ones before it. *)
Definition readable (bio_filter_valid : dna -> bool -> bool)
    (mapping : list nucleotide) (s : dna) : Prop :=
  forall n x, s !! n = Some x ->
    x ∈ collect_available bio_filter_valid mapping (take n s).

(** A vertex whose string is readable and whose bit index is the number of
    bits its string carries. *)
Definition vertex_exact (bio_filter_valid : dna -> bool -> bool)
    (mapping : list nucleotide) (vertex : InfoVertex) : Prop :=
  readable bio_filter_valid mapping (vertex_string vertex)
  /\ vertex_bit_index vertex
     = carried_bits bio_filter_valid mapping (vertex_string vertex).

(** * Properties *)

(** ** Hash mixer *)

Section HashFacts.

Lemma longlong_int64 z : int64 (longlong z).
Proof.
  unfold int64, longlong.
  pose proof (Z.mod_pos_bound (z + 2 ^ 63) (2 ^ 64) ltac:(lia)). lia.
Qed.

Lemma u64_longlong z : u64 (longlong z) = u64 z.
Proof.
  unfold u64, longlong.
  rewrite Zminus_mod_idemp_l. f_equal. lia.
Qed.

Lemma s64_u64 t : int64 t -> s64 (u64 t) = t.
Proof.
  unfold int64, s64, u64. intros Ht.
  destruct (Z_lt_dec t 0) as [Hneg|Hpos].
  - replace (t mod 2 ^ 64) with (t + 2 ^ 64).
    + destruct (Z.ltb_spec (t + 2 ^ 64) (2 ^ 63)); lia.
    + apply Z.mod_unique with (q := -1); lia.
  - rewrite Z.mod_small by lia.
    destruct (Z.ltb_spec t (2 ^ 63)); lia.
Qed.

Lemma u64_lxor a b : u64 (Z.lxor a b) = Z.lxor (u64 a) (u64 b).
Proof.
  unfold u64. apply Z.bits_inj'. intros i Hi.
  rewrite Z.lxor_spec.
  destruct (Z_lt_dec i 64) as [Hlow|Hhigh].
  - rewrite !Z.mod_pow2_bits_low by lia. apply Z.lxor_spec.
  - rewrite !Z.mod_pow2_bits_high by lia. reflexivity.
Qed.

Lemma int64_shiftr63 z : int64 z <-> (Z.shiftr z 63 = 0 \/ Z.shiftr z 63 = -1).
Proof.
  unfold int64. rewrite Z.shiftr_div_pow2 by lia.
  pose proof (Z.div_mod z (2 ^ 63) ltac:(lia)).
  pose proof (Z.mod_pos_bound z (2 ^ 63) ltac:(lia)).
  split; intros; lia.
Qed.

Lemma int64_lxor a b : int64 a -> int64 b -> int64 (Z.lxor a b).
Proof.
  rewrite !int64_shiftr63, Z.shiftr_lxor.
  intros [-> | ->] [-> | ->]; cbn; auto.
Qed.

Lemma int64_shiftr a n : 0 <= n -> int64 a -> int64 (Z.shiftr a n).
Proof.
  unfold int64. intros Hn Ha. rewrite Z.shiftr_div_pow2 by lia.
  assert (0 < 2 ^ n) by (apply Z.pow_pos_nonneg; lia).
  split.
  - apply Z.div_le_lower_bound; nia.
  - apply Z.div_lt_upper_bound; nia.
Qed.

Lemma u64_mul_l a b : u64 (u64 a * b) = u64 (a * b).
Proof. unfold u64. apply Zmult_mod_idemp_l. Qed.

Lemma u64_add_l a b : u64 (u64 a + b) = u64 (a + b).
Proof. unfold u64. apply Zplus_mod_idemp_l. Qed.

Lemma shl64_u64 a n : 0 <= n -> shl64 (u64 a) n = u64 (Z.shiftl a n).
Proof.
  intros Hn. unfold shl64. rewrite !Z.shiftl_mul_pow2 by lia. apply u64_mul_l.
Qed.

Lemma shr_arith_u64 a n : int64 a -> shr_arith (u64 a) n = u64 (Z.shiftr a n).
Proof. intros Ha. unfold shr_arith. rewrite s64_u64 by assumption. reflexivity. Qed.

(** One round [y ^= y >> n] and one round [y ^= y << n] of the code keep
    the value a [longlong] and agree with the rounds on 64-bit words. *)
Lemma round_shr t n :
  0 <= n -> int64 t ->
  int64 (Z.lxor t (Z.shiftr t n)) /\
  u64 (Z.lxor t (Z.shiftr t n)) = Z.lxor (u64 t) (shr_arith (u64 t) n).
Proof.
  intros Hn Ht. split.
  - apply int64_lxor; [assumption | apply int64_shiftr; assumption].
  - rewrite u64_lxor, shr_arith_u64 by assumption. reflexivity.
Qed.

Lemma round_shl t n :
  0 <= n -> int64 t ->
  int64 (Z.lxor t (longlong (Z.shiftl t n))) /\
  u64 (Z.lxor t (longlong (Z.shiftl t n))) = Z.lxor (u64 t) (shl64 (u64 t) n).
Proof.
  intros Hn Ht. split.
  - apply int64_lxor; [assumption | apply longlong_int64].
  - rewrite u64_lxor, u64_longlong, shl64_u64 by assumption. reflexivity.
Qed.

Lemma hash_function_int64 x : int64 (hash_function x).
Proof.
  unfold hash_function.
  repeat first
    [ apply longlong_int64
    | apply int64_lxor
    | apply int64_shiftr; [lia|] ].
Qed.

Lemma hash_function_scrambler x :
  u64 (hash_function x)
  = scrambler shr_arith code_mul1 code_add1 code_mul2 (u64 x).
Proof.
  unfold hash_function, scrambler, code_mul1, code_add1, code_mul2.
  set (t1 := longlong (x * _)).
  set (t2 := longlong (t1 + _)).
  assert (E2 : u64 t2 = u64 (u64 (u64 x * 3935559000370003845) + 2691343689449507681)).
  { subst t2 t1. rewrite u64_longlong, (u64_mul_l x).
    rewrite <- (u64_add_l (longlong _)), u64_longlong. reflexivity. }
  assert (I2 : int64 t2) by apply longlong_int64.
  change 0x369DEA0F31A53F85 with 3935559000370003845.
  change 0x255992D382208B61 with 2691343689449507681.
  change 0x422E19E1D95D2F0D with 4768777513237032717.
  rewrite <- E2. clearbody t2. clear t1 E2.
  destruct (round_shr t2 21 ltac:(lia) I2) as [I3 E3].
  set (t3 := Z.lxor t2 _) in *. rewrite <- E3. clearbody t3. clear E3.
  destruct (round_shl t3 37 ltac:(lia) I3) as [I4 E4].
  set (t4 := Z.lxor t3 _) in *. rewrite <- E4. clearbody t4. clear E4.
  destruct (round_shr t4 4 ltac:(lia) I4) as [I5 E5].
  set (t5 := Z.lxor t4 _) in *. rewrite <- E5. clearbody t5. clear E5.
  set (t6 := longlong (t5 * _)).
  assert (E6 : u64 t6 = u64 (u64 t5 * 4768777513237032717)).
  { subst t6. rewrite u64_longlong, u64_mul_l. reflexivity. }
  assert (I6 : int64 t6) by apply longlong_int64.
  rewrite <- E6. clearbody t6. clear E6.
  destruct (round_shl t6 20 ltac:(lia) I6) as [I7 E7].
  set (t7 := Z.lxor t6 _) in *. rewrite <- E7. clearbody t7. clear E7.
  destruct (round_shr t7 41 ltac:(lia) I7) as [I8 E8].
  set (t8 := Z.lxor t7 _) in *. rewrite <- E8. clearbody t8. clear E8.
  destruct (round_shl t8 5 ltac:(lia) I8) as [_ E9].
  exact E9.
Qed.

End HashFacts.

(** ** What is hashed *)

Lemma lor_register (a b : Z) : register a -> register b -> register (Z.lor a b).
Proof.
  unfold register. intros [Ha Ha'] [Hb Hb'].
  assert (H0 : 0 <= Z.lor a b) by (apply Z.lor_nonneg; lia).
  split; [exact H0|].
  destruct (Z.eq_dec (Z.lor a b) 0) as [->|Hne]; [lia|].
  apply Z.log2_lt_pow2; [lia|]. rewrite Z.log2_lor by lia.
  assert (Hla : Z.log2 a < 63)
    by (destruct (Z.eq_dec a 0) as [->|]; [cbn; lia | apply Z.log2_lt_pow2; lia]).
  assert (Hlb : Z.log2 b < 63)
    by (destruct (Z.eq_dec b 0) as [->|]; [cbn; lia | apply Z.log2_lt_pow2; lia]).
  lia.
Qed.

Lemma mod_register (z : Z) (width : nat) :
  (width <= 63)%nat -> register (z mod 2 ^ Z.of_nat width).
Proof.
  intros Hw. unfold register.
  pose proof (Z.mod_pos_bound z (2 ^ Z.of_nat width) ltac:(lia)) as H.
  assert (2 ^ Z.of_nat width <= 2 ^ 63) by (apply Z.pow_le_mono_r; lia).
  lia.
Qed.

Lemma bit_to_number_bound (bits : list Z) :
  Forall is_bit bits -> 0 <= bit_to_number bits < 2 ^ Z.of_nat (length bits).
Proof.
  unfold bit_to_number. intros Hbits.
  assert (H : forall number, 0 <= number ->
            0 <= fold_left (fun number bit => 2 * number + bit) bits number
            < (number + 1) * 2 ^ Z.of_nat (length bits)).
  { induction Hbits as [|bit bits Hbit Hbits IH]; intros number Hn;
      cbn [fold_left length].
    - cbn. lia.
    - assert (Hb : 0 <= bit <= 1) by (destruct Hbit; lia).
      destruct (IH (2 * number + bit) ltac:(lia)) as [Hlow Hup].
      split; [exact Hlow|].
      rewrite Nat2Z.inj_succ, Z.pow_succ_r by lia.
      assert (0 < 2 ^ Z.of_nat (length bits)) by lia. nia. }
  specialize (H 0 ltac:(lia)). lia.
Qed.

Lemma bit_to_number_register (bits : list Z) (width : nat) :
  Forall is_bit bits -> (length bits <= width)%nat -> (width <= 63)%nat ->
  register (bit_to_number bits).
Proof.
  intros Hbits Hlen Hw. unfold register.
  pose proof (bit_to_number_bound bits Hbits) as H.
  assert (2 ^ Z.of_nat (length bits) <= 2 ^ 63)
    by (apply Z.pow_le_mono_r; lia).
  lia.
Qed.

(** With registers of 63 bits at most, [hash_function] is given a
    [longlong]. *)
Lemma hash_of_register (bit_index previous_value salt : Z) :
  register bit_index -> register previous_value -> register salt ->
  exists source_value,
    int64 source_value
    /\ hash_of bit_index previous_value salt = hash_function source_value.
Proof.
  intros Hb Hp Hs. exists (Z.lor (Z.lor bit_index previous_value) salt).
  split; [|reflexivity].
  pose proof (lor_register _ _ (lor_register _ _ Hb Hp) Hs) as H.
  unfold register in H. unfold int64. lia.
Qed.

Lemma encoder_hash_register (salt_number previous_number low_order_number : nat)
    (strand_index : Z) (binary_message : list Z) (bit_location : nat) :
  widths_fit salt_number previous_number low_order_number ->
  Forall is_bit binary_message ->
  exists source_value,
    int64 source_value
    /\ encoder_hash salt_number previous_number low_order_number strand_index
         binary_message bit_location
       = hash_function source_value.
Proof.
  intros (Hs & Hp & Hl) Hbits. unfold encoder_hash.
  apply hash_of_register.
  - apply mod_register, Hl.
  - destruct (_ >=? 0).
    + apply (bit_to_number_register _ previous_number); [| |exact Hp].
      * unfold slice. apply Forall_drop, Forall_take, Hbits.
      * unfold slice. rewrite length_drop, length_take. lia.
    + unfold register. lia.
  - apply mod_register, Hs.
Qed.

(** What [InfoVertex.next] hashes for a vertex of the search. *)
Lemma search_hash_register (salt_number previous_number low_order_number : nat)
    (strand_index : Z) (vertex : InfoVertex) :
  widths_fit salt_number previous_number low_order_number ->
  vertex_fits previous_number vertex ->
  exists source_value,
    int64 source_value
    /\ hash_of
         (Z.of_nat (vertex_bit_index vertex) mod 2 ^ Z.of_nat low_order_number)
         (vertex_previous_value vertex)
         (strand_index mod 2 ^ Z.of_nat salt_number)
       = hash_function source_value.
Proof.
  intros (Hs & Hp & Hl) Hfits. apply hash_of_register.
  - apply mod_register, Hl.
  - unfold vertex_fits in Hfits. unfold register.
    assert (2 ^ Z.of_nat previous_number <= 2 ^ 63)
      by (apply Z.pow_le_mono_r; lia).
    lia.
  - apply mod_register, Hs.
Qed.

Lemma decoder_hash_register (salt_number previous_number low_order_number : nat)
    (strand_index : Z) (binary_message : list Z) :
  widths_fit salt_number previous_number low_order_number ->
  Forall is_bit binary_message ->
  exists source_value,
    int64 source_value
    /\ decoder_hash salt_number previous_number low_order_number strand_index
         binary_message
       = hash_function source_value.
Proof.
  intros (Hs & Hp & Hl) Hbits. unfold decoder_hash.
  apply hash_of_register.
  - apply mod_register, Hl.
  - destruct (_ >=? 0).
    + apply (bit_to_number_register _ previous_number); [| |exact Hp].
      * apply Forall_drop, Hbits.
      * rewrite length_drop. lia.
    + unfold register. lia.
  - apply mod_register, Hs.
Qed.

(** ** The error monad and the list helpers *)

Lemma bind_Ok {X Y : Type} (r : result X) (k : X -> result Y) (y : Y) :
  bind r k = Ok y -> exists x, r = Ok x /\ k x = Ok y.
Proof. destruct r as [x| |]; simpl; intros H; [eauto | discriminate..]. Qed.

Lemma getitem_Ok {X : Type} (l : list X) (i : nat) (x : X) :
  getitem l i = Ok x <-> l !! i = Some x.
Proof. unfold getitem. destruct (l !! i); split; congruence. Qed.

Lemma getitem_lt {X : Type} (l : list X) (i : nat) :
  (i < length l)%nat -> exists x, getitem l i = Ok x /\ l !! i = Some x.
Proof.
  intros Hi. destruct (lookup_lt_is_Some_2 l i Hi) as [x Hx].
  exists x. split; [apply getitem_Ok|]; assumption.
Qed.

(** Inversion of a run of binds that ended in [Ok]. *)
Ltac inv_bind H :=
  repeat match type of H with
  | bind _ _ = Ok _ =>
      let x := fresh "x" in
      let Hx := fresh "Hx" in
      apply bind_Ok in H as (x & Hx & H)
  end.

Lemma for_each_Ok_elem {X Y : Type} (l : list X) (body : X -> result (list Y))
    (ys : list Y) (y : Y) :
  for_each l body = Ok ys -> y ∈ ys ->
  exists x zs, x ∈ l /\ body x = Ok zs /\ y ∈ zs.
Proof.
  revert ys. induction l as [|x l IH]; simpl; intros ys H Hy.
  - inversion H; subst. inversion Hy.
  - inv_bind H. inversion H; subst. apply elem_of_app in Hy as [Hy|Hy].
    + exists x, x0. split; [left | auto].
    + destruct (IH _ Hx0 Hy) as (x' & zs & Hx' & Hb & Hz).
      exists x', zs. split; [right; assumption | auto].
Qed.

Lemma for_each_total {X Y : Type} (l : list X) (body : X -> result (list Y)) :
  (forall x, x ∈ l -> exists ys, body x = Ok ys) ->
  exists ys, for_each l body = Ok ys.
Proof.
  induction l as [|x l IH]; simpl; intros Hb; [eauto|].
  destruct (Hb x) as [ys Hys]; [left|]. rewrite Hys. simpl.
  destruct IH as [zs Hzs]; [intros; apply Hb; right; assumption|].
  rewrite Hzs. simpl. eauto.
Qed.

Lemma product01_length (n : nat) (message_bit : list Z) :
  message_bit ∈ product01 n -> length message_bit = n.
Proof.
  revert message_bit. induction n as [|n IH]; simpl; intros m Hm.
  - apply list_elem_of_singleton in Hm. subst. reflexivity.
  - apply elem_of_app in Hm as [Hm|Hm];
      apply list_elem_of_fmap in Hm as (m' & -> & Hm'); simpl; f_equal; auto.
Qed.

Lemma where_from_spec {X : Type} (p : X -> bool) (l : list X) (offset i : nat) :
  i ∈ where_from p offset l <->
  (offset <= i)%nat /\ exists x, l !! (i - offset)%nat = Some x /\ p x = true.
Proof.
  revert offset. induction l as [|x l IH]; simpl; intros offset.
  - split; [intros H; inversion H | intros (_ & y & Hy & _); discriminate].
  - assert (Hrec : i ∈ where_from p (S offset) l <->
              (offset < i)%nat /\ exists y, (x :: l) !! (i - offset)%nat = Some y /\ p y = true).
    { rewrite IH. split.
      - intros (Hle & y & Hy & Hp). split; [lia|]. exists y. split; [|assumption].
        replace (i - offset)%nat with (S (i - S offset)) by lia. exact Hy.
      - intros (Hlt & y & Hy & Hp). split; [lia|]. exists y. split; [|assumption].
        replace (i - offset)%nat with (S (i - S offset)) in Hy by lia. exact Hy. }
    destruct (p x) eqn:Hpx.
    + rewrite elem_of_cons, Hrec. split.
      * intros [-> | (Hlt & y & Hy & Hp)].
        -- split; [lia|]. exists x. rewrite Nat.sub_diag. auto.
        -- split; [lia|]. eauto.
      * intros (Hle & y & Hy & Hp).
        destruct (decide (i = offset)) as [->|Hne]; [left; reflexivity|].
        right. split; [lia|]. eauto.
    + rewrite Hrec. split.
      * intros (Hlt & y & Hy & Hp). split; [lia|]. eauto.
      * intros (Hle & y & Hy & Hp).
        destruct (decide (i = offset)) as [->|Hne].
        -- rewrite Nat.sub_diag in Hy. simpl in Hy. congruence.
        -- split; [lia|]. eauto.
Qed.

Lemma where_spec {X : Type} (p : X -> bool) (l : list X) (i : nat) :
  i ∈ where_ p l <-> exists x, l !! i = Some x /\ p x = true.
Proof.
  unfold where_. rewrite where_from_spec, Nat.sub_0_r.
  split; [intros (_ & H); exact H | intros H; split; [lia | exact H]].
Qed.

(** ** Encoder and decoder *)

Section CodecFacts.

Variable bio_filter_valid : dna -> bool -> bool.
Variable mapping : list nucleotide.
Variables salt_number previous_number low_order_number : nat.
Variable strand_index : Z.

Local Abbreviation collect := (collect_available bio_filter_valid mapping).
Local Abbreviation emit :=
  (encode_emit salt_number previous_number low_order_number strand_index).
Local Abbreviation enc_loop :=
  (encode_loop bio_filter_valid mapping salt_number previous_number
     low_order_number strand_index).
Local Abbreviation dec_symbol :=
  (decode_symbol salt_number previous_number low_order_number strand_index).
Local Abbreviation dec_loop :=
  (decode_loop bio_filter_valid mapping salt_number previous_number
     low_order_number strand_index).
Local Abbreviation enc_hash :=
  (encoder_hash salt_number previous_number low_order_number strand_index).
Local Abbreviation dec_hash :=
  (decoder_hash salt_number previous_number low_order_number strand_index).

Lemma decoder_hash_take (message : list Z) (bit_location : nat) :
  (bit_location <= length message)%nat ->
  dec_hash (take bit_location message) = enc_hash message bit_location.
Proof.
  intros Hle. unfold decoder_hash, encoder_hash, slice.
  rewrite length_take_le by assumption. reflexivity.
Qed.

Lemma collect_elem (s : dna) (x : nucleotide) :
  x ∈ collect s <-> bio_filter_valid (s ++ [x]) true = true /\ x ∈ mapping.
Proof.
  unfold collect_available.
  apply (list_elem_of_filter (fun p => bio_filter_valid (s ++ [p]) true = true)).
Qed.

Lemma collect_NoDup (s : dna) : NoDup mapping -> NoDup (collect s).
Proof. intros H. unfold collect_available. apply NoDup_filter, H. Qed.

Lemma emit_unfold (message : list Z) (available : list nucleotide) (bit_location : nat) :
  emit message available bit_location =
  match length available with
  | 1%nat =>
      let* nucleotide := getitem available 0 in
      Ok (nucleotide, bit_location)
  | 2%nat | 3%nat =>
      let hash_value := enc_hash message bit_location mod 2 in
      let* bit_value := getitem message bit_location in
      let* nucleotide :=
        getitem available (Z.to_nat ((hash_value + bit_value) mod 2)) in
      Ok (nucleotide, (bit_location + 1)%nat)
  | _ =>
      let hash_value := enc_hash message bit_location mod 4 in
      let* bit_value :=
        if (bit_location + 2 <=? length message)%nat
        then
          let* high := getitem message bit_location in
          let* low := getitem message (bit_location + 1) in
          Ok (high * 2 + low)
        else getitem message bit_location in
      let* nucleotide :=
        getitem available (Z.to_nat ((hash_value + bit_value) mod 4)) in
      Ok (nucleotide, (bit_location + 2)%nat)
  end.
Proof. unfold encode_emit, encoder_hash. reflexivity. Qed.

(** The three ways [encode_emit] returns. *)
Lemma emit_cases (message : list Z) (available : list nucleotide)
    (bit_location : nat) (nucleotide : nucleotide) (bit_location' : nat) :
  emit message available bit_location = Ok (nucleotide, bit_location') ->
  (available = [nucleotide] /\ bit_location' = bit_location)
  \/ (exists bit_value,
        (length available = 2 \/ length available = 3)%nat
        /\ message !! bit_location = Some bit_value
        /\ available !! Z.to_nat
             ((enc_hash message bit_location mod 2 + bit_value) mod 2)
           = Some nucleotide
        /\ bit_location' = (bit_location + 1)%nat)
  \/ (exists bit_value,
        (4 <= length available)%nat
        /\ ((exists high low,
               (bit_location + 2 <= length message)%nat
               /\ message !! bit_location = Some high
               /\ message !! (bit_location + 1)%nat = Some low
               /\ bit_value = high * 2 + low)
            \/ ((length message < bit_location + 2)%nat
                /\ message !! bit_location = Some bit_value))
        /\ available !! Z.to_nat
             ((enc_hash message bit_location mod 4 + bit_value) mod 4)
           = Some nucleotide
        /\ bit_location' = (bit_location + 2)%nat).
Proof.
  rewrite emit_unfold.
  generalize (enc_hash message bit_location). intros h H.
  destruct available as [|a0 [|a1 [|a2 [|a3 rest]]]]; cbn [length] in H; cbv zeta in H.
  - inv_bind H. destruct (_ <=? _)%nat; inv_bind Hx; [inv_bind Hx|];
      apply getitem_Ok in Hx0; discriminate.
  - left. cbn [getitem lookup list_lookup bind] in H. inversion H; auto.
  - right; left. inv_bind H. inversion H; subst.
    apply getitem_Ok in Hx, Hx0. exists x. cbn [length]. auto.
  - right; left. inv_bind H. inversion H; subst.
    apply getitem_Ok in Hx, Hx0. exists x. cbn [length]. auto.
  - right; right. inv_bind H. inversion H; subst.
    apply getitem_Ok in Hx0. exists x. split; [cbn [length]; lia|]. split; [|auto].
    destruct (Nat.leb_spec (bit_location + 2) (length message)).
    + inv_bind Hx. inversion Hx; subst. apply getitem_Ok in Hx1, Hx2. left. eauto 10.
    + apply getitem_Ok in Hx. right. auto.
Qed.

Lemma emit_elem (message : list Z) (available : list nucleotide)
    (bit_location : nat) (nucleotide : nucleotide) (bit_location' : nat) :
  emit message available bit_location = Ok (nucleotide, bit_location') ->
  nucleotide ∈ available.
Proof.
  intros H. apply emit_cases in H as [[-> _] | [(b & _ & _ & H & _) | (b & _ & _ & H & _)]].
  - left.
  - eapply list_elem_of_lookup_2, H.
  - eapply list_elem_of_lookup_2, H.
Qed.

Lemma emit_advance (message : list Z) (available : list nucleotide)
    (bit_location : nat) (nucleotide : nucleotide) (bit_location' : nat) :
  emit message available bit_location = Ok (nucleotide, bit_location') ->
  (bit_location <= bit_location' <= bit_location + 2)%nat
  /\ ((4 <= length available)%nat -> bit_location' = (bit_location + 2)%nat).
Proof.
  intros H. apply emit_cases in H
    as [[-> ->] | [(b & Hlen & _ & _ & ->) | (b & _ & _ & _ & ->)]];
    cbn [length]; lia.
Qed.

(** One iteration of the loop of [encode]. *)
Lemma enc_loop_running (message : list Z) (fuel : nat) (dna_string : dna)
    (available : list nucleotide) (bit_location : nat) (encoded : dna) :
  (bit_location < length message)%nat ->
  enc_loop message (S fuel) dna_string available bit_location = Ok encoded ->
  exists nucleotide bit_location',
    emit message available bit_location = Ok (nucleotide, bit_location')
    /\ collect (dna_string ++ [nucleotide]) <> []
    /\ enc_loop message fuel (dna_string ++ [nucleotide])
         (collect (dna_string ++ [nucleotide])) bit_location' = Ok encoded.
Proof.
  intros Hlt H. cbn [encode_loop] in H.
  destruct (Nat.ltb_spec bit_location (length message)); [|lia].
  inv_bind H. destruct x as [nucleotide bit_location'].
  exists nucleotide, bit_location'. split; [assumption|].
  destruct (collect (dna_string ++ [nucleotide])) eqn:E; [discriminate|].
  split; [discriminate | exact H].
Qed.

Lemma enc_loop_done (message : list Z) (fuel : nat) (dna_string : dna)
    (available : list nucleotide) (bit_location : nat) :
  (length message <= bit_location)%nat ->
  enc_loop message (S fuel) dna_string available bit_location = Ok dna_string.
Proof.
  intros Hle. cbn [encode_loop].
  destruct (Nat.ltb_spec bit_location (length message)); [lia | reflexivity].
Qed.

(** The encoder only ever appends to [dna_string]. *)
Lemma enc_loop_prefix (message : list Z) (fuel : nat) (dna_string : dna)
    (available : list nucleotide) (bit_location : nat) (encoded : dna) :
  enc_loop message fuel dna_string available bit_location = Ok encoded ->
  exists rest, encoded = dna_string ++ rest.
Proof.
  revert dna_string available bit_location.
  induction fuel as [|fuel IH]; intros dna_string available bit_location H.
  - discriminate.
  - destruct (Nat.lt_ge_cases bit_location (length message)) as [Hlt|Hge].
    + apply enc_loop_running in H as (n & loc' & _ & _ & H); [|assumption].
      apply IH in H as [rest ->]. exists (n :: rest).
      rewrite <- app_assoc. reflexivity.
    + rewrite enc_loop_done in H by assumption. inversion H. exists [].
      rewrite app_nil_r. reflexivity.
Qed.

(** Each nucleotide carries at most two bits. *)
Lemma enc_loop_lower (message : list Z) (fuel : nat) (dna_string : dna)
    (available : list nucleotide) (bit_location : nat) (encoded : dna) :
  (bit_location <= 2 * length dna_string)%nat ->
  enc_loop message fuel dna_string available bit_location = Ok encoded ->
  (length message <= 2 * length encoded)%nat.
Proof.
  revert dna_string available bit_location.
  induction fuel as [|fuel IH]; intros dna_string available bit_location Hinv H.
  - discriminate.
  - destruct (Nat.lt_ge_cases bit_location (length message)) as [Hlt|Hge].
    + apply enc_loop_running in H as (n & loc' & He & _ & H); [|assumption].
      apply emit_advance in He as [He _].
      eapply IH; [|exact H]. rewrite length_app. cbn [length]. lia.
    + rewrite enc_loop_done in H by assumption. inversion H; subst. lia.
Qed.

(** With four available nucleotides at every position each nucleotide
    carries two bits, the last one possibly a single bit. *)
Lemma enc_loop_upper (message : list Z) (encoded : dna) (fuel : nat)
    (dna_string : dna) (available : list nucleotide) (bit_location : nat) :
  (forall n, (0 < n < length encoded)%nat ->
             length (collect (take n encoded)) = 4%nat) ->
  ((length dna_string < length encoded)%nat -> length available = 4%nat) ->
  bit_location = (2 * length dna_string)%nat ->
  (bit_location <= length message + 1)%nat ->
  enc_loop message fuel dna_string available bit_location = Ok encoded ->
  (2 * length encoded <= length message + 1)%nat.
Proof.
  intros Hfour. revert dna_string available bit_location.
  induction fuel as [|fuel IH]; intros dna_string available bit_location Hav Hloc Hle H.
  - discriminate.
  - destruct (Nat.lt_ge_cases bit_location (length message)) as [Hlt|Hge].
    + apply enc_loop_running in H as (n & loc' & He & _ & H); [|assumption].
      destruct (enc_loop_prefix _ _ _ _ _ _ H) as [rest Hrest].
      assert (Hlen : length encoded = (length dna_string + 1 + length rest)%nat).
      { rewrite Hrest, !length_app. cbn [length]. lia. }
      apply emit_advance in He as [_ He]. rewrite He in * by (rewrite Hav; lia).
      eapply IH; [| | |exact H].
      * intros Hlt'. rewrite length_app in Hlt'. cbn [length] in Hlt'.
        replace (dna_string ++ [n]) with (take (length dna_string + 1) encoded);
          [apply Hfour; lia|].
        rewrite Hrest. apply take_app_length'. rewrite length_app. reflexivity.
      * rewrite length_app. cbn [length]. lia.
      * lia.
    + rewrite enc_loop_done in H by assumption. inversion H; subst. lia.
Qed.

(** Every prefix of two or more nucleotides was accepted by the oracle. *)
Lemma enc_loop_valid (message : list Z) (encoded : dna) (fuel : nat)
    (dna_string : dna) (available : list nucleotide) (bit_location : nat) :
  (dna_string <> [] ->
   forall x, x ∈ available -> bio_filter_valid (dna_string ++ [x]) true = true) ->
  (forall n, (2 <= n <= length dna_string)%nat ->
             bio_filter_valid (take n dna_string) true = true) ->
  enc_loop message fuel dna_string available bit_location = Ok encoded ->
  forall n, (2 <= n <= length encoded)%nat ->
            bio_filter_valid (take n encoded) true = true.
Proof.
  revert dna_string available bit_location.
  induction fuel as [|fuel IH]; intros dna_string available bit_location Hav Hpre H.
  - discriminate.
  - destruct (Nat.lt_ge_cases bit_location (length message)) as [Hlt|Hge].
    + apply enc_loop_running in H as (x & loc' & He & _ & H); [|assumption].
      apply emit_elem in He.
      eapply IH; [| |exact H].
      * intros _ y Hy. apply collect_elem in Hy as [Hy _]. exact Hy.
      * intros n. rewrite length_app. cbn [length]. intros Hn.
        destruct (decide (n <= length dna_string)%nat) as [Hle|Hgt].
        -- rewrite take_app_le by assumption. apply Hpre. lia.
        -- rewrite take_ge by (rewrite length_app; cbn [length]; lia).
           apply Hav; [|assumption]. intros ->. cbn [length] in *. lia.
    + rewrite enc_loop_done in H by assumption. inversion H; subst. exact Hpre.
Qed.

(** *** Decoding what the encoder emitted *)

Lemma dec_symbol_unfold (bit_length : nat) (available : list nucleotide)
    (binary_message : list Z) (nucleotide : nucleotide) :
  dec_symbol bit_length available binary_message nucleotide =
  match length available with
  | 1%nat => Ok binary_message
  | 2%nat | 3%nat =>
      let hash_value := dec_hash binary_message mod 2 in
      let* expected := getitem available (Z.to_nat ((hash_value + 0) mod 2)) in
      if decide (expected = nucleotide)
      then Ok (binary_message ++ [0])
      else Ok (binary_message ++ [1])
  | _ =>
      let hash_value := dec_hash binary_message mod 4 in
      let* found :=
        decode_search available hash_value nucleotide [0; 1; 2; 3] in
      match found with
      | Some bit_value =>
          if (bit_length <? length binary_message + 2)%nat
          then Ok (binary_message ++ [bit_value mod 2])
          else Ok (binary_message ++ [bit_value / 2; bit_value mod 2])
      | None => Ok binary_message
      end
  end.
Proof. unfold decode_symbol, decoder_hash. reflexivity. Qed.

(** Evaluate the closed list indices of the goal and of [H]. *)
Ltac eval_indices :=
  repeat match goal with
  | |- context [Z.to_nat ?e] =>
      let v := eval vm_compute in (Z.to_nat e) in
      progress change (Z.to_nat e) with v
  | H : context [Z.to_nat ?e] |- _ =>
      let v := eval vm_compute in (Z.to_nat e) in
      progress change (Z.to_nat e) with v in H
  end.

Lemma pair_choice (a0 a1 : nucleotide) (rest : list nucleotide)
    (hash_value bit_value : Z) (nucleotide : nucleotide) :
  a0 <> a1 -> 0 <= hash_value < 2 -> is_bit bit_value ->
  (a0 :: a1 :: rest) !! Z.to_nat ((hash_value + bit_value) mod 2) = Some nucleotide ->
  exists expected,
    getitem (a0 :: a1 :: rest) (Z.to_nat ((hash_value + 0) mod 2)) = Ok expected
    /\ (expected = nucleotide <-> bit_value = 0).
Proof.
  intros Hne Hh Hb H.
  assert (Hh' : hash_value = 0 \/ hash_value = 1) by lia.
  destruct Hh' as [-> | ->], Hb as [-> | ->]; eval_indices;
    cbn [lookup list_lookup] in H; inversion H; subst;
    eexists; (split; [reflexivity|]); split; intros; congruence || lia.
Qed.

Lemma quad_search (available : list nucleotide) (hash_value bit_value : Z)
    (nucleotide : nucleotide) :
  NoDup available -> (4 <= length available)%nat ->
  0 <= hash_value < 4 -> 0 <= bit_value < 4 ->
  available !! Z.to_nat ((hash_value + bit_value) mod 4) = Some nucleotide ->
  decode_search available hash_value nucleotide [0; 1; 2; 3] = Ok (Some bit_value).
Proof.
  intros Hnd Hlen Hh Hb H.
  destruct available as [|a0 [|a1 [|a2 [|a3 rest]]]]; cbn [length] in Hlen; try lia.
  apply NoDup_cons in Hnd as [H0 Hnd]. apply NoDup_cons in Hnd as [H1 Hnd].
  apply NoDup_cons in Hnd as [H2 _].
  repeat rewrite not_elem_of_cons in H0.
  repeat rewrite not_elem_of_cons in H1.
  repeat rewrite not_elem_of_cons in H2.
  destruct H0 as (H01 & H02 & H03 & _), H1 as (H12 & H13 & _), H2 as (H23 & _).
  assert (Hh' : hash_value = 0 \/ hash_value = 1 \/ hash_value = 2 \/ hash_value = 3)
    by lia.
  assert (Hb' : bit_value = 0 \/ bit_value = 1 \/ bit_value = 2 \/ bit_value = 3)
    by lia.
  destruct Hh' as [-> | [-> | [-> | ->]]], Hb' as [-> | [-> | [-> | ->]]];
    eval_indices; cbn [lookup list_lookup] in H; inversion H; subst;
    cbn [decode_search]; eval_indices; cbn [getitem lookup list_lookup bind];
    repeat (destruct (decide _) as [?|?]; try congruence).
Qed.

Lemma dec_symbol_emit (message : list Z) (available : list nucleotide)
    (bit_location : nat) (nucleotide : nucleotide) (bit_location' : nat) :
  NoDup available -> Forall is_bit message ->
  (bit_location < length message)%nat ->
  emit message available bit_location = Ok (nucleotide, bit_location') ->
  dec_symbol (length message) available (take bit_location message) nucleotide
  = Ok (take bit_location' message).
Proof.
  intros Hnd Hbits Hlt He.
  rewrite dec_symbol_unfold, decoder_hash_take, length_take_le by lia.
  pose proof (Z.mod_pos_bound (enc_hash message bit_location) 2 ltac:(lia)) as Hh2.
  pose proof (Z.mod_pos_bound (enc_hash message bit_location) 4 ltac:(lia)) as Hh4.
  apply emit_cases in He
    as [[-> ->] | [(b & Hlen & Hb & Hn & ->) | (bv & Hlen & Hbv & Hn & ->)]].
  - reflexivity.
  - assert (Hbit : is_bit b)
      by (rewrite Forall_lookup in Hbits; eapply Hbits, Hb).
    rewrite Nat.add_1_r, (take_S_r _ _ _ Hb).
    destruct available as [|a0 [|a1 rest]]; cbn [length] in Hlen; try lia.
    apply NoDup_cons in Hnd as [H0 _]. rewrite not_elem_of_cons in H0.
    destruct H0 as [H01 _].
    destruct (pair_choice _ _ _ _ _ _ H01 Hh2 Hbit Hn) as (e & He & Hiff).
    destruct rest as [|a2 [|a3 rest]]; cbn [length] in Hlen; try lia;
      cbn [length]; cbv zeta; rewrite He; cbn [bind];
      destruct (decide (e = nucleotide)) as [Heq|Hneq];
      destruct Hbit as [-> | ->]; try reflexivity;
      try (apply Hiff in Heq; lia); exfalso; apply Hneq, Hiff; reflexivity.
  - assert (Hbv4 : 0 <= bv < 4 /\
              (if (length message <? bit_location + 2)%nat
               then take bit_location message ++ [bv mod 2]
               else take bit_location message ++ [bv / 2; bv mod 2])
              = take (bit_location + 2) message).
    { destruct Hbv as [(high & low & Hle & Hhigh & Hlow & ->) | (Hgt & Hlast)].
      - assert (Hbh : is_bit high)
          by (rewrite Forall_lookup in Hbits; eapply Hbits, Hhigh).
        assert (Hbl : is_bit low)
          by (rewrite Forall_lookup in Hbits; eapply Hbits, Hlow).
        destruct (Nat.ltb_spec (length message) (bit_location + 2)); [lia|].
        replace (bit_location + 2)%nat with (S (S bit_location)) by lia.
        replace (bit_location + 1)%nat with (S bit_location) in Hlow by lia.
        rewrite (take_S_r _ _ _ Hlow), (take_S_r _ _ _ Hhigh), <- app_assoc.
        destruct Hbh as [-> | ->], Hbl as [-> | ->];
          (split; [lia | reflexivity]).
      - assert (Hbl : is_bit bv)
          by (rewrite Forall_lookup in Hbits; eapply Hbits, Hlast).
        destruct (Nat.ltb_spec (length message) (bit_location + 2)); [|lia].
        rewrite (take_ge _ (bit_location + 2)) by lia.
        rewrite <- (take_ge message (S bit_location)) at 2 by lia.
        rewrite (take_S_r _ _ _ Hlast).
        destruct Hbl as [-> | ->]; (split; [lia | reflexivity]). }
    destruct Hbv4 as [Hrange Htake].
    destruct available as [|a0 [|a1 [|a2 [|a3 rest]]]];
      cbn [length] in Hlen; try lia.
    cbn [length]. cbv zeta.
    rewrite (quad_search _ _ _ _ Hnd ltac:(cbn [length]; lia) Hh4 Hrange Hn).
    cbn [bind]. rewrite <- Htake.
    destruct (length message <? bit_location + 2)%nat; reflexivity.
Qed.

(** The decoder, started where the encoder stands, rebuilds the message. *)
Lemma roundtrip_loop (message : list Z) (encoded : dna) (fuel : nat)
    (dna_string : dna) (available : list nucleotide) (bit_location : nat) :
  NoDup mapping -> Forall is_bit message -> NoDup available ->
  enc_loop message fuel dna_string available bit_location = Ok encoded ->
  dec_loop encoded (length message) (length dna_string)
    (drop (length dna_string) encoded) (take bit_location message) available
  = Ok message.
Proof.
  intros Hmap Hbits. revert dna_string available bit_location.
  induction fuel as [|fuel IH]; intros dna_string available bit_location Hnd H.
  - discriminate.
  - destruct (Nat.lt_ge_cases bit_location (length message)) as [Hlt|Hge].
    + apply enc_loop_running in H as (x & loc' & He & Hne & H); [|assumption].
      destruct (enc_loop_prefix _ _ _ _ _ _ H) as [rest Hrest].
      rewrite <- app_assoc in Hrest. cbn [app] in Hrest.
      assert (Hdrop : drop (length dna_string) encoded = x :: rest)
        by (rewrite Hrest; apply drop_app_length).
      assert (Htake : take (length dna_string + 1) encoded = dna_string ++ [x]).
      { rewrite Hrest, (cons_middle x dna_string rest), app_assoc.
        apply take_app_length'. rewrite length_app. reflexivity. }
      rewrite Hdrop. cbn [decode_loop].
      rewrite (dec_symbol_emit _ _ _ _ _ Hnd Hbits Hlt He). cbn [bind].
      rewrite Htake.
      assert (Hz : (length (collect (dna_string ++ [x])) =? 0)%nat = false).
      { apply Nat.eqb_neq. intros Hz. apply Hne.
        destruct (collect (dna_string ++ [x])); [reflexivity | discriminate]. }
      rewrite Hz.
      specialize (IH (dna_string ++ [x]) (collect (dna_string ++ [x])) loc'
                    (collect_NoDup _ Hmap) H).
      rewrite length_app in IH. cbn [length] in IH.
      replace (drop (length dna_string + 1) encoded) with rest in IH; [exact IH|].
      rewrite Hrest, (cons_middle x dna_string rest), app_assoc.
      symmetry. apply drop_app_length'. rewrite length_app. reflexivity.
    + rewrite enc_loop_done in H by assumption. inversion H; subst.
      rewrite drop_all. cbn [decode_loop].
      rewrite (take_ge message bit_location) by assumption.
      rewrite take_ge by lia. reflexivity.
Qed.

(** *** When the decoder fails *)

Lemma decode_search_total (available : list nucleotide) (hash_value : Z)
    (nucleotide : nucleotide) (candidates : list Z) :
  (4 <= length available)%nat ->
  exists found,
    decode_search available hash_value nucleotide candidates = Ok found.
Proof.
  intros Hlen. induction candidates as [|c candidates IH]; cbn [decode_search].
  - eauto.
  - destruct (getitem_lt available (Z.to_nat ((hash_value + c) mod 4)))
      as (x & Hx & _).
    { pose proof (Z.mod_pos_bound (hash_value + c) 4 ltac:(lia)). lia. }
    rewrite Hx. cbn [bind]. destruct (decide (x = nucleotide)); eauto.
Qed.

Lemma dec_symbol_total (bit_length : nat) (available : list nucleotide)
    (binary_message : list Z) (nucleotide : nucleotide) :
  available <> [] ->
  exists extended,
    dec_symbol bit_length available binary_message nucleotide = Ok extended.
Proof.
  intros Hne. rewrite dec_symbol_unfold.
  generalize (dec_hash binary_message). intros h.
  assert (Hpair : forall a0 a1 rest,
            exists extended,
              (let hash_value := h mod 2 in
               let* expected :=
                 getitem (a0 :: a1 :: rest) (Z.to_nat ((hash_value + 0) mod 2)) in
               if decide (expected = nucleotide)
               then Ok (binary_message ++ [0])
               else Ok (binary_message ++ [1])) = Ok extended).
  { intros a0 a1 rest. cbv zeta.
    destruct (getitem_lt (a0 :: a1 :: rest) (Z.to_nat ((h mod 2 + 0) mod 2)))
      as (x & Hx & _).
    { pose proof (Z.mod_pos_bound (h mod 2 + 0) 2 ltac:(lia)). cbn [length]. lia. }
    rewrite Hx. cbn [bind]. destruct (decide (x = nucleotide)); eauto. }
  destruct available as [|a0 [|a1 [|a2 [|a3 rest]]]]; [congruence|..]; cbn [length].
  - eauto.
  - apply Hpair.
  - apply Hpair.
  - cbv zeta.
    destruct (decode_search_total (a0 :: a1 :: a2 :: a3 :: rest) (h mod 4)
                nucleotide [0; 1; 2; 3]) as [found Hfound];
      [cbn [length]; lia|].
    rewrite Hfound. cbn [bind].
    destruct found; [destruct (_ <? _)%nat|]; eauto.
Qed.

Lemma dec_loop_returns (encoded : dna) (bit_length : nat) (rest : dna) :
  forall (nucleotide_index : nat) (binary_message : list Z)
         (available : list nucleotide),
    available <> [] ->
    (forall n, (nucleotide_index < n <= nucleotide_index + length rest)%nat ->
               collect (take n encoded) <> []) ->
    exists decoded,
      dec_loop encoded bit_length nucleotide_index rest binary_message available
      = Ok decoded.
Proof.
  induction rest as [|x rest IH]; intros i bm available Hne Hall; cbn [decode_loop].
  - eauto.
  - destruct (dec_symbol_total bit_length available bm x Hne) as [bm' Hbm'].
    rewrite Hbm'. cbn [bind].
    assert (Hnext : collect (take (i + 1) encoded) <> [])
      by (apply Hall; cbn [length]; lia).
    destruct (collect (take (i + 1) encoded)) as [|y ys] eqn:E; [congruence|].
    cbn [length Nat.eqb]. apply IH; [discriminate|].
    intros n Hn. apply Hall. cbn [length]. lia.
Qed.

Lemma dec_loop_raises (encoded : dna) (bit_length : nat) (rest : dna) :
  forall (nucleotide_index : nat) (binary_message : list Z)
         (available : list nucleotide),
    available <> [] ->
    (exists n, (nucleotide_index < n <= nucleotide_index + length rest)%nat
               /\ collect (take n encoded) = []) ->
    dec_loop encoded bit_length nucleotide_index rest binary_message available
    = Raise (ContainsErrors strand_index).
Proof.
  induction rest as [|x rest IH]; intros i bm available Hne (n & Hn & Hempty);
    cbn [decode_loop].
  - cbn [length] in Hn. lia.
  - destruct (dec_symbol_total bit_length available bm x Hne) as [bm' Hbm'].
    rewrite Hbm'. cbn [bind].
    destruct (collect (take (i + 1) encoded)) as [|y ys] eqn:E; [reflexivity|].
    cbn [length Nat.eqb]. apply IH; [discriminate|].
    exists n. split; [|assumption]. cbn [length] in Hn.
    destruct (decide (n = i + 1)%nat) as [->|]; [congruence | lia].
Qed.

End CodecFacts.

(** ** Repair *)

Lemma for_each_Ok_intro {X Y : Type} (l : list X) (body : X -> result (list Y))
    (ys : list Y) (x : X) (zs : list Y) (z : Y) :
  for_each l body = Ok ys -> x ∈ l -> body x = Ok zs -> z ∈ zs -> z ∈ ys.
Proof.
  revert ys. induction l as [|x' l IH]; simpl; intros ys H Hx Hb Hz.
  - inversion Hx.
  - inv_bind H. inversion H; subst. apply elem_of_app.
    apply elem_of_cons in Hx as [->|Hx].
    + left. congruence.
    + right. eapply IH; eauto.
Qed.

Lemma log2_one (n : nat) : Nat.log2 n = 1%nat -> (2 <= n)%nat.
Proof.
  intros H. destruct n as [|[|n]]; [discriminate H | discriminate H | lia].
Qed.

Lemma log2_two (n : nat) : Nat.log2 n = 2%nat -> (4 <= n)%nat.
Proof.
  intros H. destruct n as [|[|[|[|n]]]]; try discriminate H; lia.
Qed.

Section RepairFacts.

Context {T : Type} {score_ops : Score T}.

Variable bio_filter_valid : dna -> bool -> bool.
Variable mapping : list nucleotide.
Variables salt_number previous_number low_order_number : nat.
Variable strand_index : Z.
Variable dna_string : dna.
Variable initial_score : T.
Variable bit_length : nat.
Variable heap_limitation : Z.
Variables correct_penalty insert_penalty delete_penalty mutate_penalty : T.

Local Abbreviation collect := (collect_available bio_filter_valid mapping).
Local Abbreviation matched :=
  (next_match previous_number low_order_number dna_string
     correct_penalty mutate_penalty).
Local Abbreviation inserted :=
  (next_insert previous_number low_order_number dna_string insert_penalty).
Local Abbreviation deleted :=
  (next_delete previous_number low_order_number delete_penalty).
Local Abbreviation next_ :=
  (next bio_filter_valid mapping previous_number low_order_number dna_string
     correct_penalty insert_penalty delete_penalty mutate_penalty).
Local Abbreviation finished := (search_finished bit_length heap_limitation).
Local Abbreviation expand :=
  (expand_chucks bio_filter_valid mapping salt_number previous_number
     low_order_number strand_index dna_string bit_length heap_limitation
     correct_penalty insert_penalty delete_penalty mutate_penalty).
Local Abbreviation pass :=
  (repair_pass bio_filter_valid mapping salt_number previous_number
     low_order_number strand_index dna_string bit_length heap_limitation
     correct_penalty insert_penalty delete_penalty mutate_penalty).
Local Abbreviation loop :=
  (repair_loop bio_filter_valid mapping salt_number previous_number
     low_order_number strand_index dna_string bit_length heap_limitation
     correct_penalty insert_penalty delete_penalty mutate_penalty).

Lemma matched_follow (self : InfoVertex) (salt_value : Z) (nucleotide_index : nat)
    (current_score : T) (available : list nucleotide) (follows : list follow)
    (f : follow) :
  matched self salt_value nucleotide_index current_score available = Ok follows ->
  f ∈ follows ->
  extends_by self available f.1.1
  /\ (f.1.2 = score_add current_score correct_penalty
      \/ f.1.2 = score_add current_score mutate_penalty)
  /\ f.2 = (nucleotide_index + 1)%nat.
Proof.
  unfold next_match. intros H Hf. cbv zeta in H. inv_bind H.
  destruct (decide (x ∈ available)) as [Hin|]; [|inversion H; subst; inversion Hf].
  destruct (for_each_Ok_elem _ _ _ _ H Hf) as (m & zs & _ & Hb & Hz).
  cbv beta in Hb.
  destruct m as [|b0 [|b1 [|b2 m]]].
  - inversion Hb; subst. apply list_elem_of_singleton in Hz. subst f.
    cbn [fst snd]. unfold extends_by. eauto 10.
  - inv_bind Hb. destruct (decide (x0 = x)); inversion Hb; subst;
      apply list_elem_of_singleton in Hz; subst f; cbn [fst snd];
      unfold extends_by; eauto 10.
  - inv_bind Hb. destruct (decide (x0 = x)); inversion Hb; subst;
      apply list_elem_of_singleton in Hz; subst f; cbn [fst snd];
      unfold extends_by; eauto 10.
  - inversion Hb; subst. apply list_elem_of_singleton in Hz. subst f.
    cbn [fst snd]. unfold extends_by. eauto 10.
Qed.

Lemma inserted_follow (self : InfoVertex) (salt_value : Z) (nucleotide_index : nat)
    (current_score : T) (available : list nucleotide) (follows : list follow)
    (f : follow) :
  inserted self salt_value nucleotide_index current_score available = Ok follows ->
  f ∈ follows ->
  extends_by self available f.1.1
  /\ f.1.2 = score_add current_score insert_penalty
  /\ f.2 = (nucleotide_index + 2)%nat.
Proof.
  unfold next_insert. intros H Hf. cbv zeta in H.
  destruct (_ <? _)%nat; [|inversion H; subst; inversion Hf].
  inv_bind H.
  destruct (decide (x ∈ available)) as [Hin|]; [|inversion H; subst; inversion Hf].
  destruct (for_each_Ok_elem _ _ _ _ H Hf) as (m & zs & _ & Hb & Hz).
  cbv beta in Hb. inv_bind Hb.
  destruct x0 as [vertex|]; inversion Hb; subst; [|inversion Hz].
  apply list_elem_of_singleton in Hz. subst f. cbn [fst snd].
  split; [|auto].
  destruct m as [|b0 [|b1 [|b2 m]]].
  - inversion Hx0; subst. unfold extends_by. eauto 10.
  - inv_bind Hx0. destruct (decide (x0 = x)); inversion Hx0; subst.
    unfold extends_by. eauto 10.
  - inv_bind Hx0. destruct (decide (x0 = x)); inversion Hx0; subst.
    unfold extends_by. eauto 10.
  - inversion Hx0; subst. unfold extends_by. eauto 10.
Qed.

Lemma deleted_follow (self : InfoVertex) (salt_value : Z) (nucleotide_index : nat)
    (current_score : T) (available : list nucleotide) (follows : list follow)
    (f : follow) :
  deleted self salt_value nucleotide_index current_score available = Ok follows ->
  f ∈ follows ->
  extends_by self available f.1.1
  /\ f.1.2 = score_add current_score delete_penalty
  /\ f.2 = nucleotide_index.
Proof.
  unfold next_delete. intros H Hf. cbv zeta in H.
  destruct (for_each_Ok_elem _ _ _ _ H Hf) as (m & zs & _ & Hb & Hz).
  cbv beta in Hb.
  assert (Hall : forall zs',
            Ok (map (fun nucleotide =>
                       (extend self (vertex_previous_value self) 0 nucleotide,
                        score_add current_score delete_penalty, nucleotide_index))
                  available) = Ok zs' ->
            f ∈ zs' ->
            extends_by self available f.1.1
            /\ f.1.2 = score_add current_score delete_penalty
            /\ f.2 = nucleotide_index).
  { intros zs' E Hz'. inversion E; subst.
    apply list_elem_of_fmap in Hz' as (n & -> & Hn). cbn [fst snd].
    unfold extends_by. eauto 10. }
  destruct m as [|b0 [|b1 [|b2 m]]].
  - eapply Hall; eauto.
  - inv_bind Hb. inversion Hb; subst. apply list_elem_of_singleton in Hz. subst f.
    apply getitem_Ok, list_elem_of_lookup_2 in Hx.
    cbn [fst snd]. unfold extends_by. eauto 10.
  - inv_bind Hb. inversion Hb; subst. apply list_elem_of_singleton in Hz. subst f.
    apply getitem_Ok, list_elem_of_lookup_2 in Hx.
    cbn [fst snd]. unfold extends_by. eauto 10.
  - eapply Hall; eauto.
Qed.

(** *** [next] indexes no list out of range

    Whatever the hash, the indices [next] computes are positions of the
    available nucleotides. *)

Lemma pair_index (available : list nucleotide) (h b : Z) :
  Nat.log2 (length available) = 1%nat ->
  exists x, getitem available (Z.to_nat ((h mod 2 + b) mod 2)) = Ok x.
Proof.
  intros Hlog. apply log2_one in Hlog.
  destruct (getitem_lt available (Z.to_nat ((h mod 2 + b) mod 2))) as (x & Hx & _).
  { pose proof (Z.mod_pos_bound (h mod 2 + b) 2 ltac:(lia)). lia. }
  eauto.
Qed.

Lemma quad_index (available : list nucleotide) (h b : Z) :
  Nat.log2 (length available) = 2%nat ->
  exists x, getitem available (Z.to_nat ((h mod 4 + b) mod 4)) = Ok x.
Proof.
  intros Hlog. apply log2_two in Hlog.
  destruct (getitem_lt available (Z.to_nat ((h mod 4 + b) mod 4))) as (x & Hx & _).
  { pose proof (Z.mod_pos_bound (h mod 4 + b) 4 ltac:(lia)). lia. }
  eauto.
Qed.

Lemma matched_total (self : InfoVertex) (salt_value : Z) (nucleotide_index : nat)
    (current_score : T) (available : list nucleotide) :
  (nucleotide_index < length dna_string)%nat ->
  exists follows,
    matched self salt_value nucleotide_index current_score available = Ok follows.
Proof.
  intros Hlt. unfold next_match. cbv zeta.
  destruct (getitem_lt dna_string nucleotide_index Hlt) as (x & Hx & _).
  rewrite Hx. cbn [bind].
  destruct (decide (x ∈ available)); [|eauto].
  apply for_each_total. intros m Hm. apply product01_length in Hm.
  destruct m as [|b0 [|b1 [|b2 m]]]; cbn [length] in Hm.
  - eauto.
  - destruct (pair_index available
                (hash_of (Z.of_nat (vertex_bit_index self)
                          mod 2 ^ Z.of_nat low_order_number)
                   (vertex_previous_value self) salt_value) b0) as [y Hy];
      [congruence|].
    rewrite Hy. cbn [bind]. destruct (decide (y = x)); eauto.
  - destruct (quad_index available
                (hash_of (Z.of_nat (vertex_bit_index self)
                          mod 2 ^ Z.of_nat low_order_number)
                   (vertex_previous_value self) salt_value) (b0 * 2 + b1)) as [y Hy];
      [congruence|].
    rewrite Hy. cbn [bind]. destruct (decide (y = x)); eauto.
  - eauto.
Qed.

Lemma inserted_total (self : InfoVertex) (salt_value : Z) (nucleotide_index : nat)
    (current_score : T) (available : list nucleotide) :
  exists follows,
    inserted self salt_value nucleotide_index current_score available = Ok follows.
Proof.
  unfold next_insert. cbv zeta.
  destruct (Nat.ltb_spec (nucleotide_index + 1) (length dna_string)) as [Hlt|]; [|eauto].
  destruct (getitem_lt dna_string (nucleotide_index + 1) Hlt) as (x & Hx & _).
  rewrite Hx. cbn [bind].
  destruct (decide (x ∈ available)); [|eauto].
  apply for_each_total. intros m Hm. apply product01_length in Hm.
  destruct m as [|b0 [|b1 [|b2 m]]]; cbn [length] in Hm.
  - cbn [bind]. eauto.
  - destruct (pair_index available
                (hash_of (Z.of_nat (vertex_bit_index self)
                          mod 2 ^ Z.of_nat low_order_number)
                   (vertex_previous_value self) salt_value) b0) as [y Hy];
      [congruence|].
    rewrite Hy. cbn [bind]. destruct (decide (y = x)); cbn [bind]; eauto.
  - destruct (quad_index available
                (hash_of (Z.of_nat (vertex_bit_index self)
                          mod 2 ^ Z.of_nat low_order_number)
                   (vertex_previous_value self) salt_value) (b0 * 2 + b1)) as [y Hy];
      [congruence|].
    rewrite Hy. cbn [bind]. destruct (decide (y = x)); cbn [bind]; eauto.
  - cbn [bind]. eauto.
Qed.

Lemma deleted_total (self : InfoVertex) (salt_value : Z) (nucleotide_index : nat)
    (current_score : T) (available : list nucleotide) :
  exists follows,
    deleted self salt_value nucleotide_index current_score available = Ok follows.
Proof.
  unfold next_delete. cbv zeta.
  apply for_each_total. intros m Hm. apply product01_length in Hm.
  destruct m as [|b0 [|b1 [|b2 m]]]; cbn [length] in Hm.
  - eauto.
  - destruct (pair_index available
                (hash_of (Z.of_nat (vertex_bit_index self)
                          mod 2 ^ Z.of_nat low_order_number)
                   (vertex_previous_value self) salt_value) b0) as [y Hy];
      [congruence|].
    rewrite Hy. cbn [bind]. eauto.
  - destruct (quad_index available
                (hash_of (Z.of_nat (vertex_bit_index self)
                          mod 2 ^ Z.of_nat low_order_number)
                   (vertex_previous_value self) salt_value) b0) as [y Hy];
      [congruence|].
    rewrite Hy. cbn [bind]. eauto.
  - eauto.
Qed.

(** The two early returns of [next], and its general return. *)
Lemma next_cases (self : InfoVertex) (salt_value : Z) (nucleotide_index : nat)
    (current_score : T) (info : list InfoVertex * list T * list nat * list nat) :
  next_ self salt_value nucleotide_index current_score = Ok info ->
  info = ([], [], [], [])
  \/ ((nucleotide_index < length dna_string)%nat
      /\ exists m i d,
           matched self salt_value nucleotide_index current_score
             (collect (vertex_string self)) = Ok m
           /\ inserted self salt_value nucleotide_index current_score
                (collect (vertex_string self)) = Ok i
           /\ deleted self salt_value nucleotide_index current_score
                (collect (vertex_string self)) = Ok d
           /\ info = (map (fun f : follow => f.1.1) (m ++ i ++ d),
                      map (fun f : follow => f.1.2) (m ++ i ++ d),
                      map (fun f : follow => f.2) (m ++ i ++ d),
                      map vertex_bit_index
                        (map (fun f : follow => f.1.1) (m ++ i ++ d)))).
Proof.
  unfold next. intros H.
  destruct (Z.gtb_spec (Z.of_nat nucleotide_index) (Z.of_nat (length dna_string) - 1));
    [inversion H; auto|].
  destruct (length (collect (vertex_string self)) =? 0)%nat; [inversion H; auto|].
  cbv zeta in H. inv_bind H. inversion H; subst.
  right. split; [lia|]. eauto 10.
Qed.

Lemma next_total (self : InfoVertex) (salt_value : Z) (nucleotide_index : nat)
    (current_score : T) :
  exists info, next_ self salt_value nucleotide_index current_score = Ok info.
Proof.
  unfold next.
  destruct (Z.gtb_spec (Z.of_nat nucleotide_index) (Z.of_nat (length dna_string) - 1));
    [eauto|].
  destruct (length (collect (vertex_string self)) =? 0)%nat; [eauto|].
  cbv zeta.
  destruct (matched_total self salt_value nucleotide_index current_score
              (collect (vertex_string self))) as [m Hm]; [lia|].
  destruct (inserted_total self salt_value nucleotide_index current_score
              (collect (vertex_string self))) as [i Hi].
  destruct (deleted_total self salt_value nucleotide_index current_score
              (collect (vertex_string self))) as [d Hd].
  rewrite Hm, Hi, Hd. cbn [bind]. eauto.
Qed.

Lemma next_lengths (self : InfoVertex) (salt_value : Z) (nucleotide_index : nat)
    (current_score : T) (follow_v : list InfoVertex) (follow_s : list T)
    (follow_i follow_l : list nat) :
  next_ self salt_value nucleotide_index current_score
  = Ok (follow_v, follow_s, follow_i, follow_l) ->
  length follow_s = length follow_v /\ length follow_i = length follow_v
  /\ length follow_l = length follow_v.
Proof.
  intros H. apply next_cases in H as [H | (_ & m & i & d & _ & _ & _ & H)];
    inversion H; subst; rewrite ?length_map; auto.
Qed.

(** No vertex is followed once the whole of [dna_string] is consumed. *)
Lemma next_consumed (self : InfoVertex) (salt_value : Z) (nucleotide_index : nat)
    (current_score : T) :
  (length dna_string <= nucleotide_index)%nat ->
  next_ self salt_value nucleotide_index current_score = Ok ([], [], [], []).
Proof.
  intros Hge. unfold next.
  destruct (Z.gtb_spec (Z.of_nat nucleotide_index) (Z.of_nat (length dna_string) - 1));
    [reflexivity | lia].
Qed.

(** Every followed vertex extends the string by an accepted nucleotide. *)
Lemma next_extends (self : InfoVertex) (salt_value : Z) (nucleotide_index : nat)
    (current_score : T) (follow_v : list InfoVertex) (follow_s : list T)
    (follow_i follow_l : list nat) (vertex : InfoVertex) :
  next_ self salt_value nucleotide_index current_score
  = Ok (follow_v, follow_s, follow_i, follow_l) ->
  vertex ∈ follow_v ->
  exists nucleotide,
    vertex_string vertex = vertex_string self ++ [nucleotide]
    /\ bio_filter_valid (vertex_string self ++ [nucleotide]) true = true.
Proof.
  intros H Hv.
  apply next_cases in H as [H | (_ & m & i & d & Hm & Hi & Hd & H)];
    inversion H; subst; [inversion Hv|].
  apply list_elem_of_fmap in Hv as (f & -> & Hf).
  assert (Hext : extends_by self (collect (vertex_string self)) f.1.1).
  { apply elem_of_app in Hf as [Hf|Hf]; [|apply elem_of_app in Hf as [Hf|Hf]].
    - eapply matched_follow; eauto.
    - eapply inserted_follow; eauto.
    - eapply deleted_follow; eauto. }
  destruct Hext as (pv & bits & n & Hn & ->).
  exists n. split; [reflexivity|].
  unfold collect_available in Hn.
  apply (list_elem_of_filter
           (fun p => bio_filter_valid (vertex_string self ++ [p]) true = true)) in Hn.
  apply Hn.
Qed.

(** The score of every followed vertex is the current score plus one of
    the four penalties. *)
Lemma next_scores (self : InfoVertex) (salt_value : Z) (nucleotide_index : nat)
    (current_score : T) (follow_v : list InfoVertex) (follow_s : list T)
    (follow_i follow_l : list nat) (score : T) :
  next_ self salt_value nucleotide_index current_score
  = Ok (follow_v, follow_s, follow_i, follow_l) ->
  score ∈ follow_s ->
  score = score_add current_score correct_penalty
  \/ score = score_add current_score mutate_penalty
  \/ score = score_add current_score insert_penalty
  \/ score = score_add current_score delete_penalty.
Proof.
  intros H Hs.
  apply next_cases in H as [H | (_ & m & i & d & Hm & Hi & Hd & H)];
    inversion H; subst; [inversion Hs|].
  apply list_elem_of_fmap in Hs as (f & -> & Hf).
  apply elem_of_app in Hf as [Hf|Hf]; [|apply elem_of_app in Hf as [Hf|Hf]].
  - destruct (matched_follow _ _ _ _ _ _ _ Hm Hf) as (_ & [E|E] & _); auto.
  - destruct (inserted_follow _ _ _ _ _ _ _ Hi Hf) as (_ & E & _); auto.
  - destruct (deleted_follow _ _ _ _ _ _ _ Hd Hf) as (_ & E & _); auto.
Qed.

(** *** The heap and the search loop *)

Lemma max_list_app_l (l k : list nat) :
  (max_list l <= max_list (l ++ k))%nat.
Proof.
  induction l as [|x l IH]; cbn; [lia|]. apply Nat.max_le_compat_l, IH.
Qed.

Lemma initial_heap_wf : heap_wf (initial_heap initial_score).
Proof. unfold heap_wf, initial_heap. cbn. lia. Qed.

Lemma expand_wf (used_score : T) (used_indices : list nat) :
  forall heap : Heap T,
    heap_wf heap ->
    Forall (fun chuck => (chuck < length (heap_v heap))%nat) used_indices ->
    exists outcome,
      expand used_score heap used_indices = Ok outcome
      /\ match outcome with
         | inl heap' => heap_wf heap' /\ heap_le heap heap' /\ finished heap' = true
         | inr heap' => heap_wf heap' /\ heap_le heap heap'
         end.
Proof.
  induction used_indices as [|chuck used_indices IH];
    intros heap Hwf Hused; cbn [expand_chucks].
  - exists (inr heap). unfold heap_le. auto.
  - destruct Hwf as (Hs & Hi & Hl & Hpos).
    apply Forall_cons in Hused as [Hchuck Hused].
    destruct (getitem_lt (heap_v heap) chuck Hchuck) as (vertex & -> & _).
    destruct (getitem_lt (heap_i heap) chuck ltac:(lia)) as (base & -> & _).
    cbn [bind].
    destruct (Nat.ltb_spec chuck (length (heap_s heap))); [|lia]. cbn [bind].
    destruct (next_total vertex (strand_index mod 2 ^ Z.of_nat salt_number)
                base used_score) as [info Hinfo].
    rewrite Hinfo. cbn [bind].
    set (retired := {| heap_v := heap_v heap;
                       heap_s := <[chuck := retired_score dna_string]> (heap_s heap);
                       heap_i := heap_i heap; heap_l := heap_l heap |}).
    assert (Hwf' : heap_wf retired).
    { unfold heap_wf, retired. cbn. rewrite length_insert. auto. }
    destruct (finished retired) eqn:Hfin.
    + exists (inl retired). split; [reflexivity|].
      split; [assumption|]. split; [|assumption].
      unfold heap_le, retired. cbn. auto.
    + destruct info as [[[follow_v follow_s] follow_i] follow_l].
      apply next_lengths in Hinfo as (Hfs & Hfi & Hfl).
      edestruct IH as (outcome & Hout & Hprop); [| |].
      3: { exists outcome. split; [exact Hout|].
           assert (Hle : heap_le heap
                     {| heap_v := heap_v retired ++ follow_v;
                        heap_s := heap_s retired ++ follow_s;
                        heap_i := heap_i retired ++ follow_i;
                        heap_l := heap_l retired ++ follow_l |}).
           { unfold heap_le, retired. cbn. rewrite length_app.
             split; [lia | apply max_list_app_l]. }
           unfold heap_le in *.
           destruct outcome as [heap'|heap']; intuition lia. }
      * unfold heap_wf, retired. cbn. rewrite !length_app, length_insert. lia.
      * unfold retired. cbn. rewrite length_app.
        eapply Forall_impl; [exact Hused|]. cbn. intros; lia.
Qed.

(** When the test holds the loop leaves at the first vertex it visits:
    the heap it leaves with only differs in the score it retired. *)
Lemma expand_finished (used_score : T) (heap : Heap T) (chuck : nat)
    (used_indices : list nat) :
  heap_wf heap -> (chuck < length (heap_v heap))%nat ->
  finished heap = true ->
  expand used_score heap (chuck :: used_indices)
  = Ok (inl {| heap_v := heap_v heap;
               heap_s := <[chuck := retired_score dna_string]> (heap_s heap);
               heap_i := heap_i heap; heap_l := heap_l heap |}).
Proof.
  intros (Hs & Hi & Hl & Hpos) Hchuck Hfin. cbn [expand_chucks].
  destruct (getitem_lt (heap_v heap) chuck Hchuck) as (vertex & -> & _).
  destruct (getitem_lt (heap_i heap) chuck ltac:(lia)) as (base & -> & _).
  cbn [bind].
  destruct (Nat.ltb_spec chuck (length (heap_s heap))); [|lia]. cbn [bind].
  destruct (next_total vertex (strand_index mod 2 ^ Z.of_nat salt_number)
              base used_score) as [info ->].
  cbn [bind].
  change (finished _) with (finished heap). rewrite Hfin. reflexivity.
Qed.

Lemma python_min_elem (l : list T) (lowest : T) :
  python_min l = Ok lowest -> lowest ∈ l.
Proof.
  destruct l as [|x l]; [discriminate|]. cbn [python_min]. intros H.
  inversion H; subst. clear H.
  revert x. induction l as [|y l IH]; intros x; cbn [fold_left].
  - left.
  - destruct (score_ltb y x).
    + right. apply IH.
    + specialize (IH x). apply elem_of_cons in IH as [->|IH];
        [left | right; right; assumption].
Qed.

(** The positions [where] returns are positions of the heap. *)
Lemma where_heap (heap : Heap T) (lowest : T) :
  heap_wf heap ->
  Forall (fun c => (c < length (heap_v heap))%nat)
    (where_ (fun score => score_eqb score lowest) (heap_s heap)).
Proof.
  intros (Hs & _). apply Forall_forall. intros c Hc.
  apply where_spec in Hc as (x & Hx & _). apply lookup_lt_Some in Hx. lia.
Qed.

(** The vertices a pass expands, when every score of the heap equals itself
    (none is [nan]): a non-empty list of positions of the heap. *)
Lemma pass_used (heap : Heap T) :
  heap_wf heap ->
  Forall (fun score => score_eqb score score = true) (heap_s heap) ->
  exists lowest chuck used_indices used_score,
    python_min (heap_s heap) = Ok lowest
    /\ where_ (fun score => score_eqb score lowest) (heap_s heap)
       = chuck :: used_indices
    /\ Forall (fun c => (c < length (heap_v heap))%nat) (chuck :: used_indices)
    /\ getitem (heap_s heap) chuck = Ok used_score.
Proof.
  intros Hwf Hself. pose proof Hwf as (Hs & Hi & Hl & Hpos).
  destruct (python_min (heap_s heap)) as [lowest| |] eqn:Hmin.
  2, 3: destruct (heap_s heap); [cbn in Hs; lia | discriminate].
  exists lowest.
  pose proof (python_min_elem _ _ Hmin) as Helem.
  rewrite Forall_forall in Hself. pose proof (Hself _ Helem) as Hrefl.
  apply list_elem_of_lookup in Helem as [k Hk].
  assert (Hk' : k ∈ where_ (fun score => score_eqb score lowest) (heap_s heap)).
  { apply where_spec. eexists. split; [exact Hk | exact Hrefl]. }
  pose proof (where_heap heap lowest Hwf) as Hall.
  destruct (where_ _ (heap_s heap)) as [|chuck used_indices];
    [inversion Hk'|].
  pose proof (Forall_inv Hall) as Hchuck. cbn beta in Hchuck.
  destruct (getitem_lt (heap_s heap) chuck ltac:(lia)) as (used_score & Hus & _).
  exists chuck, used_indices, used_score. auto.
Qed.

(** What an iteration that does not raise leaves. *)
Lemma pass_outcome (heap : Heap T) (outcome : Heap T + Heap T) :
  heap_wf heap ->
  pass heap = Ok outcome ->
  match outcome with
  | inl heap' => heap_wf heap' /\ heap_le heap heap' /\ finished heap' = true
  | inr heap' => heap_wf heap' /\ heap_le heap heap'
  end.
Proof.
  intros Hwf H. unfold repair_pass in H. inv_bind H.
  destruct (expand_wf x1 _ heap Hwf (where_heap heap x Hwf))
    as (outcome' & Hout & Hprop).
  rewrite Hout in H. inversion H; subst. exact Hprop.
Qed.

(** An iteration on a heap without [nan] does not raise. *)
Lemma pass_wf (heap : Heap T) :
  heap_wf heap ->
  Forall (fun score => score_eqb score score = true) (heap_s heap) ->
  exists outcome,
    pass heap = Ok outcome
    /\ match outcome with
       | inl heap' => heap_wf heap' /\ heap_le heap heap' /\ finished heap' = true
       | inr heap' => heap_wf heap' /\ heap_le heap heap'
       end.
Proof.
  intros Hwf Hself.
  destruct (pass_used heap Hwf Hself)
    as (lowest & chuck & used & score & Hmin & Hw & Hall & Hs).
  unfold repair_pass. rewrite Hmin. cbn [bind]. rewrite Hw.
  cbn [getitem lookup list_lookup bind]. rewrite Hs. cbn [bind].
  apply expand_wf; assumption.
Qed.

Lemma pass_finished (heap : Heap T) :
  heap_wf heap ->
  Forall (fun score => score_eqb score score = true) (heap_s heap) ->
  finished heap = true ->
  exists scores,
    pass heap = Ok (inl {| heap_v := heap_v heap; heap_s := scores;
                           heap_i := heap_i heap; heap_l := heap_l heap |}).
Proof.
  intros Hwf Hself Hfin.
  destruct (pass_used heap Hwf Hself)
    as (lowest & chuck & used & score & Hmin & Hw & Hall & Hs).
  unfold repair_pass. rewrite Hmin. cbn [bind]. rewrite Hw.
  cbn [getitem lookup list_lookup bind]. rewrite Hs. cbn [bind].
  rewrite expand_finished; [eauto | assumption | | assumption].
  exact (Forall_inv Hall).
Qed.

(** The heap on which the search ends passes the test. *)
Lemma loop_final (fuel : nat) :
  forall heap heap' : Heap T,
    heap_wf heap ->
    loop fuel heap = Ok heap' ->
    heap_wf heap' /\ heap_le heap heap' /\ finished heap' = true.
Proof.
  induction fuel as [|fuel IH]; intros heap heap' Hwf H; cbn [repair_loop] in H;
    [discriminate|].
  inv_bind H. pose proof (pass_outcome heap x Hwf Hx) as Hout.
  destruct x as [heap1|heap1].
  - inversion H; subst. exact Hout.
  - destruct Hout as [Hwf1 Hle1].
    destruct (IH heap1 heap' Hwf1 H) as (Hwf' & Hle' & Hfin).
    split; [assumption|]. split; [|assumption].
    unfold heap_le in *. lia.
Qed.

Lemma terminal_strings_wf (heap : Heap T) :
  heap_wf heap ->
  exists results,
    terminal_strings bit_length heap = Ok results
    /\ forall s, s ∈ results <->
         exists t vertex,
           heap_l heap !! t = Some bit_length
           /\ heap_v heap !! t = Some vertex
           /\ vertex_string vertex = s.
Proof.
  intros (Hs & Hi & Hl & Hpos). unfold terminal_strings.
  set (body := fun terminal_index : nat =>
                 let* vertex := getitem (heap_v heap) terminal_index in
                 Ok [vertex_string vertex]).
  set (indices := where_ (fun l => (l =? bit_length)%nat) (heap_l heap)).
  assert (Hidx : forall t, t ∈ indices <-> heap_l heap !! t = Some bit_length).
  { intros t. unfold indices. rewrite where_spec. split.
    - intros (x & Hx & E). apply Nat.eqb_eq in E. congruence.
    - intros Hx. exists bit_length. split; [assumption | apply Nat.eqb_refl]. }
  assert (Hbody : forall t, t ∈ indices ->
            exists vertex, heap_v heap !! t = Some vertex
                           /\ body t = Ok [vertex_string vertex]).
  { intros t Ht. apply Hidx, lookup_lt_Some in Ht.
    destruct (getitem_lt (heap_v heap) t ltac:(lia)) as (vertex & Hg & Hv).
    exists vertex. split; [assumption|]. unfold body. rewrite Hg. reflexivity. }
  destruct (for_each_total indices body) as [results Hres].
  { intros t Ht. destruct (Hbody t Ht) as (vertex & _ & ->). eauto. }
  exists results. split; [exact Hres|]. intros s. split.
  - intros Hsin.
    destruct (for_each_Ok_elem _ _ _ _ Hres Hsin) as (t & zs & Ht & Hb & Hz).
    destruct (Hbody t Ht) as (vertex & Hv & Hb'). rewrite Hb' in Hb.
    inversion Hb; subst. apply list_elem_of_singleton in Hz.
    exists t, vertex. split; [apply Hidx; assumption | auto].
  - intros (t & vertex & Ht & Hv & <-). apply Hidx in Ht.
    destruct (Hbody t Ht) as (vertex' & Hv' & Hb').
    eapply for_each_Ok_intro; [exact Hres | exact Ht | exact Hb' |].
    rewrite Hv in Hv'. inversion Hv'. left.
Qed.

End RepairFacts.

(** ** More on the encoder and the decoder *)

Section CodecMore.

Variable bio_filter_valid : dna -> bool -> bool.
Variable mapping : list nucleotide.
Variables salt_number previous_number low_order_number : nat.
Variable strand_index : Z.

Local Abbreviation collect := (collect_available bio_filter_valid mapping).
Local Abbreviation emit :=
  (encode_emit salt_number previous_number low_order_number strand_index).
Local Abbreviation enc_loop :=
  (encode_loop bio_filter_valid mapping salt_number previous_number
     low_order_number strand_index).
Local Abbreviation dec_symbol :=
  (decode_symbol salt_number previous_number low_order_number strand_index).
Local Abbreviation dec_loop :=
  (decode_loop bio_filter_valid mapping salt_number previous_number
     low_order_number strand_index).
Local Abbreviation enc_hash :=
  (encoder_hash salt_number previous_number low_order_number strand_index).
Local Abbreviation dec_hash :=
  (decoder_hash salt_number previous_number low_order_number strand_index).

(** *** What the decoder returns *)

Lemma decode_search_found (available : list nucleotide) (hash_value : Z)
    (nucleotide : nucleotide) (candidates : list Z) (bit_value : Z) :
  decode_search available hash_value nucleotide candidates = Ok (Some bit_value) ->
  bit_value ∈ candidates.
Proof.
  induction candidates as [|c candidates IH]; cbn [decode_search]; intros H.
  - discriminate.
  - inv_bind H. destruct (decide (x = nucleotide)).
    + inversion H; subst. left.
    + right. auto.
Qed.

Lemma dec_symbol_bits (bit_length : nat) (available : list nucleotide)
    (binary_message : list Z) (nucleotide : nucleotide) (extended : list Z) :
  Forall is_bit binary_message ->
  dec_symbol bit_length available binary_message nucleotide = Ok extended ->
  Forall is_bit extended
  /\ (length extended <= length binary_message + 2)%nat.
Proof.
  intros Hbits. rewrite dec_symbol_unfold.
  generalize (dec_hash binary_message). intros h H.
  assert (Hpair : forall l,
            (let hash_value := h mod 2 in
             let* expected := getitem l (Z.to_nat ((hash_value + 0) mod 2)) in
             if decide (expected = nucleotide)
             then Ok (binary_message ++ [0])
             else Ok (binary_message ++ [1])) = Ok extended ->
            Forall is_bit extended
            /\ (length extended <= length binary_message + 2)%nat).
  { intros l E. cbv zeta in E. inv_bind E.
    destruct (decide (x = nucleotide)); inversion E; subst;
      rewrite length_app; cbn [length];
      (split; [apply Forall_app; split; [assumption|];
               apply Forall_cons_2; [unfold is_bit; lia | apply Forall_nil_2]
              | lia]). }
  destruct available as [|a0 [|a1 [|a2 [|a3 rest]]]]; cbn [length] in H.
  2: { inversion H; subst. split; [assumption | lia]. }
  2, 3: apply (Hpair _ H).
  all: cbv zeta in H; inv_bind H;
    destruct x as [bit_value|]; [|inversion H; subst; split; [assumption | lia]];
    apply decode_search_found in Hx;
    assert (Hrange : 0 <= bit_value < 4)
      by (repeat (apply elem_of_cons in Hx as [->|Hx]; [lia|]); inversion Hx);
    assert (Hlow : is_bit (bit_value mod 2))
      by (unfold is_bit; pose proof (Z.mod_pos_bound bit_value 2 ltac:(lia)); lia);
    assert (Hhigh : is_bit (bit_value / 2))
      by (unfold is_bit;
          assert (0 <= bit_value / 2 < 2)
            by (split; [apply Z.div_pos; lia | apply Z.div_lt_upper_bound; lia]);
          lia);
    destruct (_ <? _)%nat; inversion H; subst; rewrite length_app; cbn [length];
    (split; [apply Forall_app; split; [assumption|];
             repeat (apply Forall_cons_2; [assumption|]); apply Forall_nil_2
            | lia]).
Qed.

Lemma dec_loop_bits (encoded : dna) (bit_length : nat) (rest : dna) :
  forall (nucleotide_index : nat) (binary_message : list Z)
         (available : list nucleotide) (decoded : list Z),
    Forall is_bit binary_message ->
    dec_loop encoded bit_length nucleotide_index rest binary_message available
    = Ok decoded ->
    Forall is_bit decoded
    /\ (length decoded <= bit_length)%nat
    /\ (length decoded <= length binary_message + 2 * length rest)%nat.
Proof.
  induction rest as [|x rest IH]; intros i bm available decoded Hbits H;
    cbn [decode_loop] in H.
  - inversion H; subst. rewrite length_take. split; [|lia].
    apply Forall_take. assumption.
  - inv_bind H. destruct (dec_symbol_bits _ _ _ _ _ Hbits Hx) as [Hbits' Hlen].
    destruct (_ =? _)%nat; [discriminate|].
    destruct (IH _ _ _ _ Hbits' H) as (Hd & Hle & Hle').
    cbn [length]. split; [assumption|]. split; lia.
Qed.

(** *** What the encoder raises *)

Lemma emit_total (message : list Z) (available : list nucleotide)
    (bit_location : nat) :
  available <> [] -> (bit_location < length message)%nat ->
  exists nucleotide bit_location',
    emit message available bit_location = Ok (nucleotide, bit_location').
Proof.
  intros Hne Hlt. rewrite emit_unfold.
  generalize (enc_hash message bit_location). intros h.
  destruct (getitem_lt message bit_location Hlt) as (b & Hb & _).
  assert (Hpair : forall (a0 a1 : nucleotide) (rest : list nucleotide),
            exists (x : nucleotide) (bit_location' : nat),
              (let hash_value := h mod 2 in
               let* bit_value := getitem message bit_location in
               let* emitted :=
                 getitem (a0 :: a1 :: rest)
                   (Z.to_nat ((hash_value + bit_value) mod 2)) in
               Ok (emitted, (bit_location + 1)%nat))
              = Ok (x, bit_location')).
  { intros a0 a1 rest. cbv zeta. rewrite Hb. cbn [bind].
    destruct (getitem_lt (a0 :: a1 :: rest) (Z.to_nat ((h mod 2 + b) mod 2)))
      as (x & Hx & _).
    { pose proof (Z.mod_pos_bound (h mod 2 + b) 2 ltac:(lia)). cbn [length]. lia. }
    rewrite Hx. cbn [bind]. eauto. }
  destruct available as [|a0 [|a1 [|a2 [|a3 rest]]]]; [congruence|..]; cbn [length].
  - cbn [getitem lookup list_lookup bind]. eauto.
  - apply Hpair.
  - apply Hpair.
  - cbv zeta.
    assert (Hbv : exists bit_value,
              (if (bit_location + 2 <=? length message)%nat
               then
                 let* high := getitem message bit_location in
                 let* low := getitem message (bit_location + 1) in
                 Ok (high * 2 + low)
               else getitem message bit_location) = Ok bit_value).
    { destruct (Nat.leb_spec (bit_location + 2) (length message)) as [Hle|Hgt].
      - destruct (getitem_lt message (bit_location + 1) ltac:(lia)) as (b' & Hb' & _).
        rewrite Hb, Hb'. cbn [bind]. eauto.
      - eauto. }
    destruct Hbv as [bit_value ->]. cbn [bind].
    destruct (getitem_lt (a0 :: a1 :: a2 :: a3 :: rest)
                (Z.to_nat ((h mod 4 + bit_value) mod 4))) as (x & Hx & _).
    { pose proof (Z.mod_pos_bound (h mod 4 + bit_value) 4 ltac:(lia)).
      cbn [length]. lia. }
    rewrite Hx. cbn [bind]. eauto.
Qed.

Lemma enc_loop_outcome (message : list Z) (fuel : nat) :
  forall (dna_string : dna) (available : list nucleotide) (bit_location : nat),
    available <> [] ->
    (exists encoded,
        enc_loop message fuel dna_string available bit_location = Ok encoded)
    \/ enc_loop message fuel dna_string available bit_location
       = Raise (CannotBeEncoded strand_index)
    \/ enc_loop message fuel dna_string available bit_location = OutOfFuel.
Proof.
  induction fuel as [|fuel IH]; intros dna_string available bit_location Hne;
    cbn [encode_loop]; [auto|].
  destruct (Nat.ltb_spec bit_location (length message)) as [Hlt|Hge]; [|eauto].
  destruct (emit_total message available bit_location Hne Hlt) as (x & loc' & ->).
  cbn [bind].
  destruct (collect (dna_string ++ [x])) as [|y ys] eqn:E; cbn [length Nat.eqb];
    [auto|].
  apply IH. discriminate.
Qed.

(** *** How long the encoder runs *)

(** With two nucleotides or more to choose from, an emission consumes a
    bit at least. *)
Lemma emit_progress (message : list Z) (available : list nucleotide)
    (bit_location : nat) (nucleotide : nucleotide) (bit_location' : nat) :
  length available <> 1%nat ->
  emit message available bit_location = Ok (nucleotide, bit_location') ->
  (bit_location < bit_location')%nat.
Proof.
  intros Hk H. apply emit_cases in H
    as [[-> ->] | [(b & _ & _ & _ & ->) | (b & _ & _ & _ & ->)]];
    [cbn [length] in Hk; congruence | lia | lia].
Qed.

Lemma enc_loop_bounded (message : list Z) (fuel : nat) :
  (forall s, length (collect s) <> 1%nat) ->
  forall (dna_string : dna) (available : list nucleotide) (bit_location : nat),
    available <> [] -> length available <> 1%nat ->
    (length message - bit_location < fuel)%nat ->
    (length dna_string <= Nat.min bit_location (length message))%nat ->
    (exists encoded,
        enc_loop message fuel dna_string available bit_location = Ok encoded
        /\ (length encoded <= length message)%nat)
    \/ enc_loop message fuel dna_string available bit_location
       = Raise (CannotBeEncoded strand_index).
Proof.
  intros Hall. induction fuel as [|fuel IH];
    intros dna_string available bit_location Hne Hk Hfuel Hinv.
  - lia.
  - cbn [encode_loop].
    destruct (Nat.ltb_spec bit_location (length message)) as [Hlt|Hge].
    + destruct (emit_total message available bit_location Hne Hlt)
        as (x & loc' & He).
      rewrite He. cbn [bind]. apply emit_progress in He; [|assumption].
      destruct (collect (dna_string ++ [x])) as [|y ys] eqn:E;
        cbn [length Nat.eqb]; [auto|].
      rewrite <- E.
      destruct (IH (dna_string ++ [x]) (collect (dna_string ++ [x])) loc')
        as [(encoded & Hrun & Hlen) | Hraise].
      * rewrite E. discriminate.
      * apply Hall.
      * lia.
      * rewrite length_app. cbn [length]. lia.
      * left. exists encoded. split; assumption.
      * auto.
    + left. exists dna_string. split; [reflexivity | lia].
Qed.

(** With a single nucleotide to choose from, an emission consumes no
    bit: the loop goes on for ever once this is all the oracle leaves. *)
Lemma enc_loop_forced (message : list Z) (fuel : nat) :
  (forall s, s <> [] -> length (collect s) = 1%nat) ->
  forall (dna_string : dna) (bit_location : nat),
    dna_string <> [] -> (bit_location < length message)%nat ->
    enc_loop message fuel dna_string (collect dna_string) bit_location = OutOfFuel.
Proof.
  intros Hall. induction fuel as [|fuel IH]; intros dna_string bit_location Hne Hlt;
    cbn [encode_loop]; [reflexivity|].
  destruct (Nat.ltb_spec bit_location (length message)); [|lia].
  pose proof (Hall dna_string Hne) as Hone.
  destruct (collect dna_string) as [|a0 [|a1 rest]] eqn:E; try discriminate Hone.
  rewrite emit_unfold. cbn [length getitem lookup list_lookup bind].
  assert (Hnext : dna_string ++ [a0] <> []) by (destruct dna_string; discriminate).
  pose proof (Hall _ Hnext) as Hone'.
  destruct (length (collect (dna_string ++ [a0])) =? 0)%nat eqn:Ez;
    [apply Nat.eqb_eq in Ez; lia|].
  apply IH; assumption.
Qed.

End CodecMore.

(** ** More on the repair search *)

Lemma for_each_length {X Y : Type} (l : list X) (body : X -> result (list Y))
    (ys : list Y) (bound : nat) :
  (forall x zs, x ∈ l -> body x = Ok zs -> (length zs <= bound)%nat) ->
  for_each l body = Ok ys ->
  (length ys <= bound * length l)%nat.
Proof.
  revert ys. induction l as [|x l IH]; simpl; intros ys Hb H.
  - inversion H; subst. cbn. lia.
  - inv_bind H. inversion H; subst. rewrite length_app.
    assert (length x0 <= bound)%nat by (eapply Hb; [left | eassumption]).
    assert (length x1 <= bound * length l)%nat
      by (apply IH; [intros; eapply Hb; [right|]; eassumption | assumption]).
    lia.
Qed.

Lemma product01_size (n : nat) : length (product01 n) = (2 ^ n)%nat.
Proof.
  induction n as [|n IH]; [reflexivity|].
  cbn [product01]. rewrite length_app, !length_map, IH. cbn [Nat.pow]. lia.
Qed.

Lemma nucleotides_NoDup_length (l : list nucleotide) :
  NoDup l -> (length l <= 4)%nat.
Proof.
  intros Hnd. change 4%nat with (length acgt).
  apply submseteq_length, NoDup_submseteq; [assumption|].
  intros x _. unfold acgt. destruct x; repeat constructor.
Qed.

Section RepairMore.

Context {T : Type} {score_ops : Score T}.

Variable bio_filter_valid : dna -> bool -> bool.
Variable mapping : list nucleotide.
Variables salt_number previous_number low_order_number : nat.
Variable strand_index : Z.
Variable dna_string : dna.
Variable initial_score : T.
Variable bit_length : nat.
Variable heap_limitation : Z.
Variables correct_penalty insert_penalty delete_penalty mutate_penalty : T.

Local Abbreviation collect := (collect_available bio_filter_valid mapping).
Local Abbreviation matched :=
  (next_match previous_number low_order_number dna_string
     correct_penalty mutate_penalty).
Local Abbreviation inserted :=
  (next_insert previous_number low_order_number dna_string insert_penalty).
Local Abbreviation deleted :=
  (next_delete previous_number low_order_number delete_penalty).
Local Abbreviation next_ :=
  (next bio_filter_valid mapping previous_number low_order_number dna_string
     correct_penalty insert_penalty delete_penalty mutate_penalty).
Local Abbreviation finished := (search_finished bit_length heap_limitation).
Local Abbreviation expand :=
  (expand_chucks bio_filter_valid mapping salt_number previous_number
     low_order_number strand_index dna_string bit_length heap_limitation
     correct_penalty insert_penalty delete_penalty mutate_penalty).
Local Abbreviation pass :=
  (repair_pass bio_filter_valid mapping salt_number previous_number
     low_order_number strand_index dna_string bit_length heap_limitation
     correct_penalty insert_penalty delete_penalty mutate_penalty).
Local Abbreviation loop :=
  (repair_loop bio_filter_valid mapping salt_number previous_number
     low_order_number strand_index dna_string bit_length heap_limitation
     correct_penalty insert_penalty delete_penalty mutate_penalty).
Local Abbreviation repair_ :=
  (repair bio_filter_valid mapping salt_number previous_number
     low_order_number strand_index dna_string initial_score bit_length
     heap_limitation correct_penalty insert_penalty delete_penalty
     mutate_penalty).

(** *** The vertices [next] follows *)

Lemma matched_shape (self : InfoVertex) (salt_value : Z) (nucleotide_index : nat)
    (current_score : T) (available : list nucleotide) (follows : list follow)
    (f : follow) :
  matched self salt_value nucleotide_index current_score available = Ok follows ->
  f ∈ follows ->
  follows_from self available f.1.1 /\ f.2 = (nucleotide_index + 1)%nat.
Proof.
  unfold next_match. intros H Hf. cbv zeta in H. inv_bind H.
  destruct (decide (x ∈ available)) as [Hin|]; [|inversion H; subst; inversion Hf].
  destruct (for_each_Ok_elem _ _ _ _ H Hf) as (m & zs & Hm & Hb & Hz).
  apply product01_length in Hm. cbv beta in Hb. unfold follows_from. rewrite <- Hm.
  destruct m as [|b0 [|b1 [|b2 m]]]; cbn [length step_bits].
  - inversion Hb; subst. apply list_elem_of_singleton in Hz. subst f.
    cbn [fst snd]. eauto 10.
  - inv_bind Hb. destruct (decide (x0 = x)); inversion Hb; subst;
      apply list_elem_of_singleton in Hz; subst f; cbn [fst snd]; eauto 10.
  - inv_bind Hb. destruct (decide (x0 = x)); inversion Hb; subst;
      apply list_elem_of_singleton in Hz; subst f; cbn [fst snd]; eauto 10.
  - inversion Hb; subst. apply list_elem_of_singleton in Hz. subst f.
    cbn [fst snd]. eauto 10.
Qed.

Lemma inserted_shape (self : InfoVertex) (salt_value : Z) (nucleotide_index : nat)
    (current_score : T) (available : list nucleotide) (follows : list follow)
    (f : follow) :
  inserted self salt_value nucleotide_index current_score available = Ok follows ->
  f ∈ follows ->
  follows_from self available f.1.1
  /\ f.2 = (nucleotide_index + 2)%nat
  /\ (nucleotide_index + 1 < length dna_string)%nat.
Proof.
  unfold next_insert. intros H Hf. cbv zeta in H.
  destruct (Nat.ltb_spec (nucleotide_index + 1) (length dna_string)) as [Hlt|];
    [|inversion H; subst; inversion Hf].
  inv_bind H.
  destruct (decide (x ∈ available)) as [Hin|]; [|inversion H; subst; inversion Hf].
  destruct (for_each_Ok_elem _ _ _ _ H Hf) as (m & zs & Hm & Hb & Hz).
  apply product01_length in Hm. cbv beta in Hb. inv_bind Hb.
  destruct x0 as [vertex|]; inversion Hb; subst zs; [|inversion Hz].
  apply list_elem_of_singleton in Hz. subst f. cbn [fst snd].
  split; [|auto]. unfold follows_from. rewrite <- Hm.
  destruct m as [|b0 [|b1 [|b2 m]]]; cbn [length step_bits].
  - inversion Hx0; subst. eauto 10.
  - inv_bind Hx0. destruct (decide (x0 = x)); inversion Hx0; subst. eauto 10.
  - inv_bind Hx0. destruct (decide (x0 = x)); inversion Hx0; subst. eauto 10.
  - inversion Hx0; subst. eauto 10.
Qed.

Lemma deleted_shape (self : InfoVertex) (salt_value : Z) (nucleotide_index : nat)
    (current_score : T) (available : list nucleotide) (follows : list follow)
    (f : follow) :
  deleted self salt_value nucleotide_index current_score available = Ok follows ->
  f ∈ follows ->
  follows_from self available f.1.1 /\ f.2 = nucleotide_index.
Proof.
  unfold next_delete. intros H Hf. cbv zeta in H.
  destruct (for_each_Ok_elem _ _ _ _ H Hf) as (m & zs & Hm & Hb & Hz).
  apply product01_length in Hm. cbv beta in Hb. unfold follows_from. rewrite <- Hm.
  assert (Hall : forall zs',
            Ok (map (fun nucleotide =>
                       (extend self (vertex_previous_value self) 0 nucleotide,
                        score_add current_score delete_penalty, nucleotide_index))
                  available) = Ok zs' ->
            f ∈ zs' ->
            (exists previous_value nucleotide,
                nucleotide ∈ available
                /\ f.1.1 = extend self previous_value 0 nucleotide)
            /\ f.2 = nucleotide_index).
  { intros zs' E Hz'. inversion E; subst.
    apply list_elem_of_fmap in Hz' as (n & -> & Hn). cbn [fst snd]. eauto 10. }
  destruct m as [|b0 [|b1 [|b2 m]]]; cbn [length step_bits].
  - eapply Hall; eauto.
  - inv_bind Hb. inversion Hb; subst. apply list_elem_of_singleton in Hz. subst f.
    apply getitem_Ok, list_elem_of_lookup_2 in Hx. cbn [fst snd]. eauto 10.
  - inv_bind Hb. inversion Hb; subst. apply list_elem_of_singleton in Hz. subst f.
    apply getitem_Ok, list_elem_of_lookup_2 in Hx. cbn [fst snd]. eauto 10.
  - eapply Hall; eauto.
Qed.

(** What every followed vertex looks like, and where its index points. *)
Lemma next_shape (self : InfoVertex) (salt_value : Z) (nucleotide_index : nat)
    (current_score : T) (follow_v : list InfoVertex) (follow_s : list T)
    (follow_i follow_l : list nat) :
  next_ self salt_value nucleotide_index current_score
  = Ok (follow_v, follow_s, follow_i, follow_l) ->
  follow_l = map vertex_bit_index follow_v
  /\ Forall (follows_from self (collect (vertex_string self))) follow_v
  /\ Forall (fun i => (nucleotide_index <= i <= length dna_string)%nat) follow_i.
Proof.
  intros H.
  apply next_cases in H as [H | (Hlt & m & i & d & Hm & Hi & Hd & H)];
    inversion H; subst; [repeat split; constructor|].
  split; [reflexivity|]. split.
  - apply Forall_fmap, Forall_forall. intros f Hf. cbn.
    apply elem_of_app in Hf as [Hf|Hf]; [|apply elem_of_app in Hf as [Hf|Hf]].
    + eapply matched_shape; eauto.
    + eapply inserted_shape; eauto.
    + eapply deleted_shape; eauto.
  - apply Forall_fmap, Forall_forall. intros f Hf. cbn.
    apply elem_of_app in Hf as [Hf|Hf]; [|apply elem_of_app in Hf as [Hf|Hf]].
    + destruct (matched_shape _ _ _ _ _ _ _ Hm Hf) as [_ ->]. lia.
    + destruct (inserted_shape _ _ _ _ _ _ _ Hi Hf) as (_ & -> & ?). lia.
    + destruct (deleted_shape _ _ _ _ _ _ _ Hd Hf) as [_ ->]. lia.
Qed.

(** The previous bits of a followed vertex fit their register when those
    of the vertex do. *)
Lemma next_fits (self : InfoVertex) (salt_value : Z) (nucleotide_index : nat)
    (current_score : T) (follow_v : list InfoVertex) (follow_s : list T)
    (follow_i follow_l : list nat) :
  vertex_fits previous_number self ->
  next_ self salt_value nucleotide_index current_score
  = Ok (follow_v, follow_s, follow_i, follow_l) ->
  Forall (vertex_fits previous_number) follow_v.
Proof.
  intros Hself H.
  assert (Hpow : 0 < 2 ^ Z.of_nat previous_number) by lia.
  assert (Hext : forall previous_value bits x,
            previous_value = vertex_previous_value self
            \/ (exists z, previous_value = z mod 2 ^ Z.of_nat previous_number) ->
            vertex_fits previous_number (extend self previous_value bits x)).
  { intros pv bits x [-> | [z ->]]; unfold vertex_fits, extend;
      cbn [vertex_previous_value]; [exact Hself | apply Z.mod_pos_bound, Hpow]. }
  apply next_cases in H as [H | (Hlt & m & i & d & Hm & Hi & Hd & H)];
    inversion H; subst; [constructor|].
  apply Forall_fmap, Forall_forall. intros f Hf. cbn.
  apply elem_of_app in Hf as [Hf|Hf]; [|apply elem_of_app in Hf as [Hf|Hf]].
  - unfold next_match in Hm. cbv zeta in Hm. inv_bind Hm.
    destruct (decide (x ∈ _)); [|inversion Hm; subst; inversion Hf].
    destruct (for_each_Ok_elem _ _ _ _ Hm Hf) as (bits & zs & _ & Hb & Hz).
    cbv beta in Hb.
    destruct bits as [|b0 [|b1 [|b2 bits]]].
    + inversion Hb; subst. apply list_elem_of_singleton in Hz. subst f.
      apply Hext. left. reflexivity.
    + inv_bind Hb. destruct (decide (x0 = x)); inversion Hb; subst;
        apply list_elem_of_singleton in Hz; subst f; apply Hext; eauto.
    + inv_bind Hb. destruct (decide (x0 = x)); inversion Hb; subst;
        apply list_elem_of_singleton in Hz; subst f; apply Hext; eauto.
    + inversion Hb; subst. apply list_elem_of_singleton in Hz. subst f.
      apply Hext. left. reflexivity.
  - unfold next_insert in Hi. cbv zeta in Hi.
    destruct (_ <? _)%nat; [|inversion Hi; subst; inversion Hf].
    inv_bind Hi.
    destruct (decide (x ∈ _)); [|inversion Hi; subst; inversion Hf].
    destruct (for_each_Ok_elem _ _ _ _ Hi Hf) as (bits & zs & _ & Hb & Hz).
    cbv beta in Hb. inv_bind Hb.
    destruct x0 as [vertex|]; inversion Hb; subst zs; [|inversion Hz].
    apply list_elem_of_singleton in Hz. subst f. cbn [fst].
    destruct bits as [|b0 [|b1 [|b2 bits]]].
    + inversion Hx0; subst. apply Hext. left. reflexivity.
    + inv_bind Hx0. destruct (decide (x0 = x)); inversion Hx0; subst.
      apply Hext. eauto.
    + inv_bind Hx0. destruct (decide (x0 = x)); inversion Hx0; subst.
      apply Hext. eauto.
    + inversion Hx0; subst. apply Hext. left. reflexivity.
  - unfold next_delete in Hd. cbv zeta in Hd.
    destruct (for_each_Ok_elem _ _ _ _ Hd Hf) as (bits & zs & _ & Hb & Hz).
    cbv beta in Hb.
    assert (Hall : forall zs',
              Ok (map (fun nucleotide =>
                         (extend self (vertex_previous_value self) 0 nucleotide,
                          score_add current_score delete_penalty,
                          nucleotide_index))
                    (collect (vertex_string self))) = Ok zs' ->
              f ∈ zs' -> vertex_fits previous_number f.1.1).
    { intros zs' E Hz'. inversion E; subst.
      apply list_elem_of_fmap in Hz' as (n & -> & Hn). cbn [fst].
      apply Hext. left. reflexivity. }
    destruct bits as [|b0 [|b1 [|b2 bits]]].
    + eapply Hall; eauto.
    + inv_bind Hb. inversion Hb; subst. apply list_elem_of_singleton in Hz.
      subst f. apply Hext. eauto.
    + inv_bind Hb. inversion Hb; subst. apply list_elem_of_singleton in Hz.
      subst f. apply Hext. eauto.
    + eapply Hall; eauto.
Qed.


End RepairMore.

(** *** The bits a string carries *)

Lemma carried_from_snoc (bio_filter_valid : dna -> bool -> bool)
    (mapping : list nucleotide) (rest : dna) :
  forall (prefix : dna) (x : nucleotide),
    carried_from bio_filter_valid mapping prefix (rest ++ [x])
    = (carried_from bio_filter_valid mapping prefix rest
       + step_bits
           (Nat.log2
              (length (collect_available bio_filter_valid mapping (prefix ++ rest)))))%nat.
Proof.
  induction rest as [|y rest IH]; intros prefix x; cbn [carried_from app].
  - rewrite app_nil_r. lia.
  - rewrite IH, <- app_assoc. cbn [app]. lia.
Qed.

Lemma carried_bits_snoc (bio_filter_valid : dna -> bool -> bool)
    (mapping : list nucleotide) (s : dna) (x : nucleotide) :
  carried_bits bio_filter_valid mapping (s ++ [x])
  = (carried_bits bio_filter_valid mapping s
     + step_bits
         (Nat.log2 (length (collect_available bio_filter_valid mapping s))))%nat.
Proof. unfold carried_bits. apply carried_from_snoc. Qed.

Section RepairInvariants.

Context {T : Type} {score_ops : Score T}.

Variable bio_filter_valid : dna -> bool -> bool.
Variable mapping : list nucleotide.
Variables salt_number previous_number low_order_number : nat.
Variable strand_index : Z.
Variable dna_string : dna.
Variable initial_score : T.
Variable bit_length : nat.
Variable heap_limitation : Z.
Variables correct_penalty insert_penalty delete_penalty mutate_penalty : T.

Local Abbreviation collect := (collect_available bio_filter_valid mapping).
Local Abbreviation next_ :=
  (next bio_filter_valid mapping previous_number low_order_number dna_string
     correct_penalty insert_penalty delete_penalty mutate_penalty).
Local Abbreviation finished := (search_finished bit_length heap_limitation).
Local Abbreviation expand :=
  (expand_chucks bio_filter_valid mapping salt_number previous_number
     low_order_number strand_index dna_string bit_length heap_limitation
     correct_penalty insert_penalty delete_penalty mutate_penalty).
Local Abbreviation pass :=
  (repair_pass bio_filter_valid mapping salt_number previous_number
     low_order_number strand_index dna_string bit_length heap_limitation
     correct_penalty insert_penalty delete_penalty mutate_penalty).
Local Abbreviation loop :=
  (repair_loop bio_filter_valid mapping salt_number previous_number
     low_order_number strand_index dna_string bit_length heap_limitation
     correct_penalty insert_penalty delete_penalty mutate_penalty).
Local Abbreviation repair_ :=
  (repair bio_filter_valid mapping salt_number previous_number
     low_order_number strand_index dna_string initial_score bit_length
     heap_limitation correct_penalty insert_penalty delete_penalty
     mutate_penalty).

(** *** Invariants of the search *)

(** A property of the heap that retiring a score keeps, and that appending
    what [next] returns for a vertex of the heap keeps while the search is
    not finished, holds of every heap the search reaches. *)
Section Invariant.

Variable P : Heap T -> Prop.

Hypothesis P_retire :
  forall heap chuck,
    P heap ->
    P {| heap_v := heap_v heap;
         heap_s := <[chuck := retired_score dna_string]> (heap_s heap);
         heap_i := heap_i heap; heap_l := heap_l heap |}.

Hypothesis P_append :
  forall heap chuck vertex base salt_value score follow_v follow_s follow_i follow_l,
    P heap -> finished heap = false ->
    heap_v heap !! chuck = Some vertex -> heap_i heap !! chuck = Some base ->
    next_ vertex salt_value base score
    = Ok (follow_v, follow_s, follow_i, follow_l) ->
    P {| heap_v := heap_v heap ++ follow_v; heap_s := heap_s heap ++ follow_s;
         heap_i := heap_i heap ++ follow_i; heap_l := heap_l heap ++ follow_l |}.

Lemma expand_invariant (used_score : T) (used_indices : list nat) :
  forall (heap : Heap T) (outcome : Heap T + Heap T),
    P heap ->
    expand used_score heap used_indices = Ok outcome ->
    match outcome with inl heap' | inr heap' => P heap' end.
Proof.
  induction used_indices as [|chuck used_indices IH]; intros heap outcome HP H;
    cbn [expand_chucks] in H.
  - inversion H; subst. exact HP.
  - inv_bind H. destruct (_ <? _)%nat; [|discriminate]. inversion Hx1; subst x1.
    apply getitem_Ok in Hx, Hx0.
    set (retired := {| heap_v := heap_v heap;
                       heap_s := <[chuck := retired_score dna_string]> (heap_s heap);
                       heap_i := heap_i heap; heap_l := heap_l heap |}) in *.
    assert (HP' : P retired) by (apply P_retire; exact HP).
    destruct (finished retired) eqn:Hfin.
    + inversion H; subst. exact HP'.
    + destruct x2 as [[[follow_v follow_s] follow_i] follow_l].
      eapply IH; [|exact H].
      eapply (P_append retired); eauto.
Qed.

Lemma pass_invariant (heap : Heap T) (outcome : Heap T + Heap T) :
  P heap -> pass heap = Ok outcome ->
  match outcome with inl heap' | inr heap' => P heap' end.
Proof.
  unfold repair_pass. intros HP H. inv_bind H.
  eapply expand_invariant; eassumption.
Qed.

Lemma loop_invariant (fuel : nat) :
  forall heap heap', P heap -> loop fuel heap = Ok heap' -> P heap'.
Proof.
  induction fuel as [|fuel IH]; intros heap heap' HP H; cbn [repair_loop] in H;
    [discriminate|].
  inv_bind H. pose proof (pass_invariant _ _ HP Hx) as HP'.
  destruct x as [heap1|heap1].
  - inversion H; subst. exact HP'.
  - eapply IH; eassumption.
Qed.

End Invariant.

Lemma follows_from_ok (self vertex : InfoVertex) :
  vertex_ok bio_filter_valid self ->
  follows_from self (collect (vertex_string self)) vertex ->
  vertex_ok bio_filter_valid vertex.
Proof.
  intros [Hpre Hbits] (pv & x & Hx & ->). unfold vertex_ok, extend.
  cbn [vertex_string vertex_bit_index]. rewrite length_app. cbn [length].
  apply (list_elem_of_filter
           (fun p => bio_filter_valid (vertex_string self ++ [p]) true = true))
    in Hx.
  destruct Hx as [Hx _]. split.
  - intros n Hn. destruct (decide (n <= length (vertex_string self))%nat).
    + rewrite take_app_le by assumption. apply Hpre. lia.
    + rewrite take_ge by (rewrite length_app; cbn [length]; lia). exact Hx.
  - assert (step_bits (Nat.log2 (length (collect (vertex_string self)))) <= 2)%nat
      by (unfold step_bits;
          destruct (Nat.log2 (length (collect (vertex_string self))))
            as [|[|[|w]]]; lia).
    lia.
Qed.

Lemma initial_heap_ok :
  heap_ok bio_filter_valid dna_string (initial_heap initial_score).
Proof.
  unfold heap_ok, initial_heap, vertex_ok. cbn [heap_v heap_i heap_l].
  split; [reflexivity|]. split.
  - apply Forall_cons_2; [|apply Forall_nil_2].
    cbn [vertex_string vertex_bit_index length].
    split; [intros n Hn; lia | lia].
  - apply Forall_cons_2; [lia | apply Forall_nil_2].
Qed.

Lemma loop_heap_ok (fuel : nat) (heap : Heap T) :
  loop fuel (initial_heap initial_score) = Ok heap ->
  heap_ok bio_filter_valid dna_string heap.
Proof.
  apply (loop_invariant (heap_ok bio_filter_valid dna_string)).
  - intros h chuck Hok. exact Hok.
  - intros h chuck vertex base salt_value score fv fs fi fl
      (Hl & Hv & Hi) _ Hvertex _ Hnext.
    apply next_shape in Hnext as (-> & Hshape & Hidx).
    unfold heap_ok. cbn [heap_v heap_i heap_l].
    split; [rewrite Hl, map_app; reflexivity|]. split.
    + apply Forall_app. split; [assumption|].
      eapply Forall_impl; [exact Hshape|]. cbn. intros v Hfrom.
      apply follows_from_ok with (self := vertex); [|assumption].
      rewrite Forall_lookup in Hv. eapply Hv, Hvertex.
    + apply Forall_app. split; [assumption|].
      eapply Forall_impl; [exact Hidx|]. cbn. intros; lia.
  - exact initial_heap_ok.
Qed.

(** *** How many vertices [next] follows *)

Lemma next_count (self : InfoVertex) (salt_value : Z) (nucleotide_index : nat)
    (current_score : T) (follow_v : list InfoVertex) (follow_s : list T)
    (follow_i follow_l : list nat) :
  (length mapping <= 4)%nat ->
  next_ self salt_value nucleotide_index current_score
  = Ok (follow_v, follow_s, follow_i, follow_l) ->
  (length follow_v <= 12)%nat.
Proof.
  intros Hmap H.
  apply next_cases in H as [H | (_ & m & i & d & Hm & Hi & Hd & H)];
    inversion H; subst; [cbn; lia|].
  set (available := collect (vertex_string self)) in *.
  assert (Hk : (length available <= 4)%nat).
  { unfold available, collect_available.
    etransitivity; [apply length_filter | exact Hmap]. }
  assert (Hpow : (2 ^ Nat.log2 (length available) <= 4)%nat).
  { destruct (length available) as [|[|[|[|[|k]]]]]; cbn; lia. }
  assert (Hmlen : (length m <= 1 * 2 ^ Nat.log2 (length available))%nat).
  { unfold next_match in Hm. cbv zeta in Hm. inv_bind Hm.
    destruct (decide (x ∈ available)); [|inversion Hm; cbn; lia].
    rewrite <- product01_size. eapply for_each_length; [|exact Hm].
    intros pattern zs _ Hb. cbv beta in Hb.
    destruct pattern as [|b0 [|b1 [|b2 pattern]]];
      try (inv_bind Hb; destruct (decide (x0 = x)));
      inversion Hb; cbn; lia. }
  assert (Hilen : (length i <= 1 * 2 ^ Nat.log2 (length available))%nat).
  { unfold next_insert in Hi. cbv zeta in Hi.
    destruct (_ <? _)%nat; [|inversion Hi; cbn; lia]. inv_bind Hi.
    destruct (decide (x ∈ available)); [|inversion Hi; cbn; lia].
    rewrite <- product01_size. eapply for_each_length; [|exact Hi].
    intros pattern zs _ Hb. cbv beta in Hb. inv_bind Hb.
    destruct x0; inversion Hb; cbn; lia. }
  assert (Hdlen : (length d <= 4)%nat).
  { unfold next_delete in Hd. cbv zeta in Hd.
    destruct (Nat.log2 (length available)) as [|[|[|w]]] eqn:Ew.
    - cbn [product01 for_each] in Hd. inv_bind Hd. inversion Hx; subst.
      inversion Hx0; subst. inversion Hd; subst.
      rewrite app_nil_r, length_map. exact Hk.
    - transitivity (1 * length (product01 1))%nat; [|cbn; lia].
      eapply for_each_length; [|exact Hd].
      intros pattern zs Hp Hb. apply product01_length in Hp. cbv beta in Hb.
      destruct pattern as [|b0 [|b1 pattern]]; try discriminate Hp.
      inv_bind Hb. inversion Hb; cbn; lia.
    - transitivity (1 * length (product01 2))%nat; [|cbn; lia].
      eapply for_each_length; [|exact Hd].
      intros pattern zs Hp Hb. apply product01_length in Hp. cbv beta in Hb.
      destruct pattern as [|b0 [|b1 [|b2 pattern]]]; try discriminate Hp.
      inv_bind Hb. inversion Hb; cbn; lia.
    - assert (2 ^ w <> 0)%nat by (apply Nat.pow_nonzero; lia).
      cbn [Nat.pow] in Hpow. lia. }
  rewrite length_map, !length_app. lia.
Qed.

Lemma loop_size (fuel : nat) (heap : Heap T) :
  (length mapping <= 4)%nat ->
  loop fuel (initial_heap initial_score) = Ok heap ->
  Z.of_nat (length (heap_v heap)) <= Z.max 1 (heap_limitation + 12).
Proof.
  intros Hmap.
  apply (loop_invariant
           (fun h => Z.of_nat (length (heap_v h)) <= Z.max 1 (heap_limitation + 12))).
  - intros h chuck Hh. exact Hh.
  - intros h chuck vertex base salt_value score fv fs fi fl Hh Hfin _ _ Hnext.
    cbn [heap_v]. rewrite length_app.
    apply next_count in Hnext; [|assumption].
    unfold search_finished in Hfin. apply orb_false_iff in Hfin as [_ Hfin].
    rewrite Z.gtb_ltb in Hfin. apply Z.ltb_ge in Hfin. lia.
  - cbn. lia.
Qed.

(** *** The bit index of a vertex is what its string carries *)

Lemma follows_from_exact (self vertex : InfoVertex) :
  vertex_exact bio_filter_valid mapping self ->
  follows_from self (collect (vertex_string self)) vertex ->
  vertex_exact bio_filter_valid mapping vertex.
Proof.
  intros [Hread Hbits] (pv & x & Hx & ->). unfold vertex_exact, extend.
  cbn [vertex_string vertex_bit_index]. split.
  - intros n y Hy.
    destruct (decide (n < length (vertex_string self))%nat) as [Hlt|Hge].
    + assert (Hy' : vertex_string self !! n = Some y)
        by (rewrite <- Hy; symmetry; apply lookup_app_l; assumption).
      rewrite take_app_le by lia. apply Hread. exact Hy'.
    + assert (Hn : n = length (vertex_string self)).
      { apply lookup_lt_Some in Hy. rewrite length_app in Hy.
        cbn [length] in Hy. lia. }
      subst n.
      assert (Hxy : Some y = Some x)
        by (rewrite <- Hy; apply list_lookup_middle; reflexivity).
      inversion Hxy; subst y.
      rewrite take_app_le, take_ge by lia. exact Hx.
  - rewrite carried_bits_snoc, Hbits. reflexivity.
Qed.

Lemma loop_heap_exact (fuel : nat) (heap : Heap T) :
  loop fuel (initial_heap initial_score) = Ok heap ->
  Forall (vertex_exact bio_filter_valid mapping) (heap_v heap).
Proof.
  apply (loop_invariant
           (fun heap => Forall (vertex_exact bio_filter_valid mapping)
                          (heap_v heap))).
  - intros h chuck Hok. exact Hok.
  - intros h chuck vertex base salt_value score fv fs fi fl
      Hv _ Hvertex _ Hnext.
    apply next_shape in Hnext as (_ & Hshape & _).
    cbn [heap_v]. apply Forall_app. split; [assumption|].
    eapply Forall_impl; [exact Hshape|]. cbn. intros v Hfrom.
    apply follows_from_exact with (self := vertex); [|assumption].
    rewrite Forall_lookup in Hv. eapply Hv, Hvertex.
  - unfold initial_heap. cbn [heap_v].
    apply Forall_cons_2; [|apply Forall_nil_2].
    split; [|reflexivity]. intros n x Hx. destruct n; discriminate.
Qed.

(** *** The previous bits of the vertices fit their register *)

Lemma pass_fits (heap : Heap T) (outcome : Heap T + Heap T) :
  Forall (vertex_fits previous_number) (heap_v heap) ->
  pass heap = Ok outcome ->
  match outcome with
  | inl heap' | inr heap' => Forall (vertex_fits previous_number) (heap_v heap')
  end.
Proof.
  apply (pass_invariant
           (fun heap => Forall (vertex_fits previous_number) (heap_v heap))).
  - intros h chuck Hfits. exact Hfits.
  - intros h chuck vertex base salt_value score fv fs fi fl
      Hfits _ Hvertex _ Hnext.
    cbn [heap_v]. apply Forall_app. split; [assumption|].
    eapply next_fits; [|exact Hnext].
    rewrite Forall_lookup in Hfits. eapply Hfits, Hvertex.
Qed.

Lemma loop_fits (fuel : nat) (heap : Heap T) :
  loop fuel (initial_heap initial_score) = Ok heap ->
  Forall (vertex_fits previous_number) (heap_v heap).
Proof.
  apply (loop_invariant
           (fun heap => Forall (vertex_fits previous_number) (heap_v heap))).
  - intros h chuck Hfits. exact Hfits.
  - intros h chuck vertex base salt_value score fv fs fi fl
      Hfits _ Hvertex _ Hnext.
    cbn [heap_v]. apply Forall_app. split; [assumption|].
    eapply next_fits; [|exact Hnext].
    rewrite Forall_lookup in Hfits. eapply Hfits, Hvertex.
  - unfold initial_heap. cbn [heap_v].
    apply Forall_cons_2; [|apply Forall_nil_2].
    unfold vertex_fits. cbn [vertex_previous_value]. lia.
Qed.

End RepairInvariants.

(** ** Repairing an encoded string *)

(** *** The lowest score of the heap *)

(** The comparisons of the two kinds of numbers. *)
#[global] Instance exact_order : ScoreOrder Q.
Proof.
  split; intros a b H; cbn [score_ltb score_eqb exact_score] in *;
    apply negb_true_iff in H;
    assert (Hlt : (a < b)%Q)
      by (apply Qnot_le_lt; intros Hle; apply Qle_bool_iff in Hle; congruence).
  - apply negb_false_iff, Qle_bool_iff, Qlt_le_weak, Hlt.
  - destruct (Qeq_bool b a) eqn:E; [|reflexivity].
    apply Qeq_bool_iff in E. rewrite E in Hlt.
    exfalso. apply (Qlt_irrefl _ Hlt).
Qed.

Lemma SFcompare_antisym (a b : spec_float) (c : comparison) :
  SFcompare a b = Some c -> SFcompare b a = Some (CompOpp c).
Proof.
  destruct a as [sa|sa| |sa ma ea], b as [sb|sb| |sb mb eb]; cbn [SFcompare];
    try discriminate;
    try (destruct sa; intros [= <-]; reflexivity);
    try (destruct sb; intros [= <-]; reflexivity);
    try (intros [= <-]; reflexivity).
  - destruct sa, sb; intros [= <-]; reflexivity.
  - destruct sa, sb; intros [= <-]; try reflexivity;
      rewrite (Z.compare_antisym ea eb);
      change (Pos.compare_cont Eq mb ma) with (Pos.compare mb ma);
      change (Pos.compare_cont Eq ma mb) with (Pos.compare ma mb);
      rewrite (Pos.compare_antisym ma mb);
      destruct (ea ?= eb); cbn [CompOpp];
      destruct (ma ?= mb)%positive; reflexivity.
Qed.

#[global] Instance binary64_order : ScoreOrder binary64.
Proof.
  split; intros a b H; cbn [score_ltb score_eqb binary64_score] in *;
    unfold SFltb, SFeqb in *;
    destruct (SFcompare a b) as [[| |]|] eqn:E; try discriminate;
    rewrite (SFcompare_antisym _ _ _ E); reflexivity.
Qed.

Lemma where_from_none {X : Type} (p : X -> bool) (l : list X) (offset : nat) :
  (forall x, x ∈ l -> p x = false) -> where_from p offset l = [].
Proof.
  revert offset. induction l as [|x l IH]; intros offset Hall; cbn; [reflexivity|].
  rewrite (Hall x) by left. apply IH. intros; apply Hall; right; assumption.
Qed.

Lemma where_from_one {X : Type} (p : X -> bool) (l : list X) (offset h : nat) :
  (h < length l)%nat ->
  (forall i x, l !! i = Some x -> (p x = true <-> i = h)) ->
  where_from p offset l = [(offset + h)%nat].
Proof.
  revert offset h. induction l as [|x l IH]; intros offset h Hlt Hone; cbn in *.
  - lia.
  - destruct h as [|h].
    + rewrite (proj2 (Hone 0%nat x eq_refl) eq_refl).
      rewrite Nat.add_0_r. f_equal. apply where_from_none.
      intros y Hy. apply list_elem_of_lookup in Hy as [i Hi].
      destruct (p y) eqn:E; [|reflexivity].
      apply (Hone (S i) y Hi) in E. discriminate.
    + destruct (p x) eqn:E; [apply (Hone 0%nat x eq_refl) in E; discriminate|].
      rewrite (IH (S offset) h); [f_equal; lia | lia |].
      intros i y Hi. rewrite (Hone (S i) y Hi). split; [intros [=] | intros ->]; auto.
Qed.

(** When one score is below every other one, [min] is that score and
    one vertex is expanded. *)
Lemma lowest_kept {T : Type} {score_ops : Score T} {order : ScoreOrder T}
    (score : T) (l : list T) :
  forall (x : T) (h : nat),
    (x :: l) !! h = Some score ->
    (forall j y, j <> h -> (x :: l) !! j = Some y -> score_ltb score y = true) ->
    fold_left (fun lowest y => if score_ltb y lowest then y else lowest) l x
    = score.
Proof.
  induction l as [|y l IH]; intros x h Hh Hothers; cbn [fold_left].
  - destruct h as [|h]; cbn in Hh; [congruence | discriminate].
  - destruct h as [|[|h]].
    + assert (x = score) as -> by (cbn in Hh; congruence).
      rewrite (score_ltb_asym score y (Hothers 1%nat y ltac:(lia) eq_refl)).
      apply (IH score 0%nat); [reflexivity|].
      intros [|j] z Hj Hz; [congruence|].
      apply (Hothers (S (S j)) z); [lia | exact Hz].
    + assert (y = score) as -> by (cbn in Hh; congruence).
      rewrite (Hothers 0%nat x ltac:(lia) eq_refl).
      apply (IH score 0%nat); [reflexivity|].
      intros [|j] z Hj Hz; [congruence|].
      apply (Hothers (S (S j)) z); [lia | exact Hz].
    + apply (IH _ (S h)); [exact Hh|].
      intros [|j] z Hj Hz.
      * cbn in Hz. inversion Hz; subst z.
        destruct (score_ltb y x);
          [apply (Hothers 1%nat y); [lia | reflexivity]
          | apply (Hothers 0%nat x); [lia | reflexivity]].
      * apply (Hothers (S (S j)) z); [lia | exact Hz].
Qed.

Lemma lowest_alone {T : Type} {score_ops : Score T} {order : ScoreOrder T}
    (scores : list T) (h : nat) (score : T) :
  scores !! h = Some score ->
  score_eqb score score = true ->
  (forall j y, j <> h -> scores !! j = Some y -> score_ltb score y = true) ->
  python_min scores = Ok score
  /\ where_ (fun y => score_eqb y score) scores = [h].
Proof.
  intros Hh Hself Hothers. split.
  - destruct scores as [|x l]; [discriminate|]. cbn [python_min]. f_equal.
    apply (lowest_kept score l x h Hh Hothers).
  - unfold where_.
    rewrite (where_from_one _ scores 0 h); [reflexivity | |].
    + eapply lookup_lt_Some, Hh.
    + intros i y Hi. split.
      * intros E. destruct (decide (i = h)) as [|Hne]; [assumption|].
        rewrite (score_ltb_neq score y (Hothers i y Hne Hi)) in E. discriminate.
      * intros ->. assert (y = score) as -> by congruence. exact Hself.
Qed.

Lemma max_list_app (l k : list nat) :
  max_list (l ++ k) = Nat.max (max_list l) (max_list k).
Proof.
  induction l as [|x l IH]; cbn; [reflexivity|]. rewrite IH. apply Nat.max_assoc.
Qed.

Lemma max_list_const (l : list nat) (n : nat) :
  l <> [] -> Forall (fun x => x = n) l -> max_list l = n.
Proof.
  intros Hne Hall. induction Hall as [|x l -> Hall IH]; [congruence|].
  cbn. destruct l as [|y l]; [cbn; lia|]. rewrite IH by discriminate. unfold id. lia.
Qed.

(** *** The walk of the encoder along its string *)

Section EncoderWalk.

Variable bio_filter_valid : dna -> bool -> bool.
Variable mapping : list nucleotide.
Variables salt_number previous_number low_order_number : nat.
Variable strand_index : Z.

Local Abbreviation collect := (collect_available bio_filter_valid mapping).
Local Abbreviation carried := (carried_bits bio_filter_valid mapping).
Local Abbreviation emit :=
  (encode_emit salt_number previous_number low_order_number strand_index).
Local Abbreviation enc_loop :=
  (encode_loop bio_filter_valid mapping salt_number previous_number
     low_order_number strand_index).

Hypothesis mapping_NoDup : NoDup mapping.

Lemma collect_length (s : dna) : (length (collect s) <= 4)%nat.
Proof.
  unfold collect_available. etransitivity; [apply length_filter|].
  apply nucleotides_NoDup_length, mapping_NoDup.
Qed.

(** An emission selects a codable nucleotide and consumes the bits that the
    vertices of [repair] add. *)
Lemma emit_codable (message : list Z) (available : list nucleotide)
    (bit_location : nat) (x : nucleotide) (bit_location' : nat) :
  (length available <= 4)%nat ->
  emit message available bit_location = Ok (x, bit_location') ->
  codable available x
  /\ bit_location'
     = (bit_location + step_bits (Nat.log2 (length available)))%nat.
Proof.
  intros Hk H. unfold codable.
  apply emit_cases in H
    as [[-> ->] | [(b & Hlen & _ & Hx & ->) | (b & Hlen & _ & Hx & ->)]].
  - cbn. split; [exists 0%nat; split; [reflexivity | lia] | lia].
  - assert (Hlog : Nat.log2 (length available) = 1%nat)
      by (destruct Hlen as [-> | ->]; reflexivity).
    rewrite Hlog. split; [|reflexivity]. eexists. split; [exact Hx|].
    pose proof (Z.mod_pos_bound
                  (encoder_hash salt_number previous_number low_order_number
                     strand_index message bit_location mod 2 + b) 2 ltac:(lia)).
    cbn. lia.
  - assert (Hfour : length available = 4%nat) by lia.
    rewrite Hfour. split; [|reflexivity]. eexists. split; [exact Hx|].
    pose proof (Z.mod_pos_bound
                  (encoder_hash salt_number previous_number low_order_number
                     strand_index message bit_location mod 4 + b) 4 ltac:(lia)).
    cbn. lia.
Qed.

Lemma enc_walk (message : list Z) (encoded : dna) (fuel : nat) :
  forall (dna_string : dna) (available : list nucleotide) (bit_location : nat),
    enc_loop message fuel dna_string available bit_location = Ok encoded ->
    available = collect dna_string ->
    bit_location = carried dna_string ->
    (forall n x, (length dna_string <= n)%nat -> encoded !! n = Some x ->
       codable (collect (take n encoded)) x
       /\ (carried (take n encoded) < length message)%nat)
    /\ (length message <= carried encoded)%nat.
Proof.
  induction fuel as [|fuel IH]; intros dna_string available bit_location H Hav Hloc.
  - discriminate.
  - destruct (Nat.lt_ge_cases bit_location (length message)) as [Hlt|Hge].
    + apply enc_loop_running in H as (x & loc' & He & _ & H); [|assumption].
      destruct (enc_loop_prefix _ _ _ _ _ _ _ _ _ _ _ _ H) as [rest Hrest].
      rewrite <- app_assoc in Hrest. cbn [app] in Hrest.
      subst available.
      apply emit_codable in He as [Hcod Hloc']; [|apply collect_length].
      destruct (IH _ _ _ H eq_refl) as [Hwalk Hend].
      { rewrite carried_bits_snoc. lia. }
      split; [|exact Hend].
      intros n y Hn Hy.
      destruct (decide (n = length dna_string)) as [->|Hne].
      * assert (Htake : take (length dna_string) encoded = dna_string)
          by (rewrite Hrest; apply take_app_length).
        assert (Hyx : Some y = Some x)
          by (rewrite <- Hy, Hrest; apply list_lookup_middle; reflexivity).
        inversion Hyx; subst y. rewrite Htake. split; [assumption | lia].
      * apply Hwalk; [|assumption]. rewrite length_app. cbn [length]. lia.
    + rewrite enc_loop_done in H by assumption. inversion H; subst encoded.
      split; [|lia].
      intros n y Hn Hy. apply lookup_lt_Some in Hy. lia.
Qed.

End EncoderWalk.

(** Evaluate the closed list indices of the goal and of the hypotheses. *)
Ltac closed_indices :=
  repeat match goal with
  | |- context [Z.to_nat ?e] =>
      let v := eval vm_compute in (Z.to_nat e) in
      progress change (Z.to_nat e) with v
  | H : context [Z.to_nat ?e] |- _ =>
      let v := eval vm_compute in (Z.to_nat e) in
      progress change (Z.to_nat e) with v in H
  end.

Section Agreement.

Context {T : Type} {score_ops : Score T}.

Variable bio_filter_valid : dna -> bool -> bool.
Variable mapping : list nucleotide.
Variables salt_number previous_number low_order_number : nat.
Variable strand_index : Z.
Variable dna_string : dna.
Variable bit_length : nat.
Variable heap_limitation : Z.
Variables correct_penalty insert_penalty delete_penalty mutate_penalty : T.

Local Abbreviation collect := (collect_available bio_filter_valid mapping).
Local Abbreviation carried := (carried_bits bio_filter_valid mapping).
Local Abbreviation matched :=
  (next_match previous_number low_order_number dna_string
     correct_penalty mutate_penalty).
Local Abbreviation inserted :=
  (next_insert previous_number low_order_number dna_string insert_penalty).
Local Abbreviation deleted :=
  (next_delete previous_number low_order_number delete_penalty).
Local Abbreviation next_ :=
  (next bio_filter_valid mapping previous_number low_order_number dna_string
     correct_penalty insert_penalty delete_penalty mutate_penalty).
Local Abbreviation finished := (search_finished bit_length heap_limitation).
Local Abbreviation expand :=
  (expand_chucks bio_filter_valid mapping salt_number previous_number
     low_order_number strand_index dna_string bit_length heap_limitation
     correct_penalty insert_penalty delete_penalty mutate_penalty).
Local Abbreviation pass :=
  (repair_pass bio_filter_valid mapping salt_number previous_number
     low_order_number strand_index dna_string bit_length heap_limitation
     correct_penalty insert_penalty delete_penalty mutate_penalty).
Local Abbreviation loop :=
  (repair_loop bio_filter_valid mapping salt_number previous_number
     low_order_number strand_index dna_string bit_length heap_limitation
     correct_penalty insert_penalty delete_penalty mutate_penalty).

(** *** The follower that agrees with the received nucleotide *)

(** Close a goal on the explicit list of the followed vertices: name the
    position of the agreeing one, the others are mutations. *)
Ltac agreeing_position :=
  eexists;
  ((exists 0%nat) + (exists 1%nat) + (exists 2%nat) + (exists 3%nat));
  eexists; split; [reflexivity|]; split; [reflexivity|];
  let q := fresh "q" in
  let f := fresh "f" in
  let Hne := fresh "Hne" in
  let Hq := fresh "Hq" in
  intros q f Hne Hq;
  do 4 (destruct q as [|q];
        [first [congruence
               | cbn [lookup list_lookup] in Hq; inversion Hq; reflexivity]|]);
  cbn [lookup list_lookup] in Hq; discriminate.

Lemma matched_head (self : InfoVertex) (salt_value : Z) (n : nat)
    (current_score : T) (available : list nucleotide) (x : nucleotide) (w : nat) :
  NoDup available ->
  dna_string !! n = Some x ->
  Nat.log2 (length available) = w -> (w <= 2)%nat ->
  (exists j, available !! j = Some x /\ (j < 2 ^ w)%nat) ->
  exists m q previous_value,
    matched self salt_value n current_score available = Ok m
    /\ m !! q = Some (extend self previous_value (step_bits w) x,
                      score_add current_score correct_penalty, (n + 1)%nat)
    /\ forall q' f, q' <> q -> m !! q' = Some f ->
         f.1.2 = score_add current_score mutate_penalty.
Proof.
  intros Hnd Hx Hw Hw2 (j & Hj & Hjlt).
  unfold next_match. cbv zeta. rewrite (proj2 (getitem_Ok _ _ _) Hx). cbn [bind].
  destruct (decide (x ∈ available)) as [_|Hnot];
    [|exfalso; apply Hnot; eapply list_elem_of_lookup_2; eauto].
  rewrite Hw.
  destruct w as [|[|[|w]]]; [| | |lia].
  - cbn [product01 for_each bind app step_bits].
    eexists _, 0%nat, _. split; [reflexivity|]. split; [reflexivity|].
    intros [|q'] f Hne Hq; [congruence | cbn in Hq; discriminate].
  - apply log2_one in Hw.
    destruct available as [|a0 [|a1 rest]]; cbn [length] in Hw; try lia.
    apply NoDup_cons in Hnd as [H0 _]. rewrite not_elem_of_cons in H0.
    destruct H0 as [H01 _].
    cbn [product01 map app for_each step_bits].
    set (h := hash_of _ _ _ mod 2).
    assert (Hh : h = 0 \/ h = 1)
      by (pose proof (Z.mod_pos_bound
                        (hash_of (Z.of_nat (vertex_bit_index self)
                                  mod 2 ^ Z.of_nat low_order_number)
                           (vertex_previous_value self) salt_value) 2 ltac:(lia));
          subst h; lia).
    clearbody h.
    assert (Hjc : j = 0%nat \/ j = 1%nat) by (cbn in Hjlt; lia).
    destruct Hh as [-> | ->], Hjc as [-> | ->];
      cbn [lookup list_lookup] in Hj; inversion Hj; subst x;
      closed_indices; cbn [getitem lookup list_lookup bind];
      repeat (destruct (decide _) as [?|?]; try congruence);
      cbn [bind app]; agreeing_position.
  - apply log2_two in Hw.
    destruct available as [|a0 [|a1 [|a2 [|a3 rest]]]]; cbn [length] in Hw; try lia.
    apply NoDup_cons in Hnd as [H0 Hnd]. apply NoDup_cons in Hnd as [H1 Hnd].
    apply NoDup_cons in Hnd as [H2 _].
    repeat rewrite not_elem_of_cons in H0.
    repeat rewrite not_elem_of_cons in H1.
    repeat rewrite not_elem_of_cons in H2.
    destruct H0 as (H01 & H02 & H03 & _), H1 as (H12 & H13 & _), H2 as (H23 & _).
    cbn [product01 map app for_each step_bits].
    set (h := hash_of _ _ _ mod 4).
    assert (Hh : h = 0 \/ h = 1 \/ h = 2 \/ h = 3)
      by (pose proof (Z.mod_pos_bound
                        (hash_of (Z.of_nat (vertex_bit_index self)
                                  mod 2 ^ Z.of_nat low_order_number)
                           (vertex_previous_value self) salt_value) 4 ltac:(lia));
          subst h; lia).
    clearbody h.
    assert (Hjc : j = 0%nat \/ j = 1%nat \/ j = 2%nat \/ j = 3%nat)
      by (cbn in Hjlt; lia).
    destruct Hh as [-> | [-> | [-> | ->]]], Hjc as [-> | [-> | [-> | ->]]];
      cbn [lookup list_lookup] in Hj; inversion Hj; subst x;
      closed_indices; cbn [getitem lookup list_lookup bind];
      repeat (destruct (decide _) as [?|?]; try congruence);
      cbn [bind app]; agreeing_position.
Qed.

Hypothesis mapping_NoDup : NoDup mapping.

(** What [next] returns for a vertex that stands on the received string
    before a codable nucleotide: one follower goes on along the string with
    the correct penalty, every other follower has one of the three other
    penalties. *)
Lemma next_head (previous_value : Z) (bit_index n : nat) (s : dna)
    (x : nucleotide) (salt_value : Z) (current_score : T) :
  dna_string !! n = Some x ->
  codable (collect s) x ->
  exists follow_v follow_s follow_i follow_l q previous_value',
    next_ (InfoVertex_init previous_value bit_index s) salt_value n current_score
    = Ok (follow_v, follow_s, follow_i, follow_l)
    /\ follow_v !! q
       = Some (InfoVertex_init previous_value'
                 (bit_index + step_bits (Nat.log2 (length (collect s))))
                 (s ++ [x]))
    /\ follow_s !! q = Some (score_add current_score correct_penalty)
    /\ follow_i !! q = Some (n + 1)%nat
    /\ (forall q' y, q' <> q -> follow_s !! q' = Some y ->
          y = score_add current_score mutate_penalty
          \/ y = score_add current_score insert_penalty
          \/ y = score_add current_score delete_penalty)
    /\ Forall (fun l => l = (bit_index
                             + step_bits (Nat.log2 (length (collect s))))%nat)
         follow_l
    /\ length follow_s = length follow_v
    /\ length follow_i = length follow_v
    /\ length follow_l = length follow_v.
Proof.
  intros Hx Hcod.
  set (self := InfoVertex_init previous_value bit_index s).
  set (available := collect s) in *.
  assert (Hn : (n < length dna_string)%nat) by (eapply lookup_lt_Some, Hx).
  assert (Hk : (length available <= 4)%nat)
    by (apply collect_length; assumption).
  assert (Hne : length available <> 0%nat).
  { destruct Hcod as (j & Hj & _). apply lookup_lt_Some in Hj. lia. }
  assert (Hw2 : (Nat.log2 (length available) <= 2)%nat).
  { destruct (length available) as [|[|[|[|[|k]]]]]; cbn; lia. }
  destruct (matched_head self salt_value n current_score available x
              (Nat.log2 (length available)))
    as (m & q & pv' & Hm & Hmq & Hmothers);
    [apply collect_NoDup; assumption | assumption | reflexivity | assumption
    | exact Hcod |].
  destruct (inserted_total previous_number low_order_number dna_string
              insert_penalty self salt_value n current_score available)
    as [i Hi].
  destruct (deleted_total previous_number low_order_number delete_penalty
              self salt_value n current_score available) as [d Hd].
  assert (Hnext : next_ self salt_value n current_score
                  = Ok (map (fun f : follow => f.1.1) (m ++ i ++ d),
                        map (fun f : follow => f.1.2) (m ++ i ++ d),
                        map (fun f : follow => f.2) (m ++ i ++ d),
                        map vertex_bit_index
                          (map (fun f : follow => f.1.1) (m ++ i ++ d)))).
  { unfold next.
    destruct (Z.gtb_spec (Z.of_nat n) (Z.of_nat (length dna_string) - 1)); [lia|].
    change (vertex_string self) with s. fold available.
    destruct (Nat.eqb_spec (length available) 0); [contradiction|].
    cbv zeta. rewrite Hm, Hi, Hd. reflexivity. }
  assert (Hq : (q < length m)%nat) by (eapply lookup_lt_Some, Hmq).
  destruct (next_shape _ _ _ _ _ _ _ _ _ _ _ _ _ _ _ _ _ Hnext)
    as (_ & Hshape & _).
  pose proof (lookup_app_l_Some m (i ++ d) q _ Hmq) as Hfq.
  do 4 eexists. exists q, pv'. split; [exact Hnext|].
  repeat split.
  - rewrite list_lookup_fmap, Hfq. reflexivity.
  - rewrite list_lookup_fmap, Hfq. reflexivity.
  - rewrite list_lookup_fmap, Hfq. reflexivity.
  - intros q' y Hne' Hy. rewrite list_lookup_fmap in Hy.
    destruct ((m ++ i ++ d) !! q') as [f|] eqn:Hf; [|discriminate].
    cbn in Hy. inversion Hy; subst y. clear Hy.
    destruct (decide (q' < length m)%nat) as [Hlt|Hge].
    + rewrite lookup_app_l in Hf by assumption.
      left. exact (Hmothers q' f Hne' Hf).
    + rewrite lookup_app_r in Hf by lia.
      apply list_elem_of_lookup_2, elem_of_app in Hf as [Hf|Hf].
      * destruct (inserted_follow _ _ _ _ _ _ _ _ _ _ _ Hi Hf) as (_ & -> & _).
        right. left. reflexivity.
      * destruct (deleted_follow _ _ _ _ _ _ _ _ _ _ Hd Hf) as (_ & -> & _).
        right. right. reflexivity.
  - apply Forall_fmap. eapply Forall_impl; [exact Hshape|].
    intros v (pv'' & y & _ & ->). reflexivity.
  - rewrite !length_map. reflexivity.
  - rewrite !length_map. reflexivity.
  - rewrite !length_map. reflexivity.
Qed.

(** *** The search along an undamaged string *)

Context {order : ScoreOrder T}.

Variable initial_score : T.

Local Abbreviation walk := (walk_score initial_score correct_penalty).

(** The received string is a string of the encoder: each of its
    nucleotides is codable after the ones before it, and the message bits
    are used up exactly at its end. *)
Hypothesis string_codable :
  forall n x, dna_string !! n = Some x ->
    codable (collect (take n dna_string)) x
    /\ (carried (take n dna_string) < bit_length)%nat.
Hypothesis arrival : carried dna_string = bit_length.

(** The scores keep their order along the string: no score of the walk is
    [nan], a score of the walk is below what an earlier score of the walk
    and an error penalty add up to, and below the score that retires a
    vertex. *)
Hypothesis walk_self :
  forall n, (n <= length dna_string)%nat ->
    score_eqb (walk n) (walk n) = true.
Hypothesis walk_lowest :
  forall n k, (n < k <= length dna_string)%nat ->
    score_ltb (walk k) (score_add (walk n) mutate_penalty) = true
    /\ score_ltb (walk k) (score_add (walk n) insert_penalty) = true
    /\ score_ltb (walk k) (score_add (walk n) delete_penalty) = true.
Hypothesis walk_retired :
  forall k, (1 <= k <= length dna_string)%nat ->
    score_ltb (walk k) (score_of_nat (length dna_string)) = true.

Local Abbreviation head :=
  (head_at bio_filter_valid mapping dna_string initial_score correct_penalty).

(** One iteration of [while True] from a heap whose head stands before the
    end of the received string: the search leaves on the heap limit, or the
    head moves one nucleotide on. *)
Lemma head_pass (heap : Heap T) (h n : nat) :
  head heap h n -> (n < length dna_string)%nat ->
  (exists heap',
     pass heap = Ok (inl heap') /\ heap_wf heap'
     /\ (heap_limitation < Z.of_nat (length (heap_v heap')))%Z)
  \/ (exists heap' h',
        pass heap = Ok (inr heap') /\ head heap' h' (n + 1)).
Proof.
  intros (Hwf & (pv & Hv) & Hi & Hs & Hothers & Hmax & Hl) Hn.
  destruct (lookup_lt_is_Some_2 dna_string n Hn) as [x Hx].
  destruct (string_codable n x Hx) as [Hcod Hlt].
  destruct (lowest_alone _ _ _ Hs (walk_self n ltac:(lia))
              (fun j y Hj Hy => Hothers j y Hj Hy n ltac:(lia)))
    as [Hmin Hwhere].
  destruct (next_head pv (carried (take n dna_string)) n (take n dna_string) x
              (strand_index mod 2 ^ Z.of_nat salt_number) (walk n) Hx Hcod)
    as (fv & fs & fi & fl & q & pv' & Hnext & Hfv & Hfs & Hfi & Hfothers
        & Hfl & Hls & Hli & Hll).
  destruct Hwf as (Hws & Hwi & Hwl & Hpos).
  assert (Hh : (h < length (heap_s heap))%nat) by (eapply lookup_lt_Some, Hs).
  set (retired :=
         {| heap_v := heap_v heap;
            heap_s := <[h := retired_score dna_string]> (heap_s heap);
            heap_i := heap_i heap; heap_l := heap_l heap |}).
  assert (Hpass :
            pass heap
            = if finished retired then Ok (inl retired)
              else Ok (inr {| heap_v := heap_v heap ++ fv;
                              heap_s := heap_s retired ++ fs;
                              heap_i := heap_i heap ++ fi;
                              heap_l := heap_l heap ++ fl |})).
  { unfold repair_pass. rewrite Hmin. cbn [bind]. rewrite Hwhere.
    change (getitem [h] 0%nat) with (@Ok nat h). cbn [bind].
    rewrite (proj2 (getitem_Ok _ _ _) Hs). cbn [bind].
    cbn [expand_chucks].
    rewrite (proj2 (getitem_Ok _ _ _) Hv), (proj2 (getitem_Ok _ _ _) Hi).
    cbn [bind].
    rewrite (proj2 (Nat.ltb_lt _ _) Hh). cbn [bind].
    rewrite Hnext. cbn [bind]. reflexivity. }
  assert (Hq : (q < length fv)%nat) by (eapply lookup_lt_Some, Hfv).
  destruct (finished retired) eqn:Hfin.
  - left. exists retired. split; [exact Hpass|].
    unfold search_finished in Hfin. cbn [heap_l heap_v retired] in Hfin.
    split.
    + unfold heap_wf, retired. cbn [heap_v heap_s heap_i heap_l].
      rewrite length_insert. tauto.
    + apply orb_true_iff in Hfin as [Hfin|Hfin].
      * apply Nat.eqb_eq in Hfin. unfold retired in Hfin. cbn in Hfin. lia.
      * unfold retired in *. cbn [heap_v] in *. lia.
  - right. eexists. exists (length (heap_v heap) + q)%nat.
    split; [exact Hpass|].
    assert (Htake : take (n + 1) dna_string = take n dna_string ++ [x])
      by (rewrite Nat.add_1_r; apply take_S_r; exact Hx).
    assert (Hwalk : walk (n + 1) = score_add (walk n) correct_penalty)
      by (rewrite Nat.add_1_r; reflexivity).
    unfold head_at, heap_wf. cbn [heap_v heap_s heap_i heap_l retired].
    rewrite Htake, carried_bits_snoc, Hwalk.
    rewrite !length_app, length_insert.
    repeat split; try lia.
    + exists pv'. rewrite lookup_app_r by lia.
      replace (length (heap_v heap) + q - length (heap_v heap))%nat with q by lia.
      exact Hfv.
    + rewrite lookup_app_r by lia.
      replace (length (heap_v heap) + q - length (heap_i heap))%nat with q by lia.
      exact Hfi.
    + rewrite lookup_app_r by (rewrite length_insert; lia).
      rewrite length_insert.
      replace (length (heap_v heap) + q - length (heap_s heap))%nat with q by lia.
      exact Hfs.
    + intros j y Hj Hy k Hk.
      destruct (decide (j < length (heap_s heap))%nat) as [Hlt'|Hge].
      * rewrite lookup_app_l in Hy by (rewrite length_insert; assumption).
        destruct (decide (j = h)) as [->|Hjh].
        -- rewrite list_lookup_insert_eq in Hy by assumption.
           inversion Hy; subst y. apply walk_retired. lia.
        -- rewrite list_lookup_insert_ne in Hy by congruence.
           apply (Hothers j y Hjh Hy). lia.
      * rewrite lookup_app_r in Hy by (rewrite length_insert; lia).
        rewrite length_insert in Hy.
        destruct (walk_lowest n k ltac:(lia)) as (Hm & Hi' & Hd).
        destruct (Hfothers (j - length (heap_s heap))%nat y ltac:(lia) Hy)
          as [-> | [-> | ->]]; assumption.
    + rewrite max_list_app, Hmax.
      rewrite (max_list_const fl
                 (carried (take n dna_string)
                  + step_bits (Nat.log2 (length (collect (take n dna_string)))))).
      * lia.
      * destruct fl; [cbn in Hll; lia | discriminate].
      * exact Hfl.
    + rewrite lookup_app_r by lia.
      replace (length (heap_v heap) + q - length (heap_l heap))%nat with q by lia.
      destruct (lookup_lt_is_Some_2 fl q ltac:(lia)) as [l Hlq].
      rewrite Forall_lookup in Hfl. rewrite Hlq, (Hfl q l Hlq). reflexivity.
Qed.

(** The iteration of [while True] that finds the head at the end of the
    received string ends the search, with the string at the bit length. *)
Lemma head_final (heap : Heap T) (h : nat) :
  head heap h (length dna_string) ->
  exists heap',
    pass heap = Ok (inl heap') /\ heap_wf heap'
    /\ exists t vertex,
         heap_l heap' !! t = Some bit_length
         /\ heap_v heap' !! t = Some vertex
         /\ vertex_string vertex = dna_string.
Proof.
  intros (Hwf & (pv & Hv) & Hi & Hs & Hothers & Hmax & Hl).
  rewrite take_ge in Hv, Hmax, Hl by lia. rewrite arrival in Hv, Hmax, Hl.
  destruct (lowest_alone _ _ _ Hs (walk_self (length dna_string) ltac:(lia))
              (fun j y Hj Hy =>
                 Hothers j y Hj Hy (length dna_string) ltac:(lia)))
    as [Hmin Hwhere].
  destruct (next_total bio_filter_valid mapping previous_number
              low_order_number dna_string correct_penalty insert_penalty
              delete_penalty mutate_penalty
              (InfoVertex_init pv bit_length dna_string)
              (strand_index mod 2 ^ Z.of_nat salt_number)
              (length dna_string) (walk (length dna_string))) as [info Hnext].
  destruct Hwf as (Hws & Hwi & Hwl & Hpos).
  assert (Hh : (h < length (heap_s heap))%nat) by (eapply lookup_lt_Some, Hs).
  set (retired :=
         {| heap_v := heap_v heap;
            heap_s := <[h := retired_score dna_string]> (heap_s heap);
            heap_i := heap_i heap; heap_l := heap_l heap |}).
  exists retired. split; [|split].
  - unfold repair_pass. rewrite Hmin. cbn [bind]. rewrite Hwhere.
    change (getitem [h] 0%nat) with (@Ok nat h). cbn [bind].
    rewrite (proj2 (getitem_Ok _ _ _) Hs). cbn [bind].
    cbn [expand_chucks].
    rewrite (proj2 (getitem_Ok _ _ _) Hv), (proj2 (getitem_Ok _ _ _) Hi).
    cbn [bind].
    rewrite (proj2 (Nat.ltb_lt _ _) Hh). cbn [bind].
    rewrite Hnext. cbn [bind].
    unfold search_finished. cbn [heap_l heap_v].
    rewrite Hmax, Nat.eqb_refl. reflexivity.
  - unfold heap_wf, retired. cbn [heap_v heap_s heap_i heap_l].
    rewrite length_insert. tauto.
  - exists h, (InfoVertex_init pv bit_length dna_string).
    repeat split; assumption.
Qed.

(** The search along the received string: with one unit of fuel for each
    nucleotide left and one more, the loop ends on the heap limit or with
    the received string at the bit length. *)
Lemma head_loop (k : nat) :
  forall (heap : Heap T) (h n : nat),
    head heap h n -> (n + k)%nat = length dna_string ->
    exists heap',
      loop (S k) heap = Ok heap' /\ heap_wf heap'
      /\ ((heap_limitation < Z.of_nat (length (heap_v heap')))%Z
          \/ exists t vertex,
               heap_l heap' !! t = Some bit_length
               /\ heap_v heap' !! t = Some vertex
               /\ vertex_string vertex = dna_string).
Proof.
  induction k as [|k IH]; intros heap h n Hhead Hk.
  - replace n with (length dna_string) in Hhead by lia.
    destruct (head_final heap h Hhead) as (heap' & Hpass & Hwf & Hfound).
    exists heap'. cbn [repair_loop]. rewrite Hpass. cbn [bind]. auto.
  - destruct (head_pass heap h n Hhead ltac:(lia))
      as [(heap' & Hpass & Hwf & Hlimit) | (heap' & h' & Hpass & Hhead')].
    + exists heap'. cbn [repair_loop]. rewrite Hpass. cbn [bind]. auto.
    + destruct (IH heap' h' (n + 1)%nat Hhead' ltac:(lia))
        as (heap'' & Hloop & Hrest).
      exists heap''. split; [|exact Hrest].
      change (loop (S (S k)) heap)
        with (bind (pass heap)
                (fun outcome => match outcome with
                                | inl heap => Ok heap
                                | inr heap => loop (S k) heap
                                end)).
      rewrite Hpass. cbn [bind]. exact Hloop.
Qed.

End Agreement.

(** ** The length of what the decoder returns *)

Section DecoderLength.

Variable bio_filter_valid : dna -> bool -> bool.
Variable mapping : list nucleotide.
Variables salt_number previous_number low_order_number : nat.
Variable strand_index : Z.

Local Abbreviation collect := (collect_available bio_filter_valid mapping).
Local Abbreviation dec_symbol :=
  (decode_symbol salt_number previous_number low_order_number strand_index).
Local Abbreviation dec_loop :=
  (decode_loop bio_filter_valid mapping salt_number previous_number
     low_order_number strand_index).
Local Abbreviation dec_hash :=
  (decoder_hash salt_number previous_number low_order_number strand_index).

Hypothesis mapping_NoDup : NoDup mapping.

(** The search of the decoder among four nucleotides finds each of them. *)
Lemma quad_found (available : list nucleotide) (hash_value : Z)
    (nucleotide : nucleotide) :
  NoDup available -> length available = 4%nat ->
  0 <= hash_value < 4 -> nucleotide ∈ available ->
  exists bit_value,
    decode_search available hash_value nucleotide [0; 1; 2; 3]
    = Ok (Some bit_value).
Proof.
  intros Hnd Hlen Hh Hx.
  apply list_elem_of_lookup_1 in Hx as [j Hj].
  assert (Hlt : (j < 4)%nat) by (apply lookup_lt_Some in Hj; lia).
  exists ((Z.of_nat j - hash_value) mod 4).
  apply quad_search; [assumption | lia | assumption
                     | apply Z.mod_pos_bound; lia |].
  rewrite Zplus_mod_idemp_r.
  replace (hash_value + (Z.of_nat j - hash_value)) with (Z.of_nat j) by lia.
  rewrite Z.mod_small, Nat2Z.id by lia. exact Hj.
Qed.

(** One nucleotide gives the decoder the bits that the number of available
    nucleotides carries, or one bit where two would pass the bit length. *)
Lemma dec_symbol_length (bit_length : nat) (available : list nucleotide)
    (binary_message : list Z) (nucleotide : nucleotide) (extended : list Z) :
  NoDup available -> (length available <= 4)%nat ->
  nucleotide ∈ available ->
  dec_symbol bit_length available binary_message nucleotide = Ok extended ->
  length extended
  = (length binary_message + step_bits (Nat.log2 (length available)))%nat
  \/ (length extended = (length binary_message + 1)%nat
      /\ (bit_length < length binary_message + 2)%nat
      /\ step_bits (Nat.log2 (length available)) = 2%nat).
Proof.
  intros Hnd Hlen Hx. rewrite dec_symbol_unfold.
  pose proof (Z.mod_pos_bound (dec_hash binary_message) 4 ltac:(lia)) as Hh4.
  destruct available as [|a0 [|a1 [|a2 [|a3 [|a4 rest]]]]];
    cbn [length] in *; try lia; intros H.
  - inversion Hx.
  - inversion H; subst. left. cbn. lia.
  - cbv zeta in H. inv_bind H.
    destruct (decide (x = nucleotide)); inversion H; subst;
      rewrite length_app; left; reflexivity.
  - cbv zeta in H. inv_bind H.
    destruct (decide (x = nucleotide)); inversion H; subst;
      rewrite length_app; left; reflexivity.
  - cbv zeta in H.
    destruct (quad_found [a0; a1; a2; a3] (dec_hash binary_message mod 4)
                nucleotide Hnd eq_refl Hh4 Hx) as [bit_value Hfound].
    rewrite Hfound in H. cbn [bind] in H.
    destruct (Nat.ltb_spec bit_length (length binary_message + 2));
      inversion H; subst; rewrite length_app; cbn [length].
    + right. split; [lia|]. split; [assumption | reflexivity].
    + left. reflexivity.
Qed.

(** The decoder on a readable string: the bits decoded so far and the bits
    the rest of the string carries, cut at the bit length. *)
Lemma dec_loop_length (encoded : dna) (bit_length : nat) (rest : dna) :
  forall (nucleotide_index : nat) (binary_message : list Z)
         (available : list nucleotide) (decoded : list Z),
    readable bio_filter_valid mapping encoded ->
    drop nucleotide_index encoded = rest ->
    available = collect (take nucleotide_index encoded) ->
    dec_loop encoded bit_length nucleotide_index rest binary_message available
    = Ok decoded ->
    length decoded
    = Nat.min bit_length
        (length binary_message
         + carried_from bio_filter_valid mapping
             (take nucleotide_index encoded) rest).
Proof.
  induction rest as [|x rest IH];
    intros nucleotide_index binary_message available decoded Hread Hdrop
      Havailable H; cbn [decode_loop] in H.
  - inversion H; subst. rewrite length_take. cbn [carried_from]. lia.
  - inv_bind H. rename x0 into extended.
    destruct (Nat.eqb_spec
                (length (collect (take (nucleotide_index + 1) encoded))) 0);
      [discriminate|].
    assert (Hx' : encoded !! nucleotide_index = Some x).
    { pose proof (lookup_drop encoded nucleotide_index 0) as Hd.
      rewrite Nat.add_0_r in Hd.
      etransitivity; [symmetry; exact Hd|]. rewrite Hdrop. reflexivity. }
    assert (Htake : take (nucleotide_index + 1) encoded
                    = take nucleotide_index encoded ++ [x])
      by (rewrite Nat.add_1_r; apply take_S_r; exact Hx').
    assert (Hrest : drop (nucleotide_index + 1) encoded = rest).
    { rewrite (drop_S _ _ _ Hx') in Hdrop. rewrite Nat.add_1_r. congruence. }
    rewrite (IH _ _ _ _ Hread Hrest eq_refl H).
    cbn [carried_from]. rewrite Htake. subst available.
    destruct (dec_symbol_length bit_length _ _ _ _
                (collect_NoDup bio_filter_valid mapping _ mapping_NoDup)
                (collect_length bio_filter_valid mapping mapping_NoDup _)
                (Hread _ _ Hx') Hx)
      as [Hlen | (Hlen & Hlast & Hstep)]; lia.
Qed.

End DecoderLength.

(** * The claims of the specification *)

Lemma acgt_NoDup : NoDup acgt.
Proof.
  unfold acgt.
  repeat (apply NoDup_cons; split;
          [intros H; repeat (apply elem_of_cons in H as [H|H]; [discriminate|]);
           inversion H|]).
  apply NoDup_nil_2.
Qed.

(** ** C1: round trip *)

(** C1.  For every message of bits, strand index, mapping (four distinct
    nucleotides, here only required to hold no nucleotide twice), oracle
    and widths of the three registers that fit a 64-bit word (63 bits each
    at most) such that [encode] succeeds, decoding the encoded string with
    the same parameters and [bit_length = |bits|] returns the message, bit
    for bit; this covers the last nucleotide carrying a single bit. *)
Theorem C1_roundtrip (bio_filter_valid : dna -> bool -> bool)
    (mapping : list nucleotide)
    (salt_number previous_number low_order_number : nat) (strand_index : Z)
    (bits : list Z) (fuel : nat) (encoded : dna) :
  widths_fit salt_number previous_number low_order_number ->
  NoDup mapping ->
  Forall is_bit bits ->
  encode bio_filter_valid mapping salt_number previous_number low_order_number
    strand_index bits fuel = Ok encoded ->
  decode bio_filter_valid mapping salt_number previous_number low_order_number
    strand_index encoded (length bits) = Ok bits.
Proof.
  intros _ Hmap Hbits He. unfold encode in He. unfold decode.
  exact (roundtrip_loop _ _ _ _ _ _ _ _ _ [] mapping 0%nat Hmap Hbits Hmap He).
Qed.

Lemma C1_roundtrip_witness :
  (encode no_repeat acgt 46 8 10 7 [1; 0; 1; 1; 0] 10 = Ok [T; A; C; G]
   /\ decode no_repeat acgt 46 8 10 7 [T; A; C; G] 5 = Ok [1; 0; 1; 1; 0])
  /\ (encode accept_all acgt 46 8 10 0 [0; 1; 1] 10 = Ok [A; C]
      /\ decode accept_all acgt 46 8 10 0 [A; C] 3 = Ok [0; 1; 1]).
Proof.
  split; (split; [vm_compute; reflexivity|]).
  - apply (C1_roundtrip no_repeat acgt 46 8 10 7 [1; 0; 1; 1; 0] 10 [T; A; C; G]).
    + unfold widths_fit. lia.
    + exact acgt_NoDup.
    + repeat constructor; unfold is_bit; lia.
    + vm_compute. reflexivity.
  - apply (C1_roundtrip accept_all acgt 46 8 10 0 [0; 1; 1] 10 [A; C]).
    + unfold widths_fit. lia.
    + exact acgt_NoDup.
    + repeat constructor; unfold is_bit; lia.
    + vm_compute. reflexivity.
Defined.

(** ** C9: length bound *)

(** C9.  When [encode] succeeds the encoded string has at least
    [ceil(|bits| / 2)] nucleotides; when moreover four nucleotides are
    available at every position of the encoded string (the mapping at
    position 0, the nucleotides the oracle accepts after each proper
    non-empty prefix), it has at most [|bits|] nucleotides. *)
Theorem C9_length_bound (bio_filter_valid : dna -> bool -> bool)
    (mapping : list nucleotide)
    (salt_number previous_number low_order_number : nat) (strand_index : Z)
    (bits : list Z) (fuel : nat) (encoded : dna) :
  encode bio_filter_valid mapping salt_number previous_number low_order_number
    strand_index bits fuel = Ok encoded ->
  ((length bits + 1) / 2 <= length encoded)%nat
  /\ (length mapping = 4%nat ->
      (forall n, (0 < n < length encoded)%nat ->
         length (collect_available bio_filter_valid mapping (take n encoded)) = 4%nat) ->
      (length encoded <= length bits)%nat).
Proof.
  intros He. unfold encode in He. split.
  - pose proof (enc_loop_lower _ _ _ _ _ _ _ _ _ _ _ _ (Nat.le_0_l _) He) as H.
    assert (Hlt : ((length bits + 1) / 2 < length encoded + 1)%nat)
      by (apply Nat.Div0.div_lt_upper_bound; lia).
    lia.
  - intros Hmap Hfour.
    assert (H : (2 * length encoded <= length bits + 1)%nat).
    { apply (enc_loop_upper bio_filter_valid mapping salt_number previous_number
               low_order_number strand_index bits encoded fuel [] mapping 0%nat
               Hfour (fun _ => Hmap) eq_refl); [lia | exact He]. }
    lia.
Qed.

Lemma C9_length_bound_witness :
  ((length [0; 1; 1] + 1) / 2 <= length [A; C])%nat
  /\ (length [A; C] <= length [0; 1; 1])%nat.
Proof.
  destruct (C9_length_bound accept_all acgt 46 8 10 0 [0; 1; 1] 10 [A; C])
    as [Hlow Hup].
  - vm_compute. reflexivity.
  - split; [exact Hlow|]. apply Hup.
    + reflexivity.
    + intros n Hn. reflexivity.
Defined.

(** ** C3: hash mixer *)

(** C3 (counterexample).  The scrambler with the constants printed in the
    specification is not what [hash_function] computes, whichever way its
    right shifts are read. *)
Lemma C3_counterexample :
  u64 (hash_function 1) <> scrambler shr_arith spec_mul1 spec_add1 spec_mul2 1
  /\ u64 (hash_function 1) <> scrambler shr_logical spec_mul1 spec_add1 spec_mul2 1.
Proof. split; vm_compute; discriminate. Qed.

(** With the constants of the code the reading of the right shifts
    matters: zero-filling shifts give another value at input 3. *)
Remark hash_function_shifts_are_arithmetic :
  u64 (hash_function 3)
  <> scrambler shr_logical code_mul1 code_add1 code_mul2 3.
Proof. vm_compute. discriminate. Qed.

(** C3 (amended).  For every input in the range of a signed 64-bit
    integer (numpy accepts no other) [hash_function] computes the 64-bit
    scrambler of the two's complement word of its input: multiply by
    0x369DEA0F31A53F85, add 0x255992D382208B61, XOR with [y >> 21],
    [y << 37], [y >> 4], multiply by 0x422E19E1D95D2F0D, XOR with
    [y << 20], [y >> 41], [y << 5], where multiplications, additions and
    left shifts are modulo 2^64 and right shifts are arithmetic shifts of
    the two's complement value; the result is a signed 64-bit integer, and
    on the input 1 it is -4708141047728140669 (the word
    13738603025981410947). *)
Theorem C3_hash_function_scrambler (source_value : Z) :
  int64 source_value ->
  u64 (hash_function source_value)
  = scrambler shr_arith 0x369DEA0F31A53F85 0x255992D382208B61 0x422E19E1D95D2F0D
      (u64 source_value)
  /\ - 2 ^ 63 <= hash_function source_value < 2 ^ 63
  /\ hash_function 1 = -4708141047728140669
  /\ u64 (hash_function 1) = 13738603025981410947.
Proof.
  intros _.
  split; [exact (hash_function_scrambler source_value)|].
  split; [exact (hash_function_int64 source_value)|].
  split; vm_compute; reflexivity.
Qed.

Lemma C3_hash_function_scrambler_witness :
  u64 (hash_function (-3))
  = scrambler shr_arith 0x369DEA0F31A53F85 0x255992D382208B61 0x422E19E1D95D2F0D
      (u64 (-3))
  /\ - 2 ^ 63 <= hash_function (-3) < 2 ^ 63
  /\ hash_function 1 = -4708141047728140669
  /\ u64 (hash_function 1) = 13738603025981410947.
Proof.
  apply (C3_hash_function_scrambler (-3)). unfold int64. lia.
Defined.

(** ** C2: constraint safety *)

(** C2 (counterexample).  The first nucleotide is taken from the mapping
    without asking the oracle: the encoder returns a string whose first
    prefix is rejected. *)
Lemma C2_counterexample :
  encode reject_singletons acgt 46 8 10 0 [0; 1] 5 = Ok [A]
  /\ reject_singletons (take 1 [A]) true = false.
Proof. split; vm_compute; reflexivity. Qed.

(** C2 (amended).  Every nucleotide [encode] appends after the first one
    (in the string it returns, and at each emission from the nucleotides
    collected for a string), and every nucleotide [repair] appends to the
    string of a vertex, gives a prefix the oracle accepts with
    [only_last = true]; the first nucleotide
    of [encode] is taken from the full mapping before any oracle query, so
    nothing is promised about the prefix of length one; and when no
    nucleotide is available after an emission the encoder raises instead of
    going on. *)
Theorem C2_constraint_safety (bio_filter_valid : dna -> bool -> bool)
    (mapping : list nucleotide)
    (salt_number previous_number low_order_number : nat) (strand_index : Z) :
  (forall (bits : list Z) (fuel : nat) (encoded : dna),
      encode bio_filter_valid mapping salt_number previous_number
        low_order_number strand_index bits fuel = Ok encoded ->
      forall n, (2 <= n <= length encoded)%nat ->
                bio_filter_valid (take n encoded) true = true)
  /\ (forall (bits : list Z) (dna_string : dna) (bit_location : nat)
        (nucleotide : nucleotide) (bit_location' : nat),
        encode_emit salt_number previous_number low_order_number strand_index
          bits (collect_available bio_filter_valid mapping dna_string)
          bit_location = Ok (nucleotide, bit_location') ->
        bio_filter_valid (dna_string ++ [nucleotide]) true = true)
  /\ (forall (bits : list Z) (fuel : nat) (dna_string : dna)
        (available : list nucleotide) (bit_location : nat)
        (nucleotide : nucleotide) (bit_location' : nat),
        (bit_location < length bits)%nat ->
        encode_emit salt_number previous_number low_order_number strand_index
          bits available bit_location = Ok (nucleotide, bit_location') ->
        collect_available bio_filter_valid mapping (dna_string ++ [nucleotide]) = [] ->
        encode_loop bio_filter_valid mapping salt_number previous_number
          low_order_number strand_index bits (S fuel) dna_string available
          bit_location = Raise (CannotBeEncoded strand_index))
  /\ (forall (dna_string : dna)
        (correct_penalty insert_penalty delete_penalty mutate_penalty : Q)
        (self : InfoVertex) (salt_value : Z) (nucleotide_index : nat)
        (current_score : Q) (follow_v : list InfoVertex) (follow_s : list Q)
        (follow_i follow_l : list nat) (vertex : InfoVertex),
        next bio_filter_valid mapping previous_number low_order_number dna_string
          correct_penalty insert_penalty delete_penalty mutate_penalty
          self salt_value nucleotide_index current_score
        = Ok (follow_v, follow_s, follow_i, follow_l) ->
        vertex ∈ follow_v ->
        exists nucleotide,
          vertex_string vertex = vertex_string self ++ [nucleotide]
          /\ bio_filter_valid (vertex_string self ++ [nucleotide]) true = true).
Proof.
  split; [|split; [|split]].
  - intros bits fuel encoded He. unfold encode in He.
    eapply enc_loop_valid; [| |exact He].
    + intros Hne. congruence.
    + cbn [length]. intros n Hn. lia.
  - intros bits dna_string bit_location nucleotide bit_location' He.
    apply emit_elem in He. apply collect_elem in He as [He _]. exact He.
  - intros bits fuel dna_string available bit_location nucleotide bit_location'
      Hlt He Hnone.
    cbn [encode_loop].
    destruct (Nat.ltb_spec bit_location (length bits)); [|lia].
    rewrite He. cbn [bind]. rewrite Hnone. reflexivity.
  - intros. eapply next_extends; eassumption.
Qed.

Lemma C2_constraint_safety_witness :
  no_repeat (take 3 [T; A; C; G]) true = true
  /\ (exists nucleotide,
         [A; T] = [A] ++ [nucleotide] /\ no_repeat ([A] ++ [nucleotide]) true = true).
Proof.
  destruct (C2_constraint_safety no_repeat acgt 46 8 10 7)
    as (Henc & _ & _ & Hrep).
  split.
  - apply (Henc [1; 0; 1; 1; 0] 10%nat [T; A; C; G]).
    + vm_compute. reflexivity.
    + cbn. lia.
  - apply (Hrep [A; T] default_correct_penalty default_insert_penalty
             default_delete_penalty default_mutate_penalty
             (InfoVertex_init 0 1 [A]) 7 1%nat 0%Q
             [InfoVertex_init 0 2 [A; T]; InfoVertex_init 1 2 [A; T];
              InfoVertex_init 0 2 [A; G]; InfoVertex_init 1 2 [A; C]]
             [(0 + 1)%Q; (0 + 1)%Q; (0 + 1)%Q; (0 + 1)%Q]
             [2; 2; 1; 1]%nat [2; 2; 2; 2]%nat (InfoVertex_init 0 2 [A; T])).
    + vm_compute. reflexivity.
    + left.
Defined.

(** ** C7: when the decoder fails *)

(** C7 (counterexample).  The availability check is also made after the
    last nucleotide: the decoder consumes the whole string, no intermediate
    prefix blocks it, and it still raises. *)
Lemma C7_counterexample :
  (forall n, (1 <= n < length [A; C])%nat ->
             collect_available reject_longer acgt (take n [A; C]) <> [])
  /\ decode reject_longer acgt 46 8 10 0 [A; C] 4 = Raise (ContainsErrors 0).
Proof.
  split; [|vm_compute; reflexivity].
  intros n Hn. cbn [length] in Hn. assert (n = 1%nat) as -> by lia.
  vm_compute. discriminate.
Qed.

(** C7 (amended).  With a non-empty mapping and registers that fit a
    64-bit word (63 bits each at most), [decode] raises its [ValueError]
    exactly when the nucleotides available after some non-empty prefix of
    the input, the whole input included, are none; otherwise it returns.
    The check made after the final nucleotide can therefore fail the
    decoding. *)
Theorem C7_decode_failure (bio_filter_valid : dna -> bool -> bool)
    (mapping : list nucleotide)
    (salt_number previous_number low_order_number : nat) (strand_index : Z)
    (dna_string : dna) (bit_length : nat) :
  widths_fit salt_number previous_number low_order_number ->
  mapping <> [] ->
  ((exists n, (1 <= n <= length dna_string)%nat
              /\ collect_available bio_filter_valid mapping (take n dna_string) = []) ->
   decode bio_filter_valid mapping salt_number previous_number low_order_number
     strand_index dna_string bit_length = Raise (ContainsErrors strand_index))
  /\ ((forall n, (1 <= n <= length dna_string)%nat ->
         collect_available bio_filter_valid mapping (take n dna_string) <> []) ->
      exists bits,
        decode bio_filter_valid mapping salt_number previous_number
          low_order_number strand_index dna_string bit_length = Ok bits).
Proof.
  intros _ Hmap. unfold decode. split.
  - intros (n & Hn & Hnone). apply dec_loop_raises; [assumption|].
    exists n. split; [lia | assumption].
  - intros Hall. apply dec_loop_returns; [assumption|].
    intros n Hn. apply Hall. lia.
Qed.

Lemma C7_decode_failure_witness :
  decode reject_longer acgt 46 8 10 0 [A; C] 4 = Raise (ContainsErrors 0)
  /\ exists bits, decode accept_all acgt 46 8 10 0 [A; C] 3 = Ok bits.
Proof.
  split.
  - apply (C7_decode_failure reject_longer acgt 46 8 10 0 [A; C] 4).
    + unfold widths_fit. lia.
    + discriminate.
    + exists 2%nat. split; [cbn; lia | vm_compute; reflexivity].
  - apply (C7_decode_failure accept_all acgt 46 8 10 0 [A; C] 3).
    + unfold widths_fit. lia.
    + discriminate.
    + intros n Hn. vm_compute. discriminate.
Defined.

(** ** C10: nothing follows a vertex that consumed the received string *)

(** C10.  For every vertex whose index into the received string is at
    least its length, [next] returns no followed vertex of any kind, so no
    deletion hypothesis either. *)
Theorem C10_consumed_no_followers (bio_filter_valid : dna -> bool -> bool)
    (mapping : list nucleotide) (previous_number low_order_number : nat)
    (dna_string : dna)
    (correct_penalty insert_penalty delete_penalty mutate_penalty : Q)
    (self : InfoVertex) (salt_value : Z) (nucleotide_index : nat)
    (current_score : Q) :
  (length dna_string <= nucleotide_index)%nat ->
  next bio_filter_valid mapping previous_number low_order_number dna_string
    correct_penalty insert_penalty delete_penalty mutate_penalty
    self salt_value nucleotide_index current_score
  = Ok ([], [], [], []).
Proof. apply next_consumed. Qed.

Lemma C10_consumed_no_followers_witness :
  next accept_all acgt 8 10 [A] default_correct_penalty default_insert_penalty
    default_delete_penalty default_mutate_penalty
    (InfoVertex_init 1 2 [A]) 0 1 (-0.035)%Q
  = Ok ([], [], [], []).
Proof.
  apply (C10_consumed_no_followers accept_all acgt 8 10 [A]). cbn. lia.
Defined.

(** ** C6: scores along the edges *)


(** The float -0.035 is -5044031582654956 / 2^57, and a sum of floats is
    rounded: from 2^48 + 1 the correct penalty takes 0.0625, and from 10^16
    it takes nothing, as the penalty 1.0 adds nothing. *)
Remark float_sums_are_rounded :
  float_correct_penalty = S754_finite true 5044031582654956 (-57)
  /\ score_add (float_of_Z (2 ^ 48 + 1)) float_correct_penalty
     = SFsub 53 1024 (float_of_Z (2 ^ 48 + 1))
         (SFdiv 53 1024 (float_of_Z 1) (float_of_Z 16))
  /\ score_add (float_of_Z (10 ^ 16)) float_correct_penalty = float_of_Z (10 ^ 16)
  /\ score_add (float_of_Z (10 ^ 16)) float_mutate_penalty = float_of_Z (10 ^ 16).
Proof. repeat split; vm_compute; reflexivity. Qed.



(** ** C4: the test that ends the search *)

(** C4 (counterexample).  After the first iteration on the received string
    [A] with target bit length 1 (default penalties, initial score 0) the
    largest bit index of the heap is 2, past the target, no entry stands at
    1, and the next iteration does not end the search. *)
Lemma C4_counterexample :
  repair_pass accept_all acgt 46 8 10 0 [A] 1 1000 float_correct_penalty
    float_insert_penalty float_delete_penalty float_mutate_penalty
    (initial_heap (float_of_Z 0))
  = Ok (inr overshoot_heap)
  /\ (1 <= max_list (heap_l overshoot_heap))%nat
  /\ (forall t, heap_l overshoot_heap !! t <> Some 1%nat)
  /\ exists heap,
       repair_pass accept_all acgt 46 8 10 0 [A] 1 1000 float_correct_penalty
         float_insert_penalty float_delete_penalty float_mutate_penalty
         overshoot_heap
       = Ok (inr heap).
Proof.
  split; [vm_compute; reflexivity|].
  split; [vm_compute; lia|].
  split.
  - intros t. unfold overshoot_heap. cbn [heap_l].
    do 9 (destruct t as [|t]; [discriminate|]). discriminate.
  - eexists. vm_compute. reflexivity.
Qed.

(** C4 (amended).  In every state of the search in which the largest bit
    index of the heap equals the target bit length, or the heap holds more
    than [heap_limitation] vertices, the iteration ends the search at the
    first vertex it visits, and the strings it returns are exactly the
    strings of the heap entries whose bit index equals the target, provided
    no score of the heap is [nan] (each equals itself).  A heap whose
    largest bit index is past the target does not end the search by itself:
    from then on the search only ends once the heap holds more than
    [heap_limitation] vertices.  The states of the search are the heaps
    with four parallel non-empty lists ([heap_wf]) whose vertices hold
    previous bits that fit their register: the initial heap is one, and an
    iteration that goes on leaves one.  The registers are 63 bits wide at
    most, and the scores are numbers of any kind. *)
Theorem C4_search_end {T : Type} {score_ops : Score T}
    (bio_filter_valid : dna -> bool -> bool)
    (mapping : list nucleotide)
    (salt_number previous_number low_order_number : nat) (strand_index : Z)
    (dna_string : dna) (bit_length : nat) (heap_limitation : Z)
    (correct_penalty insert_penalty delete_penalty mutate_penalty : T)
    (heap : Heap T) :
  widths_fit salt_number previous_number low_order_number ->
  heap_wf heap ->
  Forall (vertex_fits previous_number) (heap_v heap) ->
  ((bit_length = max_list (heap_l heap)
    \/ heap_limitation < Z.of_nat (length (heap_v heap))) ->
   Forall (fun score => score_eqb score score = true) (heap_s heap) ->
   exists scores results,
     repair_pass bio_filter_valid mapping salt_number previous_number
       low_order_number strand_index dna_string bit_length heap_limitation
       correct_penalty insert_penalty delete_penalty mutate_penalty heap
     = Ok (inl {| heap_v := heap_v heap; heap_s := scores;
                  heap_i := heap_i heap; heap_l := heap_l heap |})
     /\ terminal_strings bit_length
          {| heap_v := heap_v heap; heap_s := scores;
             heap_i := heap_i heap; heap_l := heap_l heap |}
        = Ok results
     /\ forall s, s ∈ results <->
          exists t vertex,
            heap_l heap !! t = Some bit_length
            /\ heap_v heap !! t = Some vertex
            /\ vertex_string vertex = s)
  /\ ((bit_length < max_list (heap_l heap))%nat ->
      forall heap',
        repair_pass bio_filter_valid mapping salt_number previous_number
          low_order_number strand_index dna_string bit_length heap_limitation
          correct_penalty insert_penalty delete_penalty mutate_penalty heap
        = Ok (inl heap') ->
        heap_limitation < Z.of_nat (length (heap_v heap')))
  /\ (forall heap',
        repair_pass bio_filter_valid mapping salt_number previous_number
          low_order_number strand_index dna_string bit_length heap_limitation
          correct_penalty insert_penalty delete_penalty mutate_penalty heap
        = Ok (inr heap') ->
        heap_wf heap' /\ Forall (vertex_fits previous_number) (heap_v heap')).
Proof.
  intros _ Hwf Hfits. split; [|split].
  - intros Hend Hself.
    assert (Hfin : search_finished bit_length heap_limitation heap = true).
    { unfold search_finished. apply orb_true_iff.
      destruct Hend as [-> | Hlim]; [left; apply Nat.eqb_refl | right].
      apply Z.gtb_lt. exact Hlim. }
    destruct (pass_finished bio_filter_valid mapping salt_number previous_number
                low_order_number strand_index dna_string bit_length
                heap_limitation correct_penalty insert_penalty delete_penalty
                mutate_penalty heap Hwf Hself Hfin) as [scores Hpass].
    destruct (pass_outcome _ _ _ _ _ _ _ _ _ _ _ _ _ _ _ Hwf Hpass)
      as (Hwf' & _ & _).
    destruct (terminal_strings_wf bit_length _ Hwf') as (results & Hres & Hiff).
    exists scores, results. auto.
  - intros Hpast heap' Hpass.
    destruct (pass_outcome _ _ _ _ _ _ _ _ _ _ _ _ _ _ _ Hwf Hpass)
      as (_ & (_ & Hmax) & Hfin).
    unfold search_finished in Hfin. apply orb_true_iff in Hfin as [Heq | Hlim].
    + apply Nat.eqb_eq in Heq. lia.
    + apply Z.gtb_lt in Hlim. exact Hlim.
  - intros heap' Hpass. split.
    + apply (pass_outcome _ _ _ _ _ _ _ _ _ _ _ _ _ _ _ Hwf Hpass).
    + apply (pass_fits _ _ _ _ _ _ _ _ _ _ _ _ _ _ _ Hfits Hpass).
Qed.

Lemma C4_search_end_witness :
  exists scores results,
    repair_pass accept_all acgt 46 8 10 0 [A] 2 1000 float_correct_penalty
      float_insert_penalty float_delete_penalty float_mutate_penalty
      overshoot_heap
    = Ok (inl {| heap_v := heap_v overshoot_heap; heap_s := scores;
                 heap_i := heap_i overshoot_heap; heap_l := heap_l overshoot_heap |})
    /\ terminal_strings 2
         {| heap_v := heap_v overshoot_heap; heap_s := scores;
            heap_i := heap_i overshoot_heap; heap_l := heap_l overshoot_heap |}
       = Ok results
    /\ forall s, s ∈ results <->
         exists t vertex,
           heap_l overshoot_heap !! t = Some 2%nat
           /\ heap_v overshoot_heap !! t = Some vertex
           /\ vertex_string vertex = s.
Proof.
  destruct (C4_search_end accept_all acgt 46 8 10 0 [A] 2 1000
              float_correct_penalty float_insert_penalty
              float_delete_penalty float_mutate_penalty overshoot_heap)
    as [Hend _].
  - unfold widths_fit. lia.
  - unfold heap_wf. cbn. lia.
  - unfold overshoot_heap, root, vertex_fits. cbn [heap_v].
    repeat (apply Forall_cons_2; [cbn; lia|]). apply Forall_nil_2.
  - apply Hend.
    + left. reflexivity.
    + unfold overshoot_heap. cbn [heap_s].
      repeat (apply Forall_cons_2; [vm_compute; reflexivity|]).
      apply Forall_nil_2.
Defined.

(** ** C8: leaving the search on the heap limit *)

(** C8 (counterexample).  With a heap limit of zero the search ends at once
    without a vertex at the target bit length, and [repair] returns an empty
    list and the heap size: nothing is raised and the strand index is not
    reported. *)
Lemma C8_counterexample :
  repair accept_all acgt 46 8 10 7 [A] (float_of_Z 0) 1 0 float_correct_penalty
    float_insert_penalty float_delete_penalty float_mutate_penalty 5
  = Ok ([], 1%nat).
Proof. vm_compute. reflexivity. Qed.

(** C8 (amended).  When [repair] leaves the search on a heap that holds
    more than [heap_limitation] vertices, none of them at the target bit
    length, it returns to the caller the empty list of strings together
    with the size of the heap: this exit raises nothing, and what is
    returned does not hold the strand index.  The scores are numbers of any
    kind. *)
Theorem C8_heap_limit_exit {T : Type} {score_ops : Score T}
    (bio_filter_valid : dna -> bool -> bool)
    (mapping : list nucleotide)
    (salt_number previous_number low_order_number : nat) (strand_index : Z)
    (dna_string : dna) (initial_score : T) (bit_length : nat)
    (heap_limitation : Z)
    (correct_penalty insert_penalty delete_penalty mutate_penalty : T)
    (fuel : nat) (heap : Heap T) :
  repair_loop bio_filter_valid mapping salt_number previous_number
    low_order_number strand_index dna_string bit_length heap_limitation
    correct_penalty insert_penalty delete_penalty mutate_penalty fuel
    (initial_heap initial_score) = Ok heap ->
  heap_limitation < Z.of_nat (length (heap_v heap)) ->
  (forall t, heap_l heap !! t <> Some bit_length) ->
  repair bio_filter_valid mapping salt_number previous_number
    low_order_number strand_index dna_string initial_score bit_length
    heap_limitation correct_penalty insert_penalty delete_penalty
    mutate_penalty fuel = Ok ([], length (heap_v heap)).
Proof.
  intros Hrun Hlim Hnone. unfold repair. rewrite Hrun. cbn [bind].
  destruct (loop_final _ _ _ _ _ _ _ _ _ _ _ _ _ _ _ _
              (initial_heap_wf initial_score) Hrun) as (Hwf & _ & _).
  destruct (terminal_strings_wf bit_length heap Hwf) as (results & -> & Hiff).
  cbn [bind]. destruct results as [|s results]; [reflexivity|].
  destruct (proj1 (Hiff s)) as (t & _ & Ht & _); [left|].
  destruct (Hnone t Ht).
Qed.

Lemma C8_heap_limit_exit_witness :
  repair accept_all acgt 46 8 10 7 [A] (float_of_Z 0) 1 0 float_correct_penalty
    float_insert_penalty float_delete_penalty float_mutate_penalty 5
  = Ok ([], length (heap_v (initial_heap (float_of_Z 0)))).
Proof.
  apply (C8_heap_limit_exit accept_all acgt 46 8 10 7 [A] (float_of_Z 0) 1 0
           float_correct_penalty float_insert_penalty float_delete_penalty
           float_mutate_penalty 5
           {| heap_v := [root]; heap_s := [float_of_Z 1]; heap_i := [0%nat];
              heap_l := [0%nat] |}).
  - vm_compute. reflexivity.
  - cbn. lia.
  - intros [|t]; cbn; discriminate.
Defined.

(** ** C5: termination of the search *)

(** On an empty received string the only vertex of the heap has no
    follower, and the score that retires it is 0: an iteration leaves the
    heap as it was. *)
Lemma pass_spins (bio_filter_valid : dna -> bool -> bool)
    (mapping : list nucleotide)
    (salt_number previous_number low_order_number : nat) (strand_index : Z)
    (bit_length : nat) (heap_limitation : Z)
    (correct_penalty insert_penalty delete_penalty mutate_penalty : Q)
    (score : Q) :
  (0 < bit_length)%nat -> 1 <= heap_limitation ->
  repair_pass bio_filter_valid mapping salt_number previous_number
    low_order_number strand_index [] bit_length heap_limitation
    correct_penalty insert_penalty delete_penalty mutate_penalty
    {| heap_v := [root]; heap_s := [score]; heap_i := [0%nat]; heap_l := [0%nat] |}
  = Ok (inr {| heap_v := [root]; heap_s := [0%Q]; heap_i := [0%nat];
               heap_l := [0%nat] |}).
Proof.
  intros Hlen Hlim. unfold repair_pass.
  cbn [heap_s python_min fold_left bind]. unfold where_. cbn [where_from].
  rewrite Qeq_bool_refl.
  cbn [getitem lookup list_lookup bind expand_chucks heap_v heap_i heap_s heap_l
       length Nat.ltb Nat.leb].
  rewrite next_consumed by (cbn [length]; lia).
  cbn [bind]. unfold search_finished. cbn [heap_l heap_v length].
  replace (bit_length =? max_list [0%nat])%nat with false
    by (symmetry; apply Nat.eqb_neq; cbn; lia).
  replace (Z.of_nat 1 >? heap_limitation) with false
    by (symmetry; rewrite Z.gtb_ltb; apply Z.ltb_ge; lia).
  reflexivity.
Qed.

Lemma loop_spins (bio_filter_valid : dna -> bool -> bool)
    (mapping : list nucleotide)
    (salt_number previous_number low_order_number : nat) (strand_index : Z)
    (bit_length : nat) (heap_limitation : Z)
    (correct_penalty insert_penalty delete_penalty mutate_penalty : Q)
    (fuel : nat) :
  (0 < bit_length)%nat -> 1 <= heap_limitation ->
  forall score,
    repair_loop bio_filter_valid mapping salt_number previous_number
      low_order_number strand_index [] bit_length heap_limitation
      correct_penalty insert_penalty delete_penalty mutate_penalty fuel
      {| heap_v := [root]; heap_s := [score]; heap_i := [0%nat]; heap_l := [0%nat] |}
    = OutOfFuel.
Proof.
  intros Hlen Hlim. induction fuel as [|fuel IH]; intros score; cbn [repair_loop].
  - reflexivity.
  - rewrite pass_spins by assumption. cbn [bind]. apply IH.
Qed.

(** The retiring score does not keep a vertex out of later iterations
    either when the received string is not empty: on the received string
    [A] the third iteration expands the root, retired in the first one,
    and the follower retired in the second one. *)
Remark retired_vertices_are_expanded_again :
  exists heap lowest,
    repair_pass accept_all acgt 46 8 10 0 [A] 1 1000 float_correct_penalty
      float_insert_penalty float_delete_penalty float_mutate_penalty
      overshoot_heap = Ok (inr heap)
    /\ heap_s heap
       = [float_of_Z 1; float_of_Z 1; float_of_Z 1; float_of_Z 1; float_of_Z 1;
          float_of_Z 1; float_of_Z 1; float_of_Z 1; float_of_Z 1]
    /\ python_min (heap_s heap) = Ok lowest
    /\ where_ (fun score => score_eqb score lowest) (heap_s heap)
       = [0; 1; 2; 3; 4; 5; 6; 7; 8]%nat.
Proof.
  do 2 eexists. split; [vm_compute; reflexivity|].
  split; [vm_compute; reflexivity|]. split; [reflexivity|].
  vm_compute. reflexivity.
Qed.

(** C5 (the code departs from the claim).  On the empty received string
    with a positive target bit length and a heap limit of one vertex or
    more, [repair] never returns, whatever the oracle, the mapping, the
    initial score and the penalties: every iteration expands the retired
    root again, whose retiring score 0 is the lowest score of the heap. *)
Theorem C5_repair_spins (bio_filter_valid : dna -> bool -> bool)
    (mapping : list nucleotide)
    (salt_number previous_number low_order_number : nat) (strand_index : Z)
    (initial_score : Q) (bit_length : nat) (heap_limitation : Z)
    (correct_penalty insert_penalty delete_penalty mutate_penalty : Q)
    (fuel : nat) :
  (0 < bit_length)%nat -> 1 <= heap_limitation ->
  repair bio_filter_valid mapping salt_number previous_number low_order_number
    strand_index [] initial_score bit_length heap_limitation
    correct_penalty insert_penalty delete_penalty mutate_penalty fuel
  = OutOfFuel.
Proof.
  intros Hlen Hlim. unfold repair, initial_heap. fold root.
  rewrite loop_spins by assumption. reflexivity.
Qed.

Lemma C5_repair_spins_witness :
  repair accept_all acgt 46 8 10 0 [] 0 1 1000000 default_correct_penalty
    default_insert_penalty default_delete_penalty default_mutate_penalty 1000
  = OutOfFuel.
Proof.
  apply (C5_repair_spins accept_all acgt 46 8 10 0 0 1 1000000); lia.
Defined.

(** * Further properties of the code *)

(** *** X1: the decoder returns bits *)

(** X1.  Whatever string it is given, when [decode] returns, it returns a
    list of bits 0/1 that is no longer than the declared bit length and no
    longer than twice the string. *)
Theorem X1_decode_returns_bits (bio_filter_valid : dna -> bool -> bool)
    (mapping : list nucleotide)
    (salt_number previous_number low_order_number : nat) (strand_index : Z)
    (dna_string : dna) (bit_length : nat) (decoded : list Z) :
  decode bio_filter_valid mapping salt_number previous_number low_order_number
    strand_index dna_string bit_length = Ok decoded ->
  Forall is_bit decoded
  /\ (length decoded <= bit_length)%nat
  /\ (length decoded <= 2 * length dna_string)%nat.
Proof.
  unfold decode. intros H.
  apply dec_loop_bits in H as (Hbits & Hlen & Hlen'); [|apply Forall_nil_2].
  cbn [length] in Hlen'. auto.
Qed.

Lemma X1_decode_returns_bits_witness :
  Forall is_bit [1; 1; 0; 1; 1; 0; 0]
  /\ (length [1; 1; 0; 1; 1; 0; 0] <= 7)%nat
  /\ (length [1; 1; 0; 1; 1; 0; 0] <= 2 * length [G; A; T; T; A])%nat.
Proof.
  apply (X1_decode_returns_bits accept_all acgt 46 8 10 3 [G; A; T; T; A] 7).
  vm_compute. reflexivity.
Defined.

(** *** X2: the only exception of the encoder *)

(** X2.  With a non-empty mapping, a message of bits and registers of 63
    bits at most, the only exception [encode] raises is its [ValueError],
    which carries the strand index: no list is ever indexed out of
    range. *)
Theorem X2_encode_raises_only_its_error (bio_filter_valid : dna -> bool -> bool)
    (mapping : list nucleotide)
    (salt_number previous_number low_order_number : nat) (strand_index : Z)
    (bits : list Z) (fuel : nat) (e : exn) :
  widths_fit salt_number previous_number low_order_number ->
  Forall is_bit bits ->
  mapping <> [] ->
  encode bio_filter_valid mapping salt_number previous_number low_order_number
    strand_index bits fuel = Raise e ->
  e = CannotBeEncoded strand_index.
Proof.
  intros _ _ Hmap H. unfold encode in H.
  destruct (enc_loop_outcome bio_filter_valid mapping salt_number previous_number
              low_order_number strand_index bits fuel [] mapping 0%nat Hmap)
    as [[encoded E] | [E | E]]; congruence.
Qed.

Lemma X2_encode_raises_only_its_error_witness :
  encode reject_longer acgt 46 8 10 5 [0; 1; 1; 0; 1] 10
  = Raise (CannotBeEncoded 5)
  /\ CannotBeEncoded 5 = CannotBeEncoded 5.
Proof.
  split; [vm_compute; reflexivity|].
  apply (X2_encode_raises_only_its_error reject_longer acgt 46 8 10 5
           [0; 1; 1; 0; 1] 10).
  - unfold widths_fit. lia.
  - repeat (apply Forall_cons_2; [unfold is_bit; lia|]). apply Forall_nil_2.
  - discriminate.
  - vm_compute. reflexivity.
Defined.

(** *** X3: the encoder stops when it always has a choice *)

(** X3.  When the mapping has two nucleotides or more and the oracle never
    leaves exactly one nucleotide available, on a message of bits and with
    registers of 63 bits at most, [encode] leaves its loop within
    [len(binary_message)] iterations: it returns a string of at most
    [len(binary_message)] nucleotides, or it raises its [ValueError]. *)
Theorem X3_encode_stops (bio_filter_valid : dna -> bool -> bool)
    (mapping : list nucleotide)
    (salt_number previous_number low_order_number : nat) (strand_index : Z)
    (bits : list Z) :
  widths_fit salt_number previous_number low_order_number ->
  Forall is_bit bits ->
  (2 <= length mapping)%nat ->
  (forall s, length (collect_available bio_filter_valid mapping s) <> 1%nat) ->
  (exists encoded,
      encode bio_filter_valid mapping salt_number previous_number
        low_order_number strand_index bits (S (length bits)) = Ok encoded
      /\ (length encoded <= length bits)%nat)
  \/ encode bio_filter_valid mapping salt_number previous_number
       low_order_number strand_index bits (S (length bits))
     = Raise (CannotBeEncoded strand_index).
Proof.
  intros _ _ Hmap Hall. unfold encode.
  apply enc_loop_bounded; [assumption | | lia | lia | cbn [length]; lia].
  intros ->. cbn [length] in Hmap. lia.
Qed.

Lemma no_repeat_available (s : dna) :
  length (collect_available no_repeat acgt s) <> 1%nat.
Proof.
  unfold collect_available, no_repeat, acgt.
  destruct (reverse s) as [|x r] eqn:E.
  - apply (f_equal reverse) in E. rewrite reverse_involutive in E. subst s.
    vm_compute. discriminate.
  - assert (Hrev : forall p, reverse (s ++ [p]) = p :: x :: r)
      by (intros p; rewrite reverse_app, E; reflexivity).
    cbn [filter list_filter]. rewrite !Hrev.
    destruct x; vm_compute; discriminate.
Qed.

Lemma X3_encode_stops_witness :
  (exists encoded,
      encode no_repeat acgt 46 8 10 7 [1; 0; 1; 1; 0] 6 = Ok encoded
      /\ (length encoded <= 5)%nat)
  \/ encode no_repeat acgt 46 8 10 7 [1; 0; 1; 1; 0] 6 = Raise (CannotBeEncoded 7).
Proof.
  apply (X3_encode_stops no_repeat acgt 46 8 10 7 [1; 0; 1; 1; 0]).
  - unfold widths_fit. lia.
  - repeat (apply Forall_cons_2; [unfold is_bit; lia|]). apply Forall_nil_2.
  - cbn. lia.
  - exact no_repeat_available.
Defined.

(** *** X4: the encoder spins when it never has a choice *)

(** X4.  When the oracle leaves exactly one nucleotide available after every
    non-empty string, with registers of 63 bits at most, [encode] never
    leaves its loop on a message of more than two bits: after the first
    emission no iteration consumes a bit. *)
Theorem X4_encode_spins (bio_filter_valid : dna -> bool -> bool)
    (mapping : list nucleotide)
    (salt_number previous_number low_order_number : nat) (strand_index : Z)
    (bits : list Z) (fuel : nat) :
  widths_fit salt_number previous_number low_order_number ->
  Forall is_bit bits ->
  mapping <> [] ->
  (forall s, s <> [] ->
             length (collect_available bio_filter_valid mapping s) = 1%nat) ->
  (2 < length bits)%nat ->
  encode bio_filter_valid mapping salt_number previous_number low_order_number
    strand_index bits fuel = OutOfFuel.
Proof.
  intros _ _ Hmap Hall Hlen. unfold encode.
  destruct fuel as [|fuel]; [reflexivity|].
  cbn [encode_loop].
  destruct (Nat.ltb_spec 0 (length bits)); [|lia].
  destruct (emit_total salt_number previous_number low_order_number strand_index
              bits mapping 0%nat Hmap ltac:(lia)) as (x & loc' & He).
  rewrite He. cbn [bind app].
  apply emit_advance in He as [He _].
  rewrite (proj2 (Nat.eqb_neq _ _));
    [|rewrite (Hall [x]) by discriminate; discriminate].
  apply enc_loop_forced; [assumption | discriminate | lia].
Qed.

Lemma only_A_available (s : dna) :
  s <> [] -> length (collect_available only_A acgt s) = 1%nat.
Proof.
  intros _. unfold collect_available, only_A, acgt.
  cbn [filter list_filter]. rewrite !last_snoc. vm_compute. reflexivity.
Qed.

Lemma X4_encode_spins_witness :
  encode only_A acgt 46 8 10 0 [0; 1; 1] 1000 = OutOfFuel.
Proof.
  apply (X4_encode_spins only_A acgt 46 8 10 0 [0; 1; 1] 1000).
  - unfold widths_fit. lia.
  - repeat (apply Forall_cons_2; [unfold is_bit; lia|]). apply Forall_nil_2.
  - discriminate.
  - exact only_A_available.
  - cbn. lia.
Defined.

(** *** X5: two messages never share an encoded string *)

(** X5.  With a mapping of distinct nucleotides, two messages of bits of the
    same length that [encode] turns into the same string (same oracle,
    strand index and parameters) are the same message. *)
Theorem X5_encode_injective (bio_filter_valid : dna -> bool -> bool)
    (mapping : list nucleotide)
    (salt_number previous_number low_order_number : nat) (strand_index : Z)
    (bits bits' : list Z) (fuel fuel' : nat) (encoded : dna) :
  NoDup mapping ->
  Forall is_bit bits -> Forall is_bit bits' ->
  length bits = length bits' ->
  encode bio_filter_valid mapping salt_number previous_number low_order_number
    strand_index bits fuel = Ok encoded ->
  encode bio_filter_valid mapping salt_number previous_number low_order_number
    strand_index bits' fuel' = Ok encoded ->
  bits = bits'.
Proof.
  intros Hmap Hbits Hbits' Hlen He He'. unfold encode in He, He'.
  pose proof (roundtrip_loop _ _ _ _ _ _ _ _ _ [] mapping 0%nat Hmap Hbits Hmap He)
    as Hd.
  pose proof (roundtrip_loop _ _ _ _ _ _ _ _ _ [] mapping 0%nat Hmap Hbits' Hmap He')
    as Hd'.
  change (take 0 bits) with (@nil Z) in Hd.
  change (take 0 bits') with (@nil Z) in Hd'.
  rewrite Hlen in Hd. congruence.
Qed.

Lemma X5_encode_injective_witness : [1; 0; 1; 1; 0] = [1; 0; 1; 1; 0].
Proof.
  apply (X5_encode_injective no_repeat acgt 46 8 10 7 [1; 0; 1; 1; 0]
           [1; 0; 1; 1; 0] 10 20 [T; A; C; G]).
  - exact acgt_NoDup.
  - repeat (apply Forall_cons_2; [unfold is_bit; lia|]). apply Forall_nil_2.
  - repeat (apply Forall_cons_2; [unfold is_bit; lia|]). apply Forall_nil_2.
  - reflexivity.
  - vm_compute. reflexivity.
  - vm_compute. reflexivity.
Defined.

(** *** X6: the strings [repair] returns *)

(** X6.  Every string [repair] returns was accepted by the oracle
    nucleotide by nucleotide (each of its non-empty prefixes, the first
    nucleotide included), and has at least [ceil(bit_length / 2)]
    nucleotides; no string is returned twice. *)
Theorem X6_repair_candidates (bio_filter_valid : dna -> bool -> bool)
    (mapping : list nucleotide)
    (salt_number previous_number low_order_number : nat) (strand_index : Z)
    (dna_string : dna) (initial_score : Q) (bit_length : nat)
    (heap_limitation : Z)
    (correct_penalty insert_penalty delete_penalty mutate_penalty : Q)
    (fuel : nat) (candidates : list dna) (size : nat) :
  repair bio_filter_valid mapping salt_number previous_number low_order_number
    strand_index dna_string initial_score bit_length heap_limitation
    correct_penalty insert_penalty delete_penalty mutate_penalty fuel
  = Ok (candidates, size) ->
  NoDup candidates
  /\ forall s, s ∈ candidates ->
       (forall n, (1 <= n <= length s)%nat ->
                  bio_filter_valid (take n s) true = true)
       /\ (bit_length <= 2 * length s)%nat.
Proof.
  unfold repair. intros H. inv_bind H. inversion H; subst. clear H.
  split; [apply NoDup_remove_dups|].
  intros s Hs. rewrite elem_of_remove_dups in Hs.
  pose proof (loop_heap_ok _ _ _ _ _ _ _ _ _ _ _ _ _ _ _ _ Hx) as (Hl & Hv & _).
  destruct (loop_final _ _ _ _ _ _ _ _ _ _ _ _ _ _ _ _
              (initial_heap_wf initial_score) Hx) as (Hwf & _ & _).
  destruct (terminal_strings_wf bit_length x Hwf) as (results & Hres & Hiff).
  assert (results = x0) as -> by congruence.
  apply Hiff in Hs as (t & vertex & Ht & Hvt & <-).
  rewrite Forall_lookup in Hv. destruct (Hv _ _ Hvt) as [Hpre Hbits].
  split; [exact Hpre|].
  rewrite Hl, list_lookup_fmap, Hvt in Ht. cbn in Ht. inversion Ht. lia.
Qed.

Lemma X6_repair_candidates_witness :
  NoDup [[T; A; C; A]; [T; A; C; G]]
  /\ forall s, s ∈ [[T; A; C; A]; [T; A; C; G]] ->
       (forall n, (1 <= n <= length s)%nat -> no_repeat (take n s) true = true)
       /\ (5 <= 2 * length s)%nat.
Proof.
  apply (X6_repair_candidates no_repeat acgt 46 8 10 7 [T; A; C; G] 0 5 1000
           default_correct_penalty default_insert_penalty default_delete_penalty
           default_mutate_penalty 20 [[T; A; C; A]; [T; A; C; G]] 24).
  vm_compute. reflexivity.
Defined.

(** *** X7: an empty answer means the heap limit *)

(** X7.  [repair] returns a heap size of one vertex or more, and it only
    returns an empty list of strings when that size is above the heap
    limit: a search that ends within the limit returns a string. *)
Theorem X7_repair_answers (bio_filter_valid : dna -> bool -> bool)
    (mapping : list nucleotide)
    (salt_number previous_number low_order_number : nat) (strand_index : Z)
    (dna_string : dna) (initial_score : Q) (bit_length : nat)
    (heap_limitation : Z)
    (correct_penalty insert_penalty delete_penalty mutate_penalty : Q)
    (fuel : nat) (candidates : list dna) (size : nat) :
  repair bio_filter_valid mapping salt_number previous_number low_order_number
    strand_index dna_string initial_score bit_length heap_limitation
    correct_penalty insert_penalty delete_penalty mutate_penalty fuel
  = Ok (candidates, size) ->
  (1 <= size)%nat
  /\ (candidates = [] -> heap_limitation < Z.of_nat size).
Proof.
  unfold repair. intros H. inv_bind H. inversion H; subst. clear H.
  destruct (loop_final _ _ _ _ _ _ _ _ _ _ _ _ _ _ _ _
              (initial_heap_wf initial_score) Hx) as (Hwf & _ & Hfin).
  pose proof Hwf as (_ & _ & Hl & Hpos).
  split; [lia|]. intros Hnone.
  unfold search_finished in Hfin. apply orb_true_iff in Hfin as [Hfin|Hfin];
    [|apply Z.gtb_lt in Hfin; exact Hfin].
  apply Nat.eqb_eq in Hfin. exfalso.
  destruct (terminal_strings_wf bit_length x Hwf) as (results & Hres & Hiff).
  assert (results = x0) as -> by congruence.
  assert (Hin : max_list (heap_l x) ∈ heap_l x).
  { apply max_list_elem_of. intros E'. rewrite E' in Hl. cbn in Hl. lia. }
  apply list_elem_of_lookup in Hin as [t Ht]. rewrite <- Hfin in Ht.
  destruct (lookup_lt_is_Some_2 (heap_v x) t) as [vertex Hvt].
  { apply lookup_lt_Some in Ht. lia. }
  assert (Hs : vertex_string vertex ∈ x0) by (apply Hiff; eauto).
  rewrite <- elem_of_remove_dups in Hs. rewrite Hnone in Hs. inversion Hs.
Qed.

Lemma X7_repair_answers_witness :
  (1 <= 1)%nat /\ ([] = @nil dna -> 0 < Z.of_nat 1).
Proof.
  apply (X7_repair_answers accept_all acgt 46 8 10 7 [A] 0 1 0
           default_correct_penalty default_insert_penalty default_delete_penalty
           default_mutate_penalty 5 [] 1).
  vm_compute. reflexivity.
Defined.

(** *** X8: the target bit length 0 *)

(** X8.  With the target bit length 0, registers of 63 bits at most and an
    initial score that equals itself (any number but [nan]), [repair]
    returns at its first test, whatever the received string, the oracle,
    the heap limit and the penalties: its answer is the empty string alone
    and a heap of one vertex. *)
Theorem X8_repair_no_bits {T : Type} {score_ops : Score T}
    (bio_filter_valid : dna -> bool -> bool)
    (mapping : list nucleotide)
    (salt_number previous_number low_order_number : nat) (strand_index : Z)
    (dna_string : dna) (initial_score : T) (heap_limitation : Z)
    (correct_penalty insert_penalty delete_penalty mutate_penalty : T)
    (fuel : nat) :
  widths_fit salt_number previous_number low_order_number ->
  score_eqb initial_score initial_score = true ->
  repair bio_filter_valid mapping salt_number previous_number low_order_number
    strand_index dna_string initial_score 0 heap_limitation
    correct_penalty insert_penalty delete_penalty mutate_penalty (S fuel)
  = Ok ([[]], 1%nat).
Proof.
  intros _ Hself. unfold repair. cbn [repair_loop].
  destruct (pass_finished bio_filter_valid mapping salt_number previous_number
              low_order_number strand_index dna_string 0 heap_limitation
              correct_penalty insert_penalty delete_penalty mutate_penalty
              (initial_heap initial_score) (initial_heap_wf initial_score))
    as [scores ->]; [|reflexivity|].
  - apply Forall_cons_2; [exact Hself | apply Forall_nil_2].
  - cbn [bind]. reflexivity.
Qed.

Lemma X8_repair_no_bits_witness :
  repair accept_all acgt 46 8 10 7 [A; C] (float_of_Z 0) 0 1000
    float_correct_penalty float_insert_penalty float_delete_penalty
    float_mutate_penalty 1
  = Ok ([[]], 1%nat).
Proof.
  apply (X8_repair_no_bits accept_all acgt 46 8 10 7 [A; C] (float_of_Z 0) 1000
           float_correct_penalty float_insert_penalty float_delete_penalty
           float_mutate_penalty 0).
  - unfold widths_fit. lia.
  - vm_compute. reflexivity.
Defined.

(** *** X9: the size of the heap *)

(** X9.  With a mapping of four nucleotides at most, the heap [repair]
    returns the size of never holds more than [heap_limitation + 12]
    vertices (one vertex when the limit is below that): the test is made
    before the at most twelve vertices followed from one vertex are
    appended. *)
Theorem X9_repair_heap_size (bio_filter_valid : dna -> bool -> bool)
    (mapping : list nucleotide)
    (salt_number previous_number low_order_number : nat) (strand_index : Z)
    (dna_string : dna) (initial_score : Q) (bit_length : nat)
    (heap_limitation : Z)
    (correct_penalty insert_penalty delete_penalty mutate_penalty : Q)
    (fuel : nat) (candidates : list dna) (size : nat) :
  (length mapping <= 4)%nat ->
  repair bio_filter_valid mapping salt_number previous_number low_order_number
    strand_index dna_string initial_score bit_length heap_limitation
    correct_penalty insert_penalty delete_penalty mutate_penalty fuel
  = Ok (candidates, size) ->
  Z.of_nat size <= Z.max 1 (heap_limitation + 12).
Proof.
  unfold repair. intros Hmap H. inv_bind H. inversion H; subst.
  eapply loop_size; eassumption.
Qed.

Lemma X9_repair_heap_size_witness :
  Z.of_nat 23 <= Z.max 1 (20 + 12).
Proof.
  apply (X9_repair_heap_size no_repeat acgt 46 8 10 7 [T; A; C; C; G] 0 5 20
           default_correct_penalty default_insert_penalty default_delete_penalty
           default_mutate_penalty 20 [[T; A; C; A]; [T; A; C; G]] 23).
  - cbn. lia.
  - vm_compute. reflexivity.
Defined.

(** *** X10: [repair] finds an undamaged string again *)

Lemma collect_first (bio_filter_valid : dna -> bool -> bool)
    (mapping : list nucleotide) :
  (forall x, x ∈ mapping -> bio_filter_valid [x] true = true) ->
  collect_available bio_filter_valid mapping [] = mapping.
Proof.
  unfold collect_available. induction mapping as [|y mapping IH]; intros Hall.
  - reflexivity.
  - rewrite filter_cons_True by (apply Hall; left).
    f_equal. apply IH. intros x Hx. apply Hall. right. exact Hx.
Qed.

(** X10.  [repair] on the string that [encode] returned, unchanged, with
    the length of the encoded message.  The registers are 63 bits wide at
    most, the mapping holds no nucleotide twice and the oracle accepts each
    of its nucleotides as a first nucleotide, and the nucleotides of the
    string carry exactly the bits of the message.  The scores, numbers of
    any kind, keep their order along the string: with [walk n] for the
    initial score and [n] correct penalties added one after the other, no
    [walk n] is [nan], each [walk k] is below what an earlier [walk n] and
    an error penalty add up to, and, from the first nucleotide on, below
    [len(dna_string)].  Then [repair] returns, with one iteration of
    [while True] for each nucleotide and one more, and the encoded string
    is among the strings it returns unless the heap size it returns is above
    the heap limit. *)
Theorem X10_repair_agreement {T : Type} {score_ops : Score T}
    {order : ScoreOrder T}
    (bio_filter_valid : dna -> bool -> bool)
    (mapping : list nucleotide)
    (salt_number previous_number low_order_number : nat) (strand_index : Z)
    (bits : list Z) (fuel : nat) (encoded : dna)
    (initial_score : T) (heap_limitation : Z)
    (correct_penalty insert_penalty delete_penalty mutate_penalty : T) :
  widths_fit salt_number previous_number low_order_number ->
  NoDup mapping ->
  (forall x, x ∈ mapping -> bio_filter_valid [x] true = true) ->
  encode bio_filter_valid mapping salt_number previous_number low_order_number
    strand_index bits fuel = Ok encoded ->
  carried_bits bio_filter_valid mapping encoded = length bits ->
  (forall n, (n <= length encoded)%nat ->
     score_eqb (walk_score initial_score correct_penalty n)
       (walk_score initial_score correct_penalty n) = true) ->
  (forall n k, (n < k <= length encoded)%nat ->
     score_ltb (walk_score initial_score correct_penalty k)
       (score_add (walk_score initial_score correct_penalty n) mutate_penalty)
     = true
     /\ score_ltb (walk_score initial_score correct_penalty k)
          (score_add (walk_score initial_score correct_penalty n) insert_penalty)
        = true
     /\ score_ltb (walk_score initial_score correct_penalty k)
          (score_add (walk_score initial_score correct_penalty n) delete_penalty)
        = true) ->
  (forall k, (1 <= k <= length encoded)%nat ->
     score_ltb (walk_score initial_score correct_penalty k)
       (score_of_nat (length encoded)) = true) ->
  exists candidates size,
    repair bio_filter_valid mapping salt_number previous_number
      low_order_number strand_index encoded initial_score (length bits)
      heap_limitation correct_penalty insert_penalty delete_penalty
      mutate_penalty (S (length encoded))
    = Ok (candidates, size)
    /\ (encoded ∈ candidates \/ (heap_limitation < Z.of_nat size)%Z).
Proof.
  intros _ Hnodup Hfirst Hencode Harrival Hself Hlowest Hretired.
  pose proof (collect_first bio_filter_valid mapping Hfirst) as Hroot.
  destruct (enc_walk bio_filter_valid mapping salt_number previous_number
              low_order_number strand_index Hnodup bits encoded fuel
              [] mapping 0%nat Hencode (eq_sym Hroot) eq_refl)
    as [Hwalk _].
  assert (Hhead : head_at bio_filter_valid mapping encoded initial_score
                    correct_penalty (initial_heap initial_score) 0 0).
  { unfold head_at, heap_wf, initial_heap. cbn [heap_v heap_s heap_i heap_l].
    rewrite take_0. repeat split; try (cbn; lia); try reflexivity.
    - exists 0. reflexivity.
    - intros [|j] y Hj Hy; [congruence | discriminate]. }
  destruct (head_loop bio_filter_valid mapping salt_number previous_number
              low_order_number strand_index encoded (length bits)
              heap_limitation correct_penalty insert_penalty delete_penalty
              mutate_penalty Hnodup initial_score
              (fun n x Hx => Hwalk n x (Nat.le_0_l n) Hx) Harrival
              Hself Hlowest Hretired
              (length encoded) (initial_heap initial_score) 0%nat 0%nat
              Hhead eq_refl)
    as (heap & Hloop & Hwf & Hend).
  destruct (terminal_strings_wf (length bits) heap Hwf)
    as (results & Hresults & Hiff).
  exists (remove_dups results), (length (heap_v heap)).
  split.
  - unfold repair. rewrite Hloop. cbn [bind]. rewrite Hresults. reflexivity.
  - destruct Hend as [Hlimit|Hfound]; [right; exact Hlimit|].
    left. rewrite elem_of_remove_dups. apply Hiff. exact Hfound.
Qed.

Lemma X10_repair_agreement_witness :
  exists candidates size,
    repair no_repeat acgt 46 8 10 7 [T; A; C; G] (float_of_Z 0) 5 1000
      float_correct_penalty float_insert_penalty float_delete_penalty
      float_mutate_penalty 5
    = Ok (candidates, size)
    /\ ([T; A; C; G] ∈ candidates \/ (1000 < Z.of_nat size)%Z).
Proof.
  apply (X10_repair_agreement no_repeat acgt 46 8 10 7 [1; 0; 1; 1; 0] 6
           [T; A; C; G] (float_of_Z 0) 1000 float_correct_penalty
           float_insert_penalty float_delete_penalty float_mutate_penalty).
  - unfold widths_fit. lia.
  - apply acgt_NoDup.
  - intros x _. reflexivity.
  - vm_compute. reflexivity.
  - vm_compute. reflexivity.
  - intros n Hn. cbn [length] in Hn.
    destruct n as [|[|[|[|[|n]]]]]; [vm_compute; reflexivity..|lia].
  - intros n k Hnk. cbn [length] in Hnk.
    destruct k as [|[|[|[|[|k]]]]]; try lia;
      destruct n as [|[|[|[|n]]]]; try lia;
      vm_compute; repeat split.
  - intros k Hk. cbn [length] in Hk.
    destruct k as [|[|[|[|[|k]]]]]; try lia; vm_compute; reflexivity.
Defined.

(** *** X11: how many bits [decode] returns *)

(** X11.  On a string in which every nucleotide is one of the nucleotides
    available after the ones before it, with a mapping of different
    nucleotides each of which the oracle accepts as a first nucleotide, a
    returning [decode] returns as many bits as the nucleotides carry (two
    for four available nucleotides, one for two or three, none for one), or
    [bit_length] bits if they carry more. *)
Theorem X11_decode_length (bio_filter_valid : dna -> bool -> bool)
    (mapping : list nucleotide)
    (salt_number previous_number low_order_number : nat) (strand_index : Z)
    (dna_string : dna) (bit_length : nat) (decoded : list Z) :
  NoDup mapping ->
  (forall x, x ∈ mapping -> bio_filter_valid [x] true = true) ->
  readable bio_filter_valid mapping dna_string ->
  decode bio_filter_valid mapping salt_number previous_number low_order_number
    strand_index dna_string bit_length = Ok decoded ->
  length decoded
  = Nat.min bit_length (carried_bits bio_filter_valid mapping dna_string).
Proof.
  intros Hnodup Hfirst Hread H. unfold decode in H.
  apply (dec_loop_length bio_filter_valid mapping salt_number previous_number
           low_order_number strand_index Hnodup dna_string bit_length
           dna_string 0%nat [] mapping decoded Hread eq_refl
           (eq_sym (collect_first bio_filter_valid mapping Hfirst)) H).
Qed.

Lemma X11_decode_length_witness :
  length [0; 1; 1; 1; 1; 0; 0]
  = Nat.min 7 (carried_bits accept_all acgt [G; A; T; T; A]).
Proof.
  apply (X11_decode_length accept_all acgt 46 8 10 7 [G; A; T; T; A] 7
           [0; 1; 1; 1; 1; 0; 0]).
  - apply acgt_NoDup.
  - intros x _. reflexivity.
  - intros n x Hx.
    do 5 (destruct n as [|n];
          [inversion Hx; subst x; vm_compute; repeat constructor|]).
    inversion Hx.
  - vm_compute. reflexivity.
Defined.

(** *** X12: a repaired string decodes to a whole message *)

(** X12.  With a mapping of different nucleotides each of which the oracle
    accepts as a first nucleotide, every string [repair] returns is
    decoded, when [decode] returns on it, to exactly [bit_length] bits. *)
Theorem X12_repaired_decode_length (bio_filter_valid : dna -> bool -> bool)
    (mapping : list nucleotide)
    (salt_number previous_number low_order_number : nat) (strand_index : Z)
    (dna_string : dna) (initial_score : Q) (bit_length : nat)
    (heap_limitation : Z)
    (correct_penalty insert_penalty delete_penalty mutate_penalty : Q)
    (fuel : nat) (candidates : list dna) (size : nat)
    (s : dna) (decoded : list Z) :
  NoDup mapping ->
  (forall x, x ∈ mapping -> bio_filter_valid [x] true = true) ->
  repair bio_filter_valid mapping salt_number previous_number low_order_number
    strand_index dna_string initial_score bit_length heap_limitation
    correct_penalty insert_penalty delete_penalty mutate_penalty fuel
  = Ok (candidates, size) ->
  s ∈ candidates ->
  decode bio_filter_valid mapping salt_number previous_number low_order_number
    strand_index s bit_length = Ok decoded ->
  length decoded = bit_length.
Proof.
  intros Hnodup Hfirst H Hs Hdecode. unfold repair in H. inv_bind H.
  inversion H; subst. clear H. rewrite elem_of_remove_dups in Hs.
  pose proof (loop_heap_ok _ _ _ _ _ _ _ _ _ _ _ _ _ _ _ _ Hx) as (Hl & _ & _).
  pose proof (loop_heap_exact _ _ _ _ _ _ _ _ _ _ _ _ _ _ _ _ Hx) as Hexact.
  destruct (loop_final _ _ _ _ _ _ _ _ _ _ _ _ _ _ _ _
              (initial_heap_wf initial_score) Hx) as (Hwf & _ & _).
  destruct (terminal_strings_wf bit_length x Hwf) as (results & Hres & Hiff).
  assert (results = x0) as -> by congruence.
  apply Hiff in Hs as (t & vertex & Ht & Hvt & <-).
  rewrite Forall_lookup in Hexact. destruct (Hexact _ _ Hvt) as [Hread Hbits].
  rewrite Hl, list_lookup_fmap, Hvt in Ht. cbn in Ht. inversion Ht as [Hcarried].
  unfold decode in Hdecode.
  rewrite (dec_loop_length bio_filter_valid mapping salt_number previous_number
             low_order_number strand_index Hnodup (vertex_string vertex)
             bit_length (vertex_string vertex) 0%nat [] mapping decoded Hread
             eq_refl (eq_sym (collect_first bio_filter_valid mapping Hfirst))
             Hdecode).
  change (take 0 (vertex_string vertex)) with (@nil nucleotide).
  unfold carried_bits in Hbits. rewrite <- Hbits, Hcarried. cbn [length]. lia.
Qed.

Lemma X12_repaired_decode_length_witness :
  length [1; 0; 1; 1; 1] = 5%nat.
Proof.
  apply (X12_repaired_decode_length no_repeat acgt 46 8 10 7 [T; A; C; G] 0 5
           1000 default_correct_penalty default_insert_penalty
           default_delete_penalty default_mutate_penalty 20
           [[T; A; C; A]; [T; A; C; G]] 24 [T; A; C; A] [1; 0; 1; 1; 1]).
  - apply acgt_NoDup.
  - intros x _. reflexivity.
  - vm_compute. reflexivity.
  - repeat constructor.
  - vm_compute. reflexivity.
Defined.

(** *** X13: what [InfoVertex.next] returns *)

(** X13.  With a mapping of different nucleotides, [InfoVertex.next]
    returns four lists of one length, of twelve followers at most; the list
    of bit indices is that of the followed vertices; each followed vertex
    has the string of the vertex and one nucleotide more, available after
    that string, and the bit index of the vertex and the bits that the
    number of available nucleotides carries; each index it returns lies
    between the index it was given and the length of the received
    string. *)
Theorem X13_next_followers (bio_filter_valid : dna -> bool -> bool)
    (mapping : list nucleotide) (previous_number low_order_number : nat)
    (dna_string : dna)
    (correct_penalty insert_penalty delete_penalty mutate_penalty : Q)
    (self : InfoVertex) (salt_value : Z) (nucleotide_index : nat)
    (current_score : Q) (follow_v : list InfoVertex) (follow_s : list Q)
    (follow_i follow_l : list nat) :
  NoDup mapping ->
  next bio_filter_valid mapping previous_number low_order_number dna_string
    correct_penalty insert_penalty delete_penalty mutate_penalty
    self salt_value nucleotide_index current_score
  = Ok (follow_v, follow_s, follow_i, follow_l) ->
  (length follow_v <= 12)%nat
  /\ length follow_s = length follow_v
  /\ length follow_i = length follow_v
  /\ follow_l = map vertex_bit_index follow_v
  /\ (forall vertex, vertex ∈ follow_v ->
        exists x : nucleotide,
          x ∈ collect_available bio_filter_valid mapping (vertex_string self)
          /\ vertex_string vertex = vertex_string self ++ [x]
          /\ vertex_bit_index vertex
             = (vertex_bit_index self
                + step_bits
                    (Nat.log2
                       (length (collect_available bio_filter_valid mapping
                                  (vertex_string self)))))%nat)
  /\ (forall i, i ∈ follow_i ->
        (nucleotide_index <= i <= length dna_string)%nat).
Proof.
  intros Hnodup H.
  pose proof (next_count _ _ _ _ _ _ _ _ _ _ _ _ _ _ _ _ _
                (nucleotides_NoDup_length _ Hnodup) H) as Hcount.
  pose proof (next_lengths _ _ _ _ _ _ _ _ _ _ _ _ _ _ _ _ _ H)
    as (Hs & Hi & _).
  pose proof (next_shape _ _ _ _ _ _ _ _ _ _ _ _ _ _ _ _ _ H)
    as (Hl & Hshape & Hidx).
  split; [exact Hcount|]. split; [exact Hs|]. split; [exact Hi|].
  split; [exact Hl|]. split.
  - intros vertex Hvertex. rewrite Forall_forall in Hshape.
    destruct (Hshape vertex Hvertex) as (pv & x & Hx & ->).
    exists x. split; [exact Hx|]. split; reflexivity.
  - intros i Hin. rewrite Forall_forall in Hidx. apply (Hidx i Hin).
Qed.


Lemma X13_next_followers_witness :
  (length [InfoVertex_init 0 0 [A]; InfoVertex_init 0 0 [A]] <= 12)%nat
  /\ length [(-0.035)%Q; 1%Q]
     = length [InfoVertex_init 0 0 [A]; InfoVertex_init 0 0 [A]]
  /\ length [1%nat; 0%nat]
     = length [InfoVertex_init 0 0 [A]; InfoVertex_init 0 0 [A]]
  /\ [0%nat; 0%nat]
     = map vertex_bit_index [InfoVertex_init 0 0 [A]; InfoVertex_init 0 0 [A]]
  /\ (forall vertex,
        vertex ∈ [InfoVertex_init 0 0 [A]; InfoVertex_init 0 0 [A]] ->
        exists x : nucleotide,
          x ∈ collect_available only_A acgt (vertex_string root)
          /\ vertex_string vertex = vertex_string root ++ [x]
          /\ vertex_bit_index vertex
             = (vertex_bit_index root
                + step_bits
                    (Nat.log2
                       (length (collect_available only_A acgt
                                  (vertex_string root)))))%nat)
  /\ (forall i, i ∈ [1%nat; 0%nat] -> (0 <= i <= length [A])%nat).
Proof.
  apply (X13_next_followers only_A acgt 8 10 [A] default_correct_penalty
           default_insert_penalty default_delete_penalty default_mutate_penalty
           root 7 0 0
           [InfoVertex_init 0 0 [A]; InfoVertex_init 0 0 [A]]
           [(-0.035)%Q; 1%Q] [1%nat; 0%nat] [0%nat; 0%nat]).
  - apply acgt_NoDup.
  - vm_compute. reflexivity.
Defined.

(** *** X14: the follower that agrees with the received string *)

(** X14.  [InfoVertex.next] on a vertex at an index of the received string
    whose nucleotide the message bits can select after the string of the
    vertex, with a mapping of different nucleotides, and a salt, previous
    bits and a width of the low-order bits that fit 63 bits: [next]
    returns, and exactly one edge gets the correct penalty; its follower
    appends the received nucleotide, moves one index on and adds the bits
    that the available nucleotides carry; every other edge gets the mutate,
    insert or delete penalty.  The scores are numbers of any kind, and a
    score is the sum, as these numbers add, of the current score and the
    penalty. *)
Theorem X14_next_agreeing_follower {T : Type} {score_ops : Score T}
    (bio_filter_valid : dna -> bool -> bool)
    (mapping : list nucleotide) (previous_number low_order_number : nat)
    (dna_string : dna)
    (correct_penalty insert_penalty delete_penalty mutate_penalty : T)
    (previous_value : Z) (bit_index : nat) (s : dna)
    (salt_value : Z) (n : nat) (x : nucleotide) (current_score : T) :
  (low_order_number <= 63)%nat ->
  register previous_value ->
  register salt_value ->
  NoDup mapping ->
  dna_string !! n = Some x ->
  codable (collect_available bio_filter_valid mapping s) x ->
  exists follow_v follow_s follow_i follow_l q previous_value',
    next bio_filter_valid mapping previous_number low_order_number dna_string
      correct_penalty insert_penalty delete_penalty mutate_penalty
      (InfoVertex_init previous_value bit_index s) salt_value n current_score
    = Ok (follow_v, follow_s, follow_i, follow_l)
    /\ follow_v !! q
       = Some (InfoVertex_init previous_value'
                 (bit_index
                  + step_bits
                      (Nat.log2
                         (length (collect_available bio_filter_valid mapping s))))
                 (s ++ [x]))
    /\ follow_s !! q = Some (score_add current_score correct_penalty)
    /\ follow_i !! q = Some (n + 1)%nat
    /\ forall q' y, q' <> q -> follow_s !! q' = Some y ->
         y = score_add current_score mutate_penalty
         \/ y = score_add current_score insert_penalty
         \/ y = score_add current_score delete_penalty.
Proof.
  intros _ _ _ Hnodup Hx Hcodable.
  destruct (next_head bio_filter_valid mapping previous_number
              low_order_number dna_string correct_penalty insert_penalty
              delete_penalty mutate_penalty Hnodup
              previous_value bit_index n s x salt_value current_score
              Hx Hcodable)
    as (fv & fs & fi & fl & q & pv' & Hnext & Hv & Hs & Hi & Hothers & _).
  exists fv, fs, fi, fl, q, pv'. auto.
Qed.

Lemma X14_next_agreeing_follower_witness :
  exists follow_v follow_s follow_i follow_l q previous_value',
    next no_repeat acgt 8 10 [T; A; C; G]
      float_correct_penalty float_insert_penalty float_delete_penalty
      float_mutate_penalty (InfoVertex_init 0 0 []) 7 0 (float_of_Z 0)
    = Ok (follow_v, follow_s, follow_i, follow_l)
    /\ follow_v !! q
       = Some (InfoVertex_init previous_value'
                 (0 + step_bits
                        (Nat.log2 (length (collect_available no_repeat acgt []))))
                 ([] ++ [T]))
    /\ follow_s !! q = Some (score_add (float_of_Z 0) float_correct_penalty)
    /\ follow_i !! q = Some (0 + 1)%nat
    /\ forall q' y, q' <> q -> follow_s !! q' = Some y ->
         y = score_add (float_of_Z 0) float_mutate_penalty
         \/ y = score_add (float_of_Z 0) float_insert_penalty
         \/ y = score_add (float_of_Z 0) float_delete_penalty.
Proof.
  apply (X14_next_agreeing_follower no_repeat acgt 8 10 [T; A; C; G]
           float_correct_penalty float_insert_penalty float_delete_penalty
           float_mutate_penalty 0 0%nat [] 7 0%nat T (float_of_Z 0)).
  - lia.
  - unfold register. lia.
  - unfold register. lia.
  - apply acgt_NoDup.
  - reflexivity.
  - exists 3%nat. split; [reflexivity | vm_compute; lia].
Defined.
